(** * The IR linker of slang (source/slang/slang-ir-link.cpp)

    A shallow embedding of the linking pass: the symbol table keyed by
    mangled name, the choice of the best declaration for a target, the
    memoized cloning of the instruction graph and the driver [linkIR].

    Pointers to instructions are natural numbers into one arena that holds
    the source modules and the module under construction; [nullptr] is 0.
    A computation returns an outcome together with the state it leaves
    behind, so that the state at the point of an exception can be inspected. *)

From stdpp Require Import base list strings gmap.
From Stdlib Require Import ZArith Lia.

Local Open Scope string_scope.
Local Open Scope list_scope.

Set Default Proof Using "Type".

(** ** Outcomes *)

(** What a call can end in: a value, an exception raised by
    [SLANG_UNEXPECTED], a dereference of a null or dangling pointer (or a
    failed [SLANG_ASSERT]), or a recursion budget that ran out. *)
Inductive Outcome (A : Type) : Type :=
| Val (a : A)
| Unexpected (msg : string)
| Fault
| OutOfFuel.

Arguments Val {A} a.
Arguments Unexpected {A} msg.
Arguments Fault {A}.
Arguments OutOfFuel {A}.

Definition obind {A B : Type} (o : Outcome A) (k : A -> Outcome B) : Outcome B :=
  match o with
  | Val a => k a
  | Unexpected msg => Unexpected msg
  | Fault => Fault
  | OutOfFuel => OutOfFuel
  end.

Notation "'let?' x := o 'in' k" := (obind o (fun x => k))
  (at level 10, x pattern, o at level 100, k at level 200).

(** ** Targets *)

Module CodeGenTarget.

(** The enumerators as the switch of [CLikeSourceEmitter::getSourceStyle]
    lists them. *)
Inductive t : Type :=
| Unknown | None | GLSL | GLSL_Vulkan | GLSL_Vulkan_OneDesc | HLSL
| SPIRV | SPIRVAssembly | DXBytecode | DXBytecodeAssembly | DXIL
| DXILAssembly | CSource | CPPSource.

End CodeGenTarget.

(** ** Instructions *)

Abbreviation IRInst := nat (only parsing).
Abbreviation nullptr := 0 (only parsing).

Inductive IROp : Type :=
| kIROp_Module
| kIROp_Func
| kIROp_Generic
| kIROp_GlobalVar
| kIROp_GlobalConstant
| kIROp_GlobalParam
| kIROp_StructKey
| kIROp_GlobalGenericParam
| kIROp_WitnessTable
| kIROp_StructType
| kIROp_InterfaceType
| kIROp_BoolLit
| kIROp_IntLit
| kIROp_FloatLit
| kIROp_StringLit
| kIROp_PtrLit
| kIROp_Block
| kIROp_Param
| kIROp_ReturnVal
| kIROp_Specialize
| kIROp_BindGlobalGenericParam
| kIROp_BindGlobalExistentialSlots
| kIROp_VoidType
| kIROp_BoolType
| kIROp_StringType
| kIROp_BasicBlockType
| kIROp_PtrType
| kIROp_RateQualifiedType
| kIROp_TargetDecoration
| kIROp_ExportDecoration
| kIROp_ImportDecoration
| kIROp_LayoutDecoration
| kIROp_KeepAliveDecoration
| kIROp_BindExistentialSlotsDecoration
| kIROp_OtherDecoration (code : nat)
| kIROp_Other (code : nat).

#[global] Instance IROp_eq_dec : EqDecision IROp.
Proof. solve_decision. Defined.

(** The payload of an [IRConstant]; a floating-point literal is kept as
    its bit pattern. *)
Inductive IRConstantValue : Type :=
| NoValue
| IntVal (intVal : Z)
| FloatVal (bits : Z)
| StringVal (chars : string)
| PtrVal (ptrVal : nat).

#[global] Instance IRConstantValue_eq_dec : EqDecision IRConstantValue.
Proof. solve_decision. Defined.

Record IRInstData : Type := mkInst {
  op : IROp;
  typeUse : IRInst;
  operands : list IRInst;
  parent : IRInst;
  decorationsAndChildren : list IRInst;
  value : IRConstantValue;
  sourceLoc : nat
}.

Abbreviation Heap := (list IRInstData).

Definition deref (h : Heap) (p : IRInst) : Outcome IRInstData :=
  match p with
  | 0 => Fault
  | S i => match h !! i with Some d => Val d | None => Fault end
  end.

Definition isDecorationOp (o : IROp) : bool :=
  match o with
  | kIROp_TargetDecoration | kIROp_ExportDecoration | kIROp_ImportDecoration
  | kIROp_LayoutDecoration | kIROp_KeepAliveDecoration
  | kIROp_BindExistentialSlotsDecoration | kIROp_OtherDecoration _ => true
  | _ => false
  end.

(** [IRLinkageDecoration] is the common base of the import and the export
    decoration. *)
Definition isLinkageDecorationOp (o : IROp) : bool :=
  match o with
  | kIROp_ExportDecoration | kIROp_ImportDecoration => true
  | _ => false
  end.

(** [as<T>(p)] for a class [T] given by a test on the opcode: a null
    pointer is an instance of no class. *)
Definition asOp (h : Heap) (isa : IROp -> bool) (p : IRInst) : bool :=
  match deref h p with
  | Val d => isa (op d)
  | _ => false
  end.

Definition isOp (o : IROp) : IROp -> bool := fun o' => bool_decide (o' = o).

Fixpoint takeWhile {A : Type} (f : A -> bool) (l : list A) : list A :=
  match l with
  | [] => []
  | x :: l' => if f x then x :: takeWhile f l' else []
  end.

Fixpoint dropWhile {A : Type} (f : A -> bool) (l : list A) : list A :=
  match l with
  | [] => []
  | x :: l' => if f x then dropWhile f l' else l
  end.

(** Modelled from the spec: the accessors of [IRInst] (slang-ir.h is not
    under src/). Decorations are the leading run of the list of decorations
    and children; the children are what follows. *)
Definition getDecorations (h : Heap) (d : IRInstData) : list IRInst :=
  takeWhile (asOp h isDecorationOp) (decorationsAndChildren d).

Definition getChildren (h : Heap) (d : IRInstData) : list IRInst :=
  dropWhile (asOp h isDecorationOp) (decorationsAndChildren d).

Definition getFirstChild (h : Heap) (d : IRInstData) : IRInst :=
  hd nullptr (getChildren h d).

Definition getLastChild (h : Heap) (d : IRInstData) : IRInst :=
  default nullptr (last (getChildren h d)).

Definition getOperand (d : IRInstData) (i : nat) : Outcome IRInst :=
  match operands d !! i with Some v => Val v | None => Fault end.

(** The string held by operand 0 of a decoration ([getMangledName],
    [getTargetName]). *)
Definition getStringOperand (h : Heap) (d : IRInstData) : Outcome string :=
  let? lit := getOperand d 0 in
  let? l := deref h lit in
  match value l with
  | StringVal s => Val s
  | _ => Fault
  end.

Fixpoint findDecorationIn (h : Heap) (isa : IROp -> bool) (ds : list IRInst) : IRInst :=
  match ds with
  | [] => nullptr
  | dd :: ds' => if asOp h isa dd then dd else findDecorationIn h isa ds'
  end.

Definition findDecoration (h : Heap) (isa : IROp -> bool) (p : IRInst) : Outcome IRInst :=
  let? d := deref h p in
  Val (findDecorationIn h isa (getDecorations h d)).

(** ** How specialized is a declaration for the chosen target? *)

Definition getTargetName (target : CodeGenTarget.t) : Outcome string :=
  match target with
  | CodeGenTarget.HLSL => Val "hlsl"
  | CodeGenTarget.GLSL => Val "glsl"
  | CodeGenTarget.CSource => Val "c"
  | CodeGenTarget.CPPSource => Val "cpp"
  | _ => Unexpected "unhandled case"
  end.

Inductive TargetSpecializationLevel : Type :=
| specializedForOtherTarget
| notSpecialized
| specializedForTarget.

#[global] Instance TargetSpecializationLevel_eq_dec : EqDecision TargetSpecializationLevel.
Proof. solve_decision. Defined.

(** The value of the enumerator, as [UInt(level)] reads it. *)
Definition UInt (l : TargetSpecializationLevel) : nat :=
  match l with
  | specializedForOtherTarget => 0
  | notSpecialized => 1
  | specializedForTarget => 2
  end.

(** The loop of [getTargetSpecialiationLevel] that looks through generics
    to the value their first block returns. *)
Fixpoint returnedByGeneric (fuel : nat) (h : Heap) (val : IRInst) : Outcome IRInst :=
  if asOp h (isOp kIROp_Generic) val then
    match fuel with
    | 0 => OutOfFuel
    | S fuel' =>
        let? genericVal := deref h val in
        let firstBlock := getFirstChild h genericVal in
        if bool_decide (firstBlock = nullptr) then Val val else
        let? block := deref h firstBlock in
        let lastInst := getLastChild h block in
        if asOp h (isOp kIROp_ReturnVal) lastInst then
          let? returnInst := deref h lastInst in
          let? v := getOperand returnInst 0 in
          returnedByGeneric fuel' h v
        else Val val
    end
  else Val val.

(** The scan over the decorations of the value, carrying [result]. *)
Fixpoint scanTargetDecorations (h : Heap) (targetName : string)
    (result : TargetSpecializationLevel) (ds : list IRInst) : Outcome TargetSpecializationLevel :=
  match ds with
  | [] => Val result
  | dd :: ds' =>
      let? decoration := deref h dd in
      if negb (isOp kIROp_TargetDecoration (op decoration)) then
        scanTargetDecorations h targetName result ds'
      else
        let? name := getStringOperand h decoration in
        if bool_decide (name = targetName) then Val specializedForTarget
        else scanTargetDecorations h targetName specializedForOtherTarget ds'
  end.

Definition getTargetSpecialiationLevel (fuel : nat) (h : Heap) (inVal : IRInst)
    (targetName : string) : Outcome TargetSpecializationLevel :=
  let? val := returnedByGeneric fuel h inVal in
  let? d := deref h val in
  scanTargetDecorations h targetName notSpecialized (getDecorations h d).

(** ** The symbol table *)

#[warnings="-register-all"]
Inductive IRSpecSymbol : Type := mkSymbol {
  irGlobalValue : IRInst;
  nextWithSameName : option IRSpecSymbol
}.

(** The declarations of one name, in the order of the chain. *)
Fixpoint symbolValues (sym : IRSpecSymbol) : list IRInst :=
  irGlobalValue sym ::
  match nextWithSameName sym with
  | Some s => symbolValues s
  | None => []
  end.

(** Modelled from the spec: [Dictionary] (core, not under src/), as a list
    of key-value pairs in the order the keys were added, which is also the
    order a loop over it visits them. *)
Definition Dictionary (V : Type) : Type := list (string * V).

Fixpoint TryGetValue {V : Type} (dict : Dictionary V) (key : string) : option V :=
  match dict with
  | [] => None
  | (k, v) :: dict' => if bool_decide (k = key) then Some v else TryGetValue dict' key
  end.

Fixpoint setValue {V : Type} (dict : Dictionary V) (key : string) (v : V) : Dictionary V :=
  match dict with
  | [] => []
  | (k, v0) :: dict' =>
      if bool_decide (k = key) then (k, v) :: dict' else (k, v0) :: setValue dict' key v
  end.

Definition Add {V : Type} (dict : Dictionary V) (key : string) (v : V) : Dictionary V :=
  dict ++ [(key, v)].

Definition AddIfNotExists {V : Type} (dict : Dictionary V) (key : string) (v : V) : Dictionary V :=
  match TryGetValue dict key with
  | Some _ => dict
  | None => Add dict key v
  end.

Definition SymbolDictionary : Type := Dictionary IRSpecSymbol.

(** The mangled name of the linkage decoration of [gv], if it has one. *)
Definition linkageName (h : Heap) (gv : IRInst) : Outcome (option string) :=
  let? linkage := findDecoration h isLinkageDecorationOp gv in
  if bool_decide (linkage = nullptr) then Val None else
  let? l := deref h linkage in
  let? mangledName := getStringOperand h l in
  Val (Some mangledName).

Definition insertGlobalValueSymbol (h : Heap) (symbols : SymbolDictionary) (gv : IRInst)
    : Outcome SymbolDictionary :=
  let? linkage := linkageName h gv in
  match linkage with
  | None => Val symbols
  | Some mangledName =>
      match TryGetValue symbols mangledName with
      | Some prev =>
          let sym := mkSymbol gv (nextWithSameName prev) in
          Val (setValue symbols mangledName (mkSymbol (irGlobalValue prev) (Some sym)))
      | None => Val (Add symbols mangledName (mkSymbol gv None))
      end
  end.

Fixpoint insertAll (h : Heap) (symbols : SymbolDictionary) (gvs : list IRInst)
    : Outcome SymbolDictionary :=
  match gvs with
  | [] => Val symbols
  | ii :: gvs' =>
      let? symbols' := insertGlobalValueSymbol h symbols ii in
      insertAll h symbols' gvs'
  end.

(** [originalModule] is the module instruction of the module, or null. *)
Definition insertGlobalValueSymbols (h : Heap) (symbols : SymbolDictionary)
    (originalModule : IRInst) : Outcome SymbolDictionary :=
  if bool_decide (originalModule = nullptr) then Val symbols else
  let? m := deref h originalModule in
  insertAll h symbols (getChildren h m).

(** ** The state of a link *)

(** An [IRBuilder], as far as this pass uses one: where it inserts
    ([setInsertInto] leaves no instruction to insert before). *)
Record IRBuilder : Type := mkBuilder {
  insertIntoParent : IRInst
}.

Definition setInsertInto (insertInto : IRInst) : IRBuilder := mkBuilder insertInto.

(** The key under which [SharedIRBuilder] shares constants and hoistable
    instructions: opcode, type, operands and payload. *)
Definition IRInstKey : Type := (IROp * IRInst * list IRInst * IRConstantValue)%type.

Record LinkState : Type := mkState {
  heap : Heap;
  (** [IRSharedSpecContext] *)
  target : CodeGenTarget.t;
  moduleInst : IRInst;
  symbols : SymbolDictionary;
  builderStorage : IRBuilder;
  globalValueNumberingMap : list (IRInstKey * IRInst);
  (** [IRSpecContextBase]: the environment in use followed by its parents,
      the builder [context->builder] points at, and the layouts of the
      global parameters by mangled name *)
  envs : list (gmap nat nat);
  builder : IRBuilder;
  globalVarLayouts : Dictionary nat
}.

Definition setHeap (h : Heap) (s : LinkState) : LinkState :=
  mkState h (target s) (moduleInst s) (symbols s) (builderStorage s)
    (globalValueNumberingMap s) (envs s) (builder s) (globalVarLayouts s).

Definition setSymbols (y : SymbolDictionary) (s : LinkState) : LinkState :=
  mkState (heap s) (target s) (moduleInst s) y (builderStorage s)
    (globalValueNumberingMap s) (envs s) (builder s) (globalVarLayouts s).

Definition setBuilderStorage (b : IRBuilder) (s : LinkState) : LinkState :=
  mkState (heap s) (target s) (moduleInst s) (symbols s) b
    (globalValueNumberingMap s) (envs s) (builder s) (globalVarLayouts s).

Definition setNumbering (m : list (IRInstKey * IRInst)) (s : LinkState) : LinkState :=
  mkState (heap s) (target s) (moduleInst s) (symbols s) (builderStorage s)
    m (envs s) (builder s) (globalVarLayouts s).

Definition setEnvs (es : list (gmap nat nat)) (s : LinkState) : LinkState :=
  mkState (heap s) (target s) (moduleInst s) (symbols s) (builderStorage s)
    (globalValueNumberingMap s) es (builder s) (globalVarLayouts s).

Definition setBuilder (b : IRBuilder) (s : LinkState) : LinkState :=
  mkState (heap s) (target s) (moduleInst s) (symbols s) (builderStorage s)
    (globalValueNumberingMap s) (envs s) b (globalVarLayouts s).

Definition setGlobalVarLayouts (l : Dictionary nat) (s : LinkState) : LinkState :=
  mkState (heap s) (target s) (moduleInst s) (symbols s) (builderStorage s)
    (globalValueNumberingMap s) (envs s) (builder s) l.

(** A computation over the state of the link. The state is returned with
    every outcome: on an exception it is the state at the throw. *)
Definition M (A : Type) : Type := LinkState -> Outcome A * LinkState.

Definition ret {A : Type} (a : A) : M A := fun s => (Val a, s).

Definition bind {A B : Type} (m : M A) (k : A -> M B) : M B :=
  fun s =>
    match m s with
    | (Val a, s') => k a s'
    | (Unexpected msg, s') => (Unexpected msg, s')
    | (Fault, s') => (Fault, s')
    | (OutOfFuel, s') => (OutOfFuel, s')
    end.

Notation "'let*' x := m 'in' k" := (bind m (fun x => k))
  (at level 10, x pattern, m at level 100, k at level 200).
Notation "m ;; k" := (bind m (fun _ => k))
  (at level 100, k at level 200, right associativity).

(** A read of the state that may fail. *)
Definition inspect {A : Type} (f : LinkState -> Outcome A) : M A := fun s => (f s, s).

Definition gets {A : Type} (f : LinkState -> A) : M A := fun s => (Val (f s), s).

Definition modify (f : LinkState -> LinkState) : M unit := fun s => (Val tt, f s).

Definition raise {A : Type} (o : Outcome A) : M A := fun s => (o, s).

Definition SLANG_UNEXPECTED {A : Type} (reason : string) : M A := raise (Unexpected reason).

Definition SLANG_ASSERT (b : bool) : M unit := if b then ret tt else raise Fault.

Fixpoint forEach {A : Type} (l : list A) (body : A -> M unit) : M unit :=
  match l with
  | [] => ret tt
  | x :: l' => body x ;; forEach l' body
  end.

(** ** The arena *)

Definition derefM (p : IRInst) : M IRInstData := inspect (fun s => deref (heap s) p).

Definition allocInst (d : IRInstData) : M IRInst :=
  fun s => (Val (S (length (heap s))), setHeap (heap s ++ [d]) s).

Definition updateInst (p : IRInst) (f : IRInstData -> IRInstData) : M unit :=
  let* d := derefM p in
  modify (fun s => setHeap (<[pred p := f d]> (heap s)) s).

Definition withParent (p : IRInst) (d : IRInstData) : IRInstData :=
  mkInst (op d) (typeUse d) (operands d) p (decorationsAndChildren d) (value d) (sourceLoc d).

Definition withChildren (l : list IRInst) (d : IRInstData) : IRInstData :=
  mkInst (op d) (typeUse d) (operands d) (parent d) l (value d) (sourceLoc d).

Definition withType (t : IRInst) (d : IRInstData) : IRInstData :=
  mkInst (op d) t (operands d) (parent d) (decorationsAndChildren d) (value d) (sourceLoc d).

Definition withOperands (l : list IRInst) (d : IRInstData) : IRInstData :=
  mkInst (op d) (typeUse d) l (parent d) (decorationsAndChildren d) (value d) (sourceLoc d).

Definition withSourceLoc (loc : nat) (d : IRInstData) : IRInstData :=
  mkInst (op d) (typeUse d) (operands d) (parent d) (decorationsAndChildren d) (value d) loc.

(** Modelled from the spec: the list operations of [IRInst] and the
    [IRBuilder] (slang-ir.cpp is not under src/). An instruction is linked
    into a parent only while it has none. *)
Definition insertAtEnd (inst newParent : IRInst) : M unit :=
  let* d := derefM inst in
  SLANG_ASSERT (bool_decide (parent d = nullptr)) ;;
  updateInst newParent (fun p => withChildren (decorationsAndChildren p ++ [inst]) p) ;;
  updateInst inst (withParent newParent).

Definition insertAtStart (inst newParent : IRInst) : M unit :=
  let* d := derefM inst in
  SLANG_ASSERT (bool_decide (parent d = nullptr)) ;;
  updateInst newParent (fun p => withChildren (inst :: decorationsAndChildren p) p) ;;
  updateInst inst (withParent newParent).

Definition removeFromParent (inst : IRInst) : M unit :=
  let* d := derefM inst in
  if bool_decide (parent d = nullptr) then ret tt else
  updateInst (parent d)
    (fun p => withChildren (filter (fun c => c <> inst) (decorationsAndChildren p)) p) ;;
  updateInst inst (withParent nullptr).

Definition moveToEnd (inst : IRInst) : M unit :=
  let* d := derefM inst in
  removeFromParent inst ;;
  insertAtEnd inst (parent d).

Definition moveToStart (inst : IRInst) : M unit :=
  let* d := derefM inst in
  removeFromParent inst ;;
  insertAtStart inst (parent d).

Definition setFullType (inst type : IRInst) : M unit := updateInst inst (withType type).

(** [inst->getOperands()[aa].init(inst, arg)] *)
Definition initOperand (inst : IRInst) (aa : nat) (arg : IRInst) : M unit :=
  updateInst inst (fun d => withOperands (<[aa := arg]> (operands d)) d).

Definition createInst (o : IROp) (type : IRInst) (args : list IRInst)
    (v : IRConstantValue) : M IRInst :=
  allocInst (mkInst o type args nullptr [] v 0).

Definition createIntrinsicInst (type : IRInst) (o : IROp) (argCount : nat) : M IRInst :=
  createInst o type (replicate argCount nullptr) NoValue.

Definition addInst (b : IRBuilder) (inst : IRInst) : M unit :=
  if bool_decide (insertIntoParent b = nullptr) then ret tt
  else insertAtEnd inst (insertIntoParent b).

Definition parentOf (h : Heap) (p : IRInst) : IRInst :=
  match deref h p with Val d => parent d | _ => nullptr end.

(** The search of [addGlobalValue] for a parent that may hold a global
    value: the module, or a block of a generic. *)
Fixpoint findGlobalValueParent (steps : nat) (h : Heap) (p : IRInst) : IRInst :=
  match steps with
  | 0 => nullptr
  | S steps' =>
      if bool_decide (p = nullptr) then nullptr
      else if asOp h (isOp kIROp_Module) p then p
      else if asOp h (isOp kIROp_Block) p && asOp h (isOp kIROp_Generic) (parentOf h p) then p
      else findGlobalValueParent steps' h (parentOf h p)
  end.

Definition addGlobalValue (b : IRBuilder) (v : IRInst) : M unit :=
  let* found := gets (fun s => findGlobalValueParent (S (length (heap s))) (heap s) (insertIntoParent b)) in
  let* m := gets moduleInst in
  insertAtEnd v (if bool_decide (found = nullptr) then m else found).

(** Is [a] the instruction [p] or one of its ancestors? *)
Fixpoint isAncestor (steps : nat) (h : Heap) (a p : IRInst) : bool :=
  match steps with
  | 0 => false
  | S steps' =>
      if bool_decide (p = nullptr) then false
      else if bool_decide (p = a) then true
      else isAncestor steps' h a (parentOf h p)
  end.

Definition mergeCandidateParentsForHoistableInst (h : Heap) (left right : IRInst) : IRInst :=
  if bool_decide (left = nullptr) then right
  else if bool_decide (right = nullptr) then left
  else if isAncestor (S (length h)) h left right then right
  else left.

(** A hoistable instruction goes to the end of the deepest parent among
    the module and the parents of its operands. *)
Definition addHoistableInst (b : IRBuilder) (inst : IRInst) : M unit :=
  let* d := derefM inst in
  let* m := gets moduleInst in
  let* chosen := gets (fun s =>
    foldl (fun p operand =>
             if bool_decide (operand = nullptr) then p
             else mergeCandidateParentsForHoistableInst (heap s) p (parentOf (heap s) operand))
          m (operands d)) in
  insertAtEnd inst chosen.

Fixpoint findKey (k : IRInstKey) (l : list (IRInstKey * IRInst)) : option IRInst :=
  match l with
  | [] => None
  | (k', v) :: l' => if bool_decide (k' = k) then Some v else findKey k l'
  end.

Definition findOrEmitHoistableInst (b : IRBuilder) (type : IRInst) (o : IROp)
    (args : list IRInst) (v : IRConstantValue) : M IRInst :=
  let* known := gets (fun s => findKey (o, type, args, v) (globalValueNumberingMap s)) in
  match known with
  | Some inst => ret inst
  | None =>
      let* inst := createInst o type args v in
      modify (fun s => setNumbering (((o, type, args, v), inst) :: globalValueNumberingMap s) s) ;;
      addHoistableInst b inst ;;
      ret inst
  end.

Definition getType (b : IRBuilder) (o : IROp) (args : list IRInst) : M IRInst :=
  findOrEmitHoistableInst b nullptr o args NoValue.

Definition getVoidType (b : IRBuilder) : M IRInst := getType b kIROp_VoidType [].
Definition getBoolType (b : IRBuilder) : M IRInst := getType b kIROp_BoolType [].
Definition getStringType (b : IRBuilder) : M IRInst := getType b kIROp_StringType [].
Definition getBasicBlockType (b : IRBuilder) : M IRInst := getType b kIROp_BasicBlockType [].
Definition getPtrType (b : IRBuilder) (valueType : IRInst) : M IRInst :=
  getType b kIROp_PtrType [valueType].
Definition getRateQualifiedType (b : IRBuilder) (rate dataType : IRInst) : M IRInst :=
  getType b kIROp_RateQualifiedType [rate; dataType].

Definition getBoolValue (b : IRBuilder) (v : bool) : M IRInst :=
  let* t := getBoolType b in
  findOrEmitHoistableInst b t kIROp_BoolLit [] (IntVal (if v then 1 else 0)%Z).

Definition getIntValue (b : IRBuilder) (type : IRInst) (v : IRConstantValue) : M IRInst :=
  findOrEmitHoistableInst b type kIROp_IntLit [] v.

Definition getFloatValue (b : IRBuilder) (type : IRInst) (v : IRConstantValue) : M IRInst :=
  findOrEmitHoistableInst b type kIROp_FloatLit [] v.

Definition getStringValue (b : IRBuilder) (v : IRConstantValue) : M IRInst :=
  let* t := getStringType b in
  findOrEmitHoistableInst b t kIROp_StringLit [] v.

Definition getPtrValue (b : IRBuilder) (v : IRConstantValue) : M IRInst :=
  let* void := getVoidType b in
  let* t := getPtrType b void in
  findOrEmitHoistableInst b t kIROp_PtrLit [] v.

Definition createGlobal (b : IRBuilder) (o : IROp) (type : IRInst) : M IRInst :=
  let* inst := createInst o type [] NoValue in
  addGlobalValue b inst ;;
  ret inst.

Definition createFunc (b : IRBuilder) : M IRInst := createGlobal b kIROp_Func nullptr.
Definition createGlobalVar (b : IRBuilder) (valueType : IRInst) : M IRInst :=
  let* ptrType := getPtrType b valueType in
  createGlobal b kIROp_GlobalVar ptrType.
Definition createGlobalConstant (b : IRBuilder) (type : IRInst) : M IRInst :=
  createGlobal b kIROp_GlobalConstant type.
Definition createGlobalParam (b : IRBuilder) (type : IRInst) : M IRInst :=
  createGlobal b kIROp_GlobalParam type.
Definition createStructKey (b : IRBuilder) : M IRInst := createGlobal b kIROp_StructKey nullptr.
Definition createStructType (b : IRBuilder) : M IRInst := createGlobal b kIROp_StructType nullptr.
Definition createInterfaceType (b : IRBuilder) : M IRInst :=
  createGlobal b kIROp_InterfaceType nullptr.
Definition createWitnessTable (b : IRBuilder) : M IRInst :=
  createGlobal b kIROp_WitnessTable nullptr.
Definition emitGlobalGenericParam (b : IRBuilder) : M IRInst :=
  createGlobal b kIROp_GlobalGenericParam nullptr.

Definition emitGeneric (b : IRBuilder) : M IRInst :=
  let* inst := createInst kIROp_Generic nullptr [] NoValue in
  addInst b inst ;;
  ret inst.

Definition createBlock (b : IRBuilder) : M IRInst :=
  let* t := getBasicBlockType b in
  createInst kIROp_Block t [] NoValue.

Definition addBlock (code block : IRInst) : M unit := insertAtEnd block code.

(** A new decoration goes to the start of the list of its instruction. *)
Definition addDecoration (b : IRBuilder) (v : IRInst) (o : IROp) (args : list IRInst) : M unit :=
  let* void := getVoidType b in
  let* decoration := createInst o void args NoValue in
  insertAtStart decoration v.

Definition addKeepAliveDecoration (b : IRBuilder) (v : IRInst) : M unit :=
  addDecoration b v kIROp_KeepAliveDecoration [].

Definition addLayoutDecoration (b : IRBuilder) (v : IRInst) (layout : nat) : M unit :=
  let* ptr := getPtrValue b (PtrVal layout) in
  addDecoration b v kIROp_LayoutDecoration [ptr].

Definition createModule : M IRInst := createInst kIROp_Module nullptr [] NoValue.

(** The instruction after [p] in the list of its parent. *)
Definition getNextInst (h : Heap) (p : IRInst) : IRInst :=
  match deref h (parentOf h p) with
  | Val d => hd nullptr (tail (dropWhile (fun c => negb (bool_decide (c = p))) (decorationsAndChildren d)))
  | _ => nullptr
  end.

(** [getRate] and [getDataType]: a full type may be qualified by a rate. *)
Definition getRate (h : Heap) (d : IRInstData) : IRInst :=
  match deref h (typeUse d) with
  | Val t => if isOp kIROp_RateQualifiedType (op t) then nth 0 (operands t) nullptr else nullptr
  | _ => nullptr
  end.

Definition getDataType (h : Heap) (d : IRInstData) : IRInst :=
  match deref h (typeUse d) with
  | Val t => if isOp kIROp_RateQualifiedType (op t) then nth 1 (operands t) nullptr else typeUse d
  | _ => typeUse d
  end.

(** ** Registration of clones *)

(** The values a new clone is registered for: a single original, or all
    the declarations of a symbol. *)
Record IROriginalValuesForClone : Type := mkOriginalValues {
  originalVal : IRInst;
  sym : option IRSpecSymbol
}.

Definition fromValue (v : IRInst) : IROriginalValuesForClone := mkOriginalValues v None.
Definition fromSymbol (s : IRSpecSymbol) : IROriginalValuesForClone :=
  mkOriginalValues nullptr (Some s).
Definition noOriginalValues : IROriginalValuesForClone := mkOriginalValues nullptr None.

Definition registerClonedValue (clonedValue originalValue : IRInst) : M unit :=
  if bool_decide (originalValue = nullptr) then ret tt else
  let* es := gets envs in
  match es with
  | [] => raise Fault
  | env :: parents => modify (setEnvs (<[originalValue := clonedValue]> env :: parents))
  end.

Definition registerClonedValues (clonedValue : IRInst) (originalValues : IROriginalValuesForClone)
    : M unit :=
  registerClonedValue clonedValue (originalVal originalValues) ;;
  forEach (from_option symbolValues [] (sym originalValues))
    (fun v => registerClonedValue clonedValue v).

(** Find a pre-existing cloned value, or return null if none is available. *)
Fixpoint findClonedValue (es : list (gmap nat nat)) (originalValue : IRInst) : IRInst :=
  match es with
  | [] => nullptr
  | env :: parents =>
      match env !! originalValue with
      | Some clonedValue => clonedValue
      | None => findClonedValue parents originalValue
      end
  end.

Definition enumerate {A : Type} (l : list A) : list (nat * A) := zip (seq 0 (length l)) l.

Section Link.

(** [isDefinition] is declared in slang-ir.h, which is not under src/: does
    the value have a body? *)
Variable isDefinition : Heap -> IRInst -> bool.

(** Whether the pass is compiled with [_DEBUG]. *)
Variable DEBUG : bool.

(** [specializeGeneric] belongs to the specialization pass
    (slang-ir-specialize.cpp), which is not under src/. *)
Variable specializeGeneric : IRInst -> M IRInst.

(** Is [newVal] marked as being a better match for our chosen
    code-generation target? *)
Definition isBetterForTarget (fuel : nat) (h : Heap) (t : CodeGenTarget.t)
    (newVal oldVal : IRInst) : Outcome bool :=
  let? targetName := getTargetName t in
  let? newLevel := getTargetSpecialiationLevel fuel h newVal targetName in
  let? oldLevel := getTargetSpecialiationLevel fuel h oldVal targetName in
  if bool_decide (newLevel <> oldLevel) then Val (bool_decide (UInt oldLevel < UInt newLevel)) else
  let? newExport := findDecoration h (isOp kIROp_ExportDecoration) newVal in
  let? oldExport := findDecoration h (isOp kIROp_ExportDecoration) oldVal in
  let newIsExport := negb (bool_decide (newExport = nullptr)) in
  let oldIsExport := negb (bool_decide (oldExport = nullptr)) in
  if bool_decide (newIsExport <> oldIsExport) then Val newIsExport else
  let newIsDef := isDefinition h newVal in
  let oldIsDef := isDefinition h oldVal in
  if bool_decide (newIsDef <> oldIsDef) then Val newIsDef else
  Val false.

(** The scan of [cloneGlobalValueWithLinkage] for the best declaration:
    [bestVal] so far, and the declarations still to be looked at. *)
Fixpoint bestValAmong (fuel : nat) (h : Heap) (t : CodeGenTarget.t) (bestVal : IRInst)
    (ss : list IRInst) : Outcome IRInst :=
  match ss with
  | [] => Val bestVal
  | newVal :: ss' =>
      let? better := isBetterForTarget fuel h t newVal bestVal in
      bestValAmong fuel h t (if better then newVal else bestVal) ss'
  end.

Definition selectBestVal (fuel : nat) (h : Heap) (t : CodeGenTarget.t) (s : IRSpecSymbol)
    : Outcome IRInst :=
  bestValAmong fuel h t (irGlobalValue s) (from_option symbolValues [] (nextWithSameName s)).

(** ** The cloner, with its recursive calls taken as parameters *)

Section Cloner.

Variable cloneValue : IRInst -> M IRInst.
Variable cloneInst : IRBuilder -> IRInst -> IROriginalValuesForClone -> M IRInst.
Variable fuel : nat.

Definition cloneType (originalType : IRInst) : M IRInst := cloneValue originalType.

Definition cloneRate (rate : IRInst) : M IRInst := cloneType rate.

(** Clone any decorations from [originalValue] onto [clonedValue]. *)
Definition cloneDecorations (clonedValue originalValue : IRInst) : M unit :=
  let b := setInsertInto clonedValue in
  let* o := derefM originalValue in
  let* ds := gets (fun s => getDecorations (heap s) o) in
  forEach ds (fun originalDecoration =>
    cloneInst b originalDecoration (fromValue originalDecoration) ;; ret tt) ;;
  updateInst clonedValue (withSourceLoc (sourceLoc o)).

(** Clone any decorations and children from [originalValue] onto
    [clonedValue]. *)
Definition cloneDecorationsAndChildren (clonedValue originalValue : IRInst) : M unit :=
  let b := setInsertInto clonedValue in
  let* o := derefM originalValue in
  forEach (decorationsAndChildren o) (fun originalItem =>
    cloneInst b originalItem (fromValue originalItem) ;; ret tt) ;;
  updateInst clonedValue (withSourceLoc (sourceLoc o)).

Definition maybeSetClonedRate (b : IRBuilder) (clonedValue originalValue : IRInst) : M unit :=
  let* o := derefM originalValue in
  let* rate := gets (fun s => getRate (heap s) o) in
  if bool_decide (rate = nullptr) then ret tt else
  let* clonedRate := cloneRate rate in
  let* c := derefM clonedValue in
  let* dataType := gets (fun s => typeUse c) in
  let* t := getRateQualifiedType b clonedRate dataType in
  setFullType clonedValue t.

(** The second loop of [cloneGlobalValueWithCodeCommon]: the original
    blocks [obs] against the cloned block [cb] and its successors. *)
Fixpoint cloneBlockContents (obs : list IRInst) (cb : IRInst) : M unit :=
  match obs with
  | [] => ret tt
  | ob :: obs' =>
      SLANG_ASSERT (negb (bool_decide (cb = nullptr))) ;;
      let b := setInsertInto cb in
      let* o := derefM ob in
      let* insts := gets (fun s => getChildren (heap s) o) in
      forEach insts (fun oi => cloneInst b oi (fromValue oi) ;; ret tt) ;;
      let* next := gets (fun s => getNextInst (heap s) cb) in
      cloneBlockContents obs' next
  end.

Definition cloneGlobalValueWithCodeCommon (clonedValue originalValue : IRInst) : M unit :=
  cloneDecorations clonedValue originalValue ;;
  let* o := derefM originalValue in
  let* blocks := gets (fun s => getChildren (heap s) o) in
  let* b := gets builder in
  forEach blocks (fun originalBlock =>
    let* clonedBlock := createBlock b in
    addBlock clonedValue clonedBlock ;;
    registerClonedValue clonedBlock originalBlock) ;;
  let* c := derefM clonedValue in
  let* cb := gets (fun s => getFirstChild (heap s) c) in
  cloneBlockContents blocks cb.

Definition cloneGlobalVarImpl (b : IRBuilder) (originalVar : IRInst)
    (originalValues : IROriginalValuesForClone) : M IRInst :=
  let* o := derefM originalVar in
  let* dataType := gets (fun s => getDataType (heap s) o) in
  let* ptrType := derefM dataType in
  let* valueType := raise (getOperand ptrType 0) in
  let* clonedType := cloneType valueType in
  let* clonedVar := createGlobalVar b clonedType in
  maybeSetClonedRate b clonedVar originalVar ;;
  registerClonedValues clonedVar originalValues ;;
  cloneGlobalValueWithCodeCommon clonedVar originalVar ;;
  ret clonedVar.

Definition cloneGlobalConstantImpl (b : IRBuilder) (originalVal : IRInst)
    (originalValues : IROriginalValuesForClone) : M IRInst :=
  let* o := derefM originalVal in
  let* clonedType := cloneType (typeUse o) in
  let* clonedVal := createGlobalConstant b clonedType in
  registerClonedValues clonedVal originalValues ;;
  cloneGlobalValueWithCodeCommon clonedVal originalVal ;;
  ret clonedVal.

Definition cloneSimpleGlobalValueImpl (originalInst : IRInst)
    (originalValues : IROriginalValuesForClone) (clonedInst : IRInst)
    (registerValue : bool) : M unit :=
  (if registerValue then registerClonedValues clonedInst originalValues else ret tt) ;;
  let b := setInsertInto clonedInst in
  let* o := derefM originalInst in
  forEach (decorationsAndChildren o) (fun child =>
    cloneInst b child (fromValue child) ;; ret tt).

Definition cloneGlobalParamImpl (b : IRBuilder) (originalVal : IRInst)
    (originalValues : IROriginalValuesForClone) : M IRInst :=
  let* o := derefM originalVal in
  let* clonedType := cloneType (typeUse o) in
  let* clonedVal := createGlobalParam b clonedType in
  cloneSimpleGlobalValueImpl originalVal originalValues clonedVal true ;;
  let* linkage := inspect (fun s => linkageName (heap s) originalVal) in
  match linkage with
  | None => ret clonedVal
  | Some mangledName =>
      let* layouts := gets globalVarLayouts in
      match TryGetValue layouts mangledName with
      | Some layout => addLayoutDecoration b clonedVal layout ;; ret clonedVal
      | None => ret clonedVal
      end
  end.

Definition cloneGenericImpl (b : IRBuilder) (originalVal : IRInst)
    (originalValues : IROriginalValuesForClone) : M IRInst :=
  let* clonedVal := emitGeneric b in
  registerClonedValues clonedVal originalValues ;;
  cloneGlobalValueWithCodeCommon clonedVal originalVal ;;
  ret clonedVal.

Definition cloneStructKeyImpl (b : IRBuilder) (originalVal : IRInst)
    (originalValues : IROriginalValuesForClone) : M IRInst :=
  let* clonedVal := createStructKey b in
  cloneSimpleGlobalValueImpl originalVal originalValues clonedVal true ;;
  ret clonedVal.

Definition cloneGlobalGenericParamImpl (b : IRBuilder) (originalVal : IRInst)
    (originalValues : IROriginalValuesForClone) : M IRInst :=
  let* clonedVal := emitGlobalGenericParam b in
  cloneSimpleGlobalValueImpl originalVal originalValues clonedVal true ;;
  ret clonedVal.

Definition cloneWitnessTableImpl (b : IRBuilder) (originalTable : IRInst)
    (originalValues : IROriginalValuesForClone) (dstTable : IRInst)
    (registerValue : bool) : M IRInst :=
  let* clonedTable :=
    if bool_decide (dstTable = nullptr) then createWitnessTable b else ret dstTable in
  cloneSimpleGlobalValueImpl originalTable originalValues clonedTable registerValue ;;
  ret clonedTable.

Definition cloneWitnessTableWithoutRegistering (b : IRBuilder) (originalTable dstTable : IRInst)
    : M IRInst :=
  cloneWitnessTableImpl b originalTable noOriginalValues dstTable false.

Definition cloneStructTypeImpl (b : IRBuilder) (originalStruct : IRInst)
    (originalValues : IROriginalValuesForClone) : M IRInst :=
  let* clonedStruct := createStructType b in
  cloneSimpleGlobalValueImpl originalStruct originalValues clonedStruct true ;;
  ret clonedStruct.

Definition cloneInterfaceTypeImpl (b : IRBuilder) (originalInterface : IRInst)
    (originalValues : IROriginalValuesForClone) : M IRInst :=
  let* clonedInterface := createInterfaceType b in
  cloneSimpleGlobalValueImpl originalInterface originalValues clonedInterface true ;;
  ret clonedInterface.

(** The scan of [checkIRDuplicate] over the children of the module. *)
Definition checkIRDuplicate (inst moduleInst : IRInst) (mangledName : string) : M unit :=
  if DEBUG then
    let* m := derefM moduleInst in
    forEach (decorationsAndChildren m) (fun child =>
      if bool_decide (child = inst) then ret tt else
      let* childLinkage := inspect (fun s => linkageName (heap s) child) in
      match childLinkage with
      | Some name =>
          if bool_decide (mangledName = name)
          then SLANG_UNEXPECTED "duplicate global instruction"
          else ret tt
      | None => ret tt
      end)
  else ret tt.

Definition cloneFunctionCommon (clonedFunc originalFunc : IRInst) (checkDuplicate : bool)
    : M unit :=
  let* o := derefM originalFunc in
  let* t := cloneType (typeUse o) in
  setFullType clonedFunc t ;;
  cloneGlobalValueWithCodeCommon clonedFunc originalFunc ;;
  moveToEnd clonedFunc ;;
  if checkDuplicate then
    let* linkage := inspect (fun s => linkageName (heap s) clonedFunc) in
    match linkage with
    | Some mangledName =>
        let* m := gets moduleInst in
        checkIRDuplicate clonedFunc m mangledName
    | None => ret tt
    end
  else ret tt.

Definition cloneFuncImpl (b : IRBuilder) (originalFunc : IRInst)
    (originalValues : IROriginalValuesForClone) : M IRInst :=
  let* clonedFunc := createFunc b in
  registerClonedValues clonedFunc originalValues ;;
  cloneFunctionCommon clonedFunc originalFunc true ;;
  ret clonedFunc.

Definition cloneInst_body (b : IRBuilder) (originalInst : IRInst)
    (originalValues : IROriginalValuesForClone) : M IRInst :=
  let* o := derefM originalInst in
  match op o with
  | kIROp_Func => cloneFuncImpl b originalInst originalValues
  | kIROp_GlobalVar => cloneGlobalVarImpl b originalInst originalValues
  | kIROp_GlobalConstant => cloneGlobalConstantImpl b originalInst originalValues
  | kIROp_GlobalParam => cloneGlobalParamImpl b originalInst originalValues
  | kIROp_WitnessTable => cloneWitnessTableImpl b originalInst originalValues nullptr true
  | kIROp_StructType => cloneStructTypeImpl b originalInst originalValues
  | kIROp_InterfaceType => cloneInterfaceTypeImpl b originalInst originalValues
  | kIROp_Generic => cloneGenericImpl b originalInst originalValues
  | kIROp_StructKey => cloneStructKeyImpl b originalInst originalValues
  | kIROp_GlobalGenericParam => cloneGlobalGenericParamImpl b originalInst originalValues
  | _ =>
      let* clonedType := cloneType (typeUse o) in
      let* clonedInst := createIntrinsicInst clonedType (op o) (length (operands o)) in
      registerClonedValues clonedInst originalValues ;;
      let* oldBuilder := gets builder in
      modify (setBuilder b) ;;
      forEach (enumerate (operands o)) (fun '(aa, originalArg) =>
        let* clonedArg := cloneValue originalArg in
        initOperand clonedInst aa clonedArg) ;;
      addInst b clonedInst ;;
      modify (setBuilder oldBuilder) ;;
      cloneDecorations clonedInst originalInst ;;
      ret clonedInst
  end.

Definition cloneGlobalValueImpl (originalInst : IRInst)
    (originalValues : IROriginalValuesForClone) : M IRInst :=
  let* b := gets builderStorage in
  let* clonedValue := cloneInst b originalInst originalValues in
  moveToEnd clonedValue ;;
  ret clonedValue.

(** Clone a global value, which has the given [originalLinkage]. The
    callers in this file pass a non-null [originalVal], which the first
    test dereferences. *)
Definition cloneGlobalValueWithLinkage (originalVal originalLinkage : IRInst) : M IRInst :=
  let* o := derefM originalVal in
  let* m := gets moduleInst in
  if bool_decide (parent o = m) then ret originalVal else
  let* clonedVal := gets (fun s => findClonedValue (envs s) originalVal) in
  if negb (bool_decide (clonedVal = nullptr)) then ret clonedVal else
  if bool_decide (originalLinkage = nullptr) then
    cloneGlobalValueImpl originalVal (fromValue originalVal)
  else
  let* l := derefM originalLinkage in
  let* mangledName := inspect (fun s => getStringOperand (heap s) l) in
  let* syms := gets symbols in
  match TryGetValue syms mangledName with
  | None => SLANG_UNEXPECTED "no matching values registered"
  | Some s =>
      let* bestVal := inspect (fun st => selectBestVal fuel (heap st) (target st) s) in
      cloneGlobalValueImpl bestVal (fromSymbol s)
  end.

Definition cloneGlobalValue (originalVal : IRInst) : M IRInst :=
  let* linkage := inspect (fun s => findDecoration (heap s) isLinkageDecorationOp originalVal) in
  cloneGlobalValueWithLinkage originalVal linkage.

(** [IRSpecContext::maybeCloneValue], the override in use when linking. *)
Definition maybeCloneValue (originalValue : IRInst) : M IRInst :=
  let* o := derefM originalValue in
  match op o with
  | kIROp_StructType | kIROp_Func | kIROp_Generic | kIROp_GlobalVar
  | kIROp_GlobalConstant | kIROp_GlobalParam | kIROp_StructKey
  | kIROp_GlobalGenericParam | kIROp_WitnessTable =>
      cloneGlobalValue originalValue
  | kIROp_BoolLit =>
      let* b := gets builder in
      match value o with
      | IntVal z => getBoolValue b (negb (bool_decide (z = 0%Z)))
      | _ => raise Fault
      end
  | kIROp_IntLit =>
      let* dataType := gets (fun s => getDataType (heap s) o) in
      let* t := cloneType dataType in
      let* b := gets builder in
      match value o with
      | IntVal z => getIntValue b t (IntVal z)
      | _ => raise Fault
      end
  | kIROp_FloatLit =>
      let* dataType := gets (fun s => getDataType (heap s) o) in
      let* t := cloneType dataType in
      let* b := gets builder in
      match value o with
      | FloatVal f => getFloatValue b t (FloatVal f)
      | _ => raise Fault
      end
  | kIROp_StringLit =>
      let* b := gets builder in
      match value o with
      | StringVal str => getStringValue b (StringVal str)
      | _ => raise Fault
      end
  | kIROp_PtrLit =>
      let* b := gets builder in
      match value o with
      | PtrVal p => getPtrValue b (PtrVal p)
      | _ => raise Fault
      end
  | _ =>
      let* clonedType := cloneType (typeUse o) in
      let* clonedValue := createIntrinsicInst clonedType (op o) (length (operands o)) in
      registerClonedValue clonedValue originalValue ;;
      forEach (enumerate (operands o)) (fun '(aa, originalArg) =>
        let* clonedArg := cloneValue originalArg in
        initOperand clonedValue aa clonedArg) ;;
      cloneDecorationsAndChildren clonedValue originalValue ;;
      let* b := gets builder in
      addHoistableInst b clonedValue ;;
      ret clonedValue
  end.

Definition cloneValue_body (originalValue : IRInst) : M IRInst :=
  if bool_decide (originalValue = nullptr) then ret nullptr else
  let* clonedValue := gets (fun s => findClonedValue (envs s) originalValue) in
  if negb (bool_decide (clonedValue = nullptr)) then ret clonedValue else
  maybeCloneValue originalValue.

End Cloner.

(** The two recursive entry points; a call costs one unit of [fuel]. *)
Fixpoint cloneValue (fuel : nat) (originalValue : IRInst) {struct fuel} : M IRInst :=
  match fuel with
  | 0 => raise OutOfFuel
  | S n => cloneValue_body (cloneValue n) (cloneInst n) n originalValue
  end
with cloneInst (fuel : nat) (b : IRBuilder) (originalInst : IRInst)
    (originalValues : IROriginalValuesForClone) {struct fuel} : M IRInst :=
  match fuel with
  | 0 => raise OutOfFuel
  | S n => cloneInst_body (cloneValue n) (cloneInst n) b originalInst originalValues
  end.

(** ** The driver *)

(** What [linkIR] is given: the IR modules of the program and of the
    modules it depends on, the mangled name of the entry point, and the
    layouts computed for it by the layout stage. *)
Record LinkInput : Type := mkInput {
  originalProgramIRModule : IRInst;
  moduleDependencies : list IRInst;
  entryPointMangledName : string;
  (** the entries of the global scope, by mangled name *)
  globalScopeVarLayouts : list (string * nat);
  (** the entries of the entry-point group, made absolute *)
  entryPointGroupVarLayouts : list (string * nat);
  (** the layout of the entry point and of its parameters, offset applied *)
  entryPointLayout : nat;
  paramLayouts : list nat;
  (** the tagged union types of the entry point, by mangled type name *)
  taggedUnionTypeLayouts : list (string * nat)
}.

Record LinkedIR : Type := mkLinkedIR {
  module : IRInst;
  entryPoint : IRInst
}.

Definition findDecorationM (isa : IROp -> bool) (p : IRInst) : M IRInst :=
  inspect (fun s => findDecoration (heap s) isa p).

(** The parameters of a block: its leading [IRParam] instructions. *)
Definition getParams (h : Heap) (block : IRInstData) : list IRInst :=
  takeWhile (asOp h (isOp kIROp_Param)) (getChildren h block).

Definition specializeIRForEntryPoint (fuel : nat) (mangledName : string)
    (entryPointLayout : nat) (paramLayouts : list nat) : M IRInst :=
  let* syms := gets symbols in
  match TryGetValue syms mangledName with
  | None => SLANG_UNEXPECTED "no matching IR symbol"
  | Some s =>
      let originalVal := irGlobalValue s in
      let* clonedVal := cloneGlobalValue (cloneInst fuel) fuel originalVal in
      let* isSpecialize := gets (fun st => asOp (heap st) (isOp kIROp_Specialize) clonedVal) in
      let* clonedVal := if isSpecialize then specializeGeneric clonedVal else ret clonedVal in
      let* bindExistentialSlots :=
        findDecorationM (isOp kIROp_BindExistentialSlotsDecoration) originalVal in
      (if negb (bool_decide (bindExistentialSlots = nullptr)) then
         let* present := findDecorationM (isOp kIROp_BindExistentialSlotsDecoration) clonedVal in
         if bool_decide (present = nullptr) then
           let* clonedBind := cloneInst fuel (setInsertInto clonedVal) bindExistentialSlots
                                (fromValue bindExistentialSlots) in
           moveToStart clonedBind
         else ret tt
       else ret tt) ;;
      let* isFunc := gets (fun st => asOp (heap st) (isOp kIROp_Func) clonedVal) in
      if negb isFunc then SLANG_UNEXPECTED "expected entry point to be a function" else
      let clonedFunc := clonedVal in
      let* b := gets builder in
      let* keepAlive := findDecorationM (isOp kIROp_KeepAliveDecoration) clonedFunc in
      (if bool_decide (keepAlive = nullptr) then addKeepAliveDecoration b clonedFunc else ret tt) ;;
      addLayoutDecoration b clonedFunc entryPointLayout ;;
      let* f := derefM clonedFunc in
      let* firstBlock := gets (fun st => getFirstChild (heap st) f) in
      (if negb (bool_decide (firstBlock = nullptr)) then
         let* block := derefM firstBlock in
         let* params := gets (fun st => getParams (heap st) block) in
         forEach (enumerate params) (fun '(paramIndex, pp) =>
           match paramLayouts !! paramIndex with
           | Some offsetParamLayout => addLayoutDecoration b pp offsetParamLayout
           | None => SLANG_UNEXPECTED "too many parameters"
           end)
       else ret tt) ;;
      ret clonedFunc
  end.

Definition insertGlobalValueSymbolsM (originalModule : IRInst) : M unit :=
  let* syms := inspect (fun s => insertGlobalValueSymbols (heap s) (symbols s) originalModule) in
  modify (setSymbols syms).

Definition initializeSharedSpecContext (m : IRInst) : M unit :=
  let* m' := if bool_decide (m = nullptr) then createModule else ret m in
  modify (fun s => mkState (heap s) (target s) m' (symbols s) (builderStorage s)
                     (globalValueNumberingMap s) (envs s) (builder s) (globalVarLayouts s)).

Definition addGlobalVarLayouts (entries : list (string * nat)) : M unit :=
  forEach entries (fun '(mangledName, layout) =>
    modify (fun s => setGlobalVarLayouts (AddIfNotExists (globalVarLayouts s) mangledName layout) s)).

(** The first steps of [linkIR]: the symbol table of all the modules and
    the layouts of the global parameters. Nothing is cloned yet. *)
Definition linkIR_collect (input : LinkInput) : M unit :=
  initializeSharedSpecContext nullptr ;;
  insertGlobalValueSymbolsM (originalProgramIRModule input) ;;
  forEach (moduleDependencies input) insertGlobalValueSymbolsM ;;
  addGlobalVarLayouts (globalScopeVarLayouts input) ;;
  addGlobalVarLayouts (entryPointGroupVarLayouts input) ;;
  let* m := gets moduleInst in
  modify (setBuilderStorage (setInsertInto m)) ;;
  modify (setBuilder (setInsertInto m)).

(** "for now, clone all unreferenced witness tables" *)
Definition cloneWitnessTables (fuel : nat) : M unit :=
  let* syms := gets symbols in
  forEach syms (fun '(_, s) =>
    let* v := derefM (irGlobalValue s) in
    if isOp kIROp_WitnessTable (op v) then
      cloneGlobalValue (cloneInst fuel) fuel (irGlobalValue s) ;; ret tt
    else ret tt).

Definition linkIR_finish (fuel : nat) (input : LinkInput) : M unit :=
  let* p := derefM (originalProgramIRModule input) in
  let* globals := gets (fun s => getChildren (heap s) p) in
  forEach globals (fun inst =>
    let* isBind := gets (fun s => asOp (heap s) (isOp kIROp_BindGlobalGenericParam) inst) in
    if isBind then cloneValue fuel inst ;; ret tt else ret tt) ;;
  let* globals := gets (fun s => getChildren (heap s) p) in
  forEach globals (fun inst =>
    let* i := derefM inst in
    if isOp kIROp_BindGlobalExistentialSlots (op i) then cloneValue fuel inst ;; ret tt
    else ret tt) ;;
  forEach (taggedUnionTypeLayouts input) (fun '(mangledName, taggedUnionTypeLayout) =>
    let* syms := gets symbols in
    match TryGetValue syms mangledName with
    | None => ret tt
    | Some s =>
        let* clonedType := gets (fun st => findClonedValue (envs st) (irGlobalValue s)) in
        if bool_decide (clonedType = nullptr) then ret tt else
        let* b := gets builder in
        addLayoutDecoration b clonedType taggedUnionTypeLayout
    end).

Definition linkIR (fuel : nat) (input : LinkInput) : M LinkedIR :=
  linkIR_collect input ;;
  cloneWitnessTables fuel ;;
  let* irEntryPoint :=
    specializeIRForEntryPoint fuel (entryPointMangledName input)
      (entryPointLayout input) (paramLayouts input) in
  linkIR_finish fuel input ;;
  let* m := gets moduleInst in
  ret (mkLinkedIR m irEntryPoint).

(** The state [linkIR] starts from: the arena holds the source modules,
    nothing is registered, and the one environment is the global one. *)
Definition initialState (h : Heap) (t : CodeGenTarget.t) : LinkState :=
  mkState h t nullptr [] (mkBuilder nullptr) [] [∅] (mkBuilder nullptr) [].


(** ** The ranking of declarations *)

(** What [isBetterForTarget] compares, in the order it compares it. *)
Record Rank : Type := mkRank {
  level : TargetSpecializationLevel;
  isExport : bool;
  isDef : bool
}.

Definition rankOf (fuel : nat) (h : Heap) (targetName : string) (v : IRInst) : Outcome Rank :=
  let? l := getTargetSpecialiationLevel fuel h v targetName in
  let? e := findDecoration h (isOp kIROp_ExportDecoration) v in
  Val (mkRank l (negb (bool_decide (e = nullptr))) (isDefinition h v)).

(** [a] outranks [b]: a higher specialization level; at equal levels an
    export over none; at equal export status a definition over a
    declaration. *)
Definition outranks (a b : Rank) : Prop :=
  UInt (level b) < UInt (level a) \/
  (level a = level b /\
   ((isExport a = true /\ isExport b = false) \/
    (isExport a = isExport b /\ isDef a = true /\ isDef b = false))).

Definition rankKey (r : Rank) : nat :=
  4 * UInt (level r) + 2 * (if isExport r then 1 else 0) + (if isDef r then 1 else 0).

(** A generic whose first block ends in a return of [V]. *)
Definition genericReturns (h : Heap) (G V : IRInst) : Prop :=
  exists g block r,
    deref h G = Val g /\ op g = kIROp_Generic /\
    getFirstChild h g <> nullptr /\ deref h (getFirstChild h g) = Val block /\
    deref h (getLastChild h block) = Val r /\ op r = kIROp_ReturnVal /\
    getOperand r 0 = Val V.

(** ** The declarations of a name *)

Definition valuesOf (syms : SymbolDictionary) (name : string) : list IRInst :=
  from_option symbolValues [] (TryGetValue syms name).

Definition hasLinkageName (h : Heap) (name : string) (gv : IRInst) : bool :=
  match linkageName h gv with
  | Val (Some n) => bool_decide (n = name)
  | _ => false
  end.

(** Modelled from the spec: [isDefinition] (slang-ir.cpp is not under
    src/), as "a candidate that has executable/structural content (a body)":
    the value has a child that is no decoration. *)
Definition hasBody (h : Heap) (v : IRInst) : bool :=
  match deref h v with
  | Val d => negb (bool_decide (getFirstChild h d = nullptr))
  | _ => false
  end.

(** A [specializeGeneric] to run examples with: none of them reaches it. *)
Definition noSpecialize (v : IRInst) : M IRInst := ret v.

Definition inst (o : IROp) (operands : list IRInst) (parent : IRInst)
    (decorationsAndChildren : list IRInst) (v : IRConstantValue) : IRInstData :=
  mkInst o nullptr operands parent decorationsAndChildren v 0.

(** The order in which the chain of a name holds declarations inserted in
    the order [gvs]: the first one stays at the head and each later one is
    linked in right behind it. *)
Definition storedOrder (gvs : list IRInst) : list IRInst :=
  match gvs with
  | [] => []
  | g0 :: rest => g0 :: reverse rest
  end.

Definition mergeValues (old new : list IRInst) : list IRInst :=
  match old with
  | [] => storedOrder new
  | v0 :: vs => v0 :: reverse new ++ vs
  end.

(** Three declarations of the name G: 7 is marked for glsl, 9 is not
    marked, 12 is marked for hlsl; 15 is a generic that returns 12. *)
Definition heapTargets : Heap :=
  [ inst kIROp_Module [] 0 [2; 3; 4; 7; 9; 12; 15] NoValue;
    inst kIROp_StringLit [] 1 [] (StringVal "G");
    inst kIROp_StringLit [] 1 [] (StringVal "hlsl");
    inst kIROp_StringLit [] 1 [] (StringVal "glsl");
    inst kIROp_ImportDecoration [2] 7 [] NoValue;
    inst kIROp_TargetDecoration [4] 7 [] NoValue;
    inst kIROp_Func [] 1 [5; 6] NoValue;
    inst kIROp_ImportDecoration [2] 9 [] NoValue;
    inst kIROp_Func [] 1 [8] NoValue;
    inst kIROp_ImportDecoration [2] 12 [] NoValue;
    inst kIROp_TargetDecoration [3] 12 [] NoValue;
    inst kIROp_Func [] 1 [10; 11] NoValue;
    inst kIROp_Block [] 15 [14] NoValue;
    inst kIROp_ReturnVal [12] 13 [] NoValue;
    inst kIROp_Generic [] 1 [13] NoValue ].

Definition symbolG : IRSpecSymbol :=
  mkSymbol 7 (Some (mkSymbol 12 (Some (mkSymbol 9 None)))).

(** Two unmarked declarations of the name G: 4 is a definition with an
    import decoration, 7 is a bodyless declaration with an export
    decoration. *)
Definition heapExportedDeclaration : Heap :=
  [ inst kIROp_Module [] 0 [2; 4; 7] NoValue;
    inst kIROp_StringLit [] 1 [] (StringVal "G");
    inst kIROp_ImportDecoration [2] 4 [] NoValue;
    inst kIROp_Func [] 1 [3; 5] NoValue;
    inst kIROp_Block [] 4 [] NoValue;
    inst kIROp_ExportDecoration [2] 7 [] NoValue;
    inst kIROp_Func [] 1 [6] NoValue ].

(** Three unmarked declarations of the name F, in this order in their
    module: 4 has no body, 6 and 9 have one. *)
Definition heapTied : Heap :=
  [ inst kIROp_Module [] 0 [2; 4; 6; 9] NoValue;
    inst kIROp_StringLit [] 1 [] (StringVal "F");
    inst kIROp_ImportDecoration [2] 4 [] NoValue;
    inst kIROp_Func [] 1 [3] NoValue;
    inst kIROp_ImportDecoration [2] 6 [] NoValue;
    inst kIROp_Func [] 1 [5; 7] NoValue;
    inst kIROp_Block [] 6 [] NoValue;
    inst kIROp_ImportDecoration [2] 9 [] NoValue;
    inst kIROp_Func [] 1 [8; 10] NoValue;
    inst kIROp_Block [] 9 [] NoValue ].

(** ** Properties of computations *)

(** Every run of [m], however it ends, leaves a state related by [R] to
    the one it started in, and throws only messages in [P]. *)
Definition sound {A : Type} (R : LinkState -> LinkState -> Prop) (P : string -> Prop)
    (m : M A) : Prop :=
  forall s, R s (m s).2 /\ forall msg, (m s).1 = Unexpected msg -> P msg.

(** [m'] does what [m] does whenever [m] does not run out of fuel. *)
Definition refines {A : Type} (m m' : M A) : Prop :=
  forall s, (m s).1 <> OutOfFuel -> m' s = m s.

Definition noThrow {A : Type} (o : Outcome A) : Prop := forall msg, o <> Unexpected msg.

(** A source module 1 whose instruction 2 has itself as its type, and an
    empty module 3 under construction. *)
Definition heapSelfTyped : Heap :=
  [ inst kIROp_Module [] 0 [2] NoValue;
    mkInst (kIROp_Other 7) 2 [] 1 [] NoValue 0;
    inst kIROp_Module [] 0 [] NoValue ].

Definition stateSelfTyped : LinkState :=
  mkState heapSelfTyped CodeGenTarget.HLSL 3 [] (mkBuilder 3) [] [∅] (mkBuilder 3) [].

(** The state of [stateSelfTyped] with a clone registered for 2. *)
Definition stateRegistered : LinkState :=
  setEnvs [ {[ 2 := 3 ]} ] stateSelfTyped.

(** The module of [heapTied] and an empty module 11 under construction,
    with an empty symbol table. *)
Definition stateNoSymbols : LinkState :=
  mkState (heapTied ++ [inst kIROp_Module [] 0 [] NoValue]) CodeGenTarget.GLSL 11 []
    (mkBuilder 11) [] [∅] (mkBuilder 11) [].

(** Two functions that call each other: the block of A (5) calls B (10),
    and the block of B calls A. *)
Definition heapMutual : Heap :=
  [ inst kIROp_Module [] 0 [2; 3; 5; 10] NoValue;
    inst kIROp_StringLit [] 1 [] (StringVal "A");
    inst kIROp_StringLit [] 1 [] (StringVal "B");
    inst kIROp_ExportDecoration [2] 5 [] NoValue;
    inst kIROp_Func [] 1 [4; 6] NoValue;
    inst kIROp_Block [] 5 [7; 8] NoValue;
    inst (kIROp_Other 1) [10] 6 [] NoValue;
    inst kIROp_ReturnVal [7] 6 [] NoValue;
    inst kIROp_ExportDecoration [3] 10 [] NoValue;
    inst kIROp_Func [] 1 [9; 11] NoValue;
    inst kIROp_Block [] 10 [12; 13] NoValue;
    inst (kIROp_Other 1) [5] 11 [] NoValue;
    inst kIROp_ReturnVal [12] 11 [] NoValue ].

Definition inputEntry (name : string) : LinkInput := mkInput 1 [] name [] [] 100 [] [].

(** The program module 1 declares the interface I (6), imports the
    function H (8) and defines the entry point F (10), which uses the
    interface and calls H. The module 15 imports the interface I (19) and
    defines H (21), which uses it. *)
Definition heapInterfaces : Heap :=
  [ inst kIROp_Module [] 0 [2; 3; 4; 6; 8; 10] NoValue;
    inst kIROp_StringLit [] 1 [] (StringVal "I");
    inst kIROp_StringLit [] 1 [] (StringVal "F");
    inst kIROp_StringLit [] 1 [] (StringVal "H");
    inst kIROp_ExportDecoration [2] 6 [] NoValue;
    inst kIROp_InterfaceType [] 1 [5] NoValue;
    inst kIROp_ImportDecoration [4] 8 [] NoValue;
    inst kIROp_Func [] 1 [7] NoValue;
    inst kIROp_ExportDecoration [3] 10 [] NoValue;
    inst kIROp_Func [] 1 [9; 11] NoValue;
    inst kIROp_Block [] 10 [12; 13; 14] NoValue;
    inst (kIROp_Other 1) [6] 11 [] NoValue;
    inst (kIROp_Other 2) [8] 11 [] NoValue;
    inst kIROp_ReturnVal [13] 11 [] NoValue;
    inst kIROp_Module [] 0 [16; 17; 19; 21] NoValue;
    inst kIROp_StringLit [] 15 [] (StringVal "I");
    inst kIROp_StringLit [] 15 [] (StringVal "H");
    inst kIROp_ImportDecoration [16] 19 [] NoValue;
    inst kIROp_InterfaceType [] 15 [18] NoValue;
    inst kIROp_ExportDecoration [17] 21 [] NoValue;
    inst kIROp_Func [] 15 [20; 22] NoValue;
    inst kIROp_Block [] 21 [23; 24] NoValue;
    inst (kIROp_Other 1) [19] 22 [] NoValue;
    inst kIROp_ReturnVal [23] 22 [] NoValue ].

Definition inputInterfaces : LinkInput := mkInput 1 [15] "F" [] [] 100 [] [].

(** The children of [m] that carry a linkage decoration with [name]. *)
Definition linkedAs (h : Heap) (m : IRInst) (name : string) : list IRInst :=
  match deref h m with
  | Val d => List.filter (hasLinkageName h name) (decorationsAndChildren d)
  | _ => []
  end.

(** The state of [stateNoSymbols] with the symbol F of its three
    declarations and, in the module 11 under construction, a function 12
    not yet registered for them. *)
Definition symbolF : IRSpecSymbol :=
  mkSymbol 4 (Some (mkSymbol 9 (Some (mkSymbol 6 None)))).

Definition stateLinkedF : LinkState :=
  mkState (heapTied ++ [inst kIROp_Module [] 0 [12] NoValue; inst kIROp_Func [] 11 [] NoValue])
    CodeGenTarget.GLSL 11 [("F", symbolF)] (mkBuilder 11) [] [∅] (mkBuilder 11) [].

(** ** The source arena is read-only *)

(** A pointer that is null or does not point into the first [n0]
    instructions of the arena. *)
Definition fresh0 (n0 : nat) (p : IRInst) : Prop := p = nullptr \/ n0 < p.

(** The pointers an instruction holds stay clear of the first [n0]
    instructions. *)
Definition closedData (n0 : nat) (d : IRInstData) : Prop :=
  fresh0 n0 (parent d) /\ fresh0 n0 (typeUse d) /\
  Forall (fresh0 n0) (operands d) /\ Forall (fresh0 n0) (decorationsAndChildren d).

(** [o] is a key of one of the environments. *)
Definition known (es : list (gmap nat nat)) (o : IRInst) : Prop :=
  exists env, env ∈ es /\ is_Some (env !! o).

(** What holds of the state while the arena [h0] of the source modules is
    linked: the arena still starts with [h0]; the instructions behind it,
    the registered clones, the shared instructions, the module under
    construction and the insertion points of the builders all lie behind
    [h0] and point only behind it. *)
Record Inv (h0 : Heap) (s : LinkState) : Prop := mkInv {
  inv_prefix : exists l, heap s = h0 ++ l;
  inv_dest : forall p d, length h0 < p -> deref (heap s) p = Val d -> closedData (length h0) d;
  inv_envs : forall env o c, env ∈ envs s -> env !! o = Some c -> length h0 < c;
  inv_numbering : forall k v, findKey k (globalValueNumberingMap s) = Some v -> length h0 < v;
  inv_module : length h0 < moduleInst s;
  inv_builder : fresh0 (length h0) (insertIntoParent (builder s));
  inv_builderStorage : fresh0 (length h0) (insertIntoParent (builderStorage s))
}.

(** From [s] to [s']: the same symbol table and module, and no key of the
    environments forgotten. *)
Definition Ext (s s' : LinkState) : Prop :=
  symbols s' = symbols s /\ moduleInst s' = moduleInst s /\
  forall o, known (envs s) o -> known (envs s') o.

(** [m] keeps the invariant, extends the state, and returns only values
    in [Q]. *)
Definition spec (h0 : Heap) {A : Type} (m : M A) (Q : A -> Prop) : Prop :=
  forall s, Inv h0 s ->
    Inv h0 (m s).2 /\ Ext s (m s).2 /\ forall a, (m s).1 = Val a -> Q a.

(** No instruction of [h0] points behind [h0]. *)
Definition closedSource (h0 : Heap) : Prop :=
  forall d, d ∈ h0 ->
    parent d <= length h0 /\
    Forall (fun c => c <= length h0) (operands d) /\
    Forall (fun c => c <= length h0) (decorationsAndChildren d).

(** What is read through a pointer that is not null: behind the source
    arena an instruction that points behind it, otherwise an instruction
    of the source arena. *)
Definition derefs (h0 : Heap) (p : IRInst) (d : IRInstData) : Prop :=
  p <> nullptr /\
  (fresh0 (length h0) p -> closedData (length h0) d) /\
  (p <= length h0 -> d ∈ h0).

(** The symbol table over the source arena [h0]: one entry for a name, and
    the values of an entry are instructions of [h0] that carry its name. *)
Definition tableOK (h0 : Heap) (syms : SymbolDictionary) : Prop :=
  NoDup syms.*1 /\
  forall name sym, (name, sym) ∈ syms ->
    forall v, v ∈ symbolValues sym -> v <= length h0 /\ linkageName h0 v = Val (Some name).

(** From a state in [J], whenever [m] returns it leaves a state in [K]. *)
Definition lands {A : Type} (J : LinkState -> Prop) (m : M A) (K : LinkState -> Prop) : Prop :=
  forall s a, J s -> (m s).1 = Val a -> K (m s).2.

(** The state while the symbol table is collected: the arena is [h0] and
    the empty module under construction, and nothing is registered. *)
Definition collected (h0 : Heap) (s : LinkState) : Prop :=
  heap s = h0 ++ [mkInst kIROp_Module nullptr [] nullptr [] NoValue 0] /\
  moduleInst s = S (length h0) /\
  envs s = [∅] /\
  globalValueNumberingMap s = [] /\
  tableOK h0 (symbols s).

(** The values a clone made for [ovs] is registered for. *)
Definition valuesFor (ovs : IROriginalValuesForClone) : list IRInst :=
  originalVal ovs :: from_option symbolValues [] (sym ovs).

(** Every non-null value of [vals] is a key of the environments of [s]. *)
Definition registered (vals : list IRInst) (s : LinkState) : Prop :=
  forall v, v ∈ vals -> v <> nullptr -> known (envs s) v.

(** Whenever [m] returns, it leaves a state in [K]. *)
Definition establishes (h0 : Heap) {A : Type} (m : M A) (K : LinkState -> Prop) : Prop :=
  forall s, Inv h0 s -> forall a, (m s).1 = Val a -> K (m s).2.

(** [K] survives every extension of the state. *)
Definition stable (K : LinkState -> Prop) : Prop :=
  forall s s', Ext s s' -> K s -> K s'.

(** A source arena with a witness table that nothing refers to, next to
    the entry point [main]. *)
Definition heapWitness : Heap :=
  [ inst kIROp_Module [] 0 [2; 3; 5; 7] NoValue;
    inst kIROp_StringLit [] 1 [] (StringVal "main");
    inst kIROp_StringLit [] 1 [] (StringVal "W");
    inst kIROp_ExportDecoration [2] 5 [] NoValue;
    inst kIROp_Func [] 1 [4] NoValue;
    inst kIROp_ExportDecoration [3] 7 [] NoValue;
    inst kIROp_WitnessTable [] 1 [6] NoValue ].

Definition inputWitness : LinkInput := mkInput 1 [] "main" [] [] 0 [] [].

(** ** Two functions that call each other *)

(** [m] run from [s] returns [a] and leaves [s']. *)
Definition runs {A : Type} (m : M A) (s : LinkState) (a : A) (s' : LinkState) : Prop :=
  m s = (Val a, s').

(** The module [createModule] makes, and the state of a link of the arena
    [h] when the module has just been made. *)
Definition emptyModule : IRInstData := mkInst kIROp_Module nullptr [] nullptr [] NoValue 0.

Definition freshState (h : Heap) (t : CodeGenTarget.t) (syms : SymbolDictionary)
    (lay : Dictionary nat) : LinkState :=
  mkState (h ++ [emptyModule]) t (S (length h)) syms (setInsertInto (S (length h))) [] [∅]
    (setInsertInto (S (length h))) lay.

(** A function without linkage whose body is the one block [blk]; a block
    that holds the one instruction [i]; an ordinary instruction (a call)
    whose one operand is [g]. *)
Definition isFuncWithBlock (d : IRInstData) (blk : IRInst) : Prop :=
  op d = kIROp_Func /\ typeUse d = nullptr /\ decorationsAndChildren d = [blk].

Definition isBlockWith (d : IRInstData) (i : IRInst) : Prop :=
  op d = kIROp_Block /\ decorationsAndChildren d = [i].

Definition isCallTo (d : IRInstData) (k : nat) (g : IRInst) : Prop :=
  op d = kIROp_Other k /\ typeUse d = nullptr /\ operands d = [g] /\
  decorationsAndChildren d = [].

(** The module that holds the clones of two such functions A and B, behind
    an arena of [n] instructions: the module [n + 1], the clone [n + 2] of
    A with its block and call, the type of the blocks, and the clone
    [n + 6] of B with its block and call. The call of each clone refers to
    the other clone. *)
Definition mutualClones (n kA kB lA lcA lB lcB : nat) : list IRInstData :=
  [ mkInst kIROp_Module nullptr [] nullptr [S (n + 2); S (n + 5); S (n + 1)] NoValue 0;
    mkInst kIROp_Func nullptr [] (S n) [S (n + 3)] NoValue lA;
    mkInst kIROp_BasicBlockType nullptr [] (S n) [] NoValue 0;
    mkInst kIROp_Block (S (n + 2)) [] (S (n + 1)) [S (n + 4)] NoValue 0;
    mkInst (kIROp_Other kA) nullptr [S (n + 5)] (S (n + 3)) [] NoValue lcA;
    mkInst kIROp_Func nullptr [] (S n) [S (n + 6)] NoValue lB;
    mkInst kIROp_Block (S (n + 2)) [] (S (n + 5)) [S (n + 7)] NoValue 0;
    mkInst (kIROp_Other kB) nullptr [S (n + 1)] (S (n + 6)) [] NoValue lcB ].

(** The state that cloning A from [freshState] leaves. *)
Definition mutualState (h : Heap) (t : CodeGenTarget.t) (syms : SymbolDictionary)
    (lay : Dictionary nat) (a blkA callA b blkB callB kA kB lA lcA lB lcB : nat) : LinkState :=
  let n := length h in
  mkState (h ++ mutualClones n kA kB lA lcA lB lcB) t (S n) syms (mkBuilder (S n))
    [((kIROp_BasicBlockType, nullptr, [], NoValue), S (n + 2))]
    [<[callB := S (n + 7)]> (<[blkB := S (n + 6)]> (<[b := S (n + 5)]>
       (<[callA := S (n + 4)]> (<[blkA := S (n + 3)]> (<[a := S (n + 1)]> ∅)))))]
    (mkBuilder (S n)) lay.

(** An arena with nothing but two functions that call each other. *)
Definition heapPair : Heap :=
  [ mkInst kIROp_Func nullptr [] 0 [2] NoValue 11;
    mkInst kIROp_Block nullptr [] 1 [3] NoValue 12;
    mkInst (kIROp_Other 5) nullptr [4] 2 [] NoValue 13;
    mkInst kIROp_Func nullptr [] 0 [5] NoValue 14;
    mkInst kIROp_Block nullptr [] 4 [6] NoValue 15;
    mkInst (kIROp_Other 6) nullptr [1] 5 [] NoValue 16 ].

(** ** More properties of the link *)

(** [dd] is a target decoration, and one that names [targetName]. *)
Definition isTargetDecoration (h : Heap) (dd : IRInst) : Prop :=
  exists d, deref h dd = Val d /\ op d = kIROp_TargetDecoration.

Definition isTargetDecorationFor (h : Heap) (targetName : string) (dd : IRInst) : Prop :=
  exists d, deref h dd = Val d /\ op d = kIROp_TargetDecoration /\
            getStringOperand h d = Val targetName.

(** The messages of [SLANG_UNEXPECTED] in slang-ir-link.cpp. *)
Definition linkMessages : list string :=
  [ "no matching IR symbol"; "expected entry point to be a function"; "too many parameters";
    "no matching values registered"; "duplicate global instruction"; "unhandled case" ].

(** From [s] to [s'], what the cloner only reads is the same: the symbol
    table, the target, the module, the layouts of the global parameters
    and the builder of the shared context. *)
Definition contextKept (s s' : LinkState) : Prop :=
  symbols s' = symbols s /\ target s' = target s /\ moduleInst s' = moduleInst s /\
  globalVarLayouts s' = globalVarLayouts s /\ builderStorage s' = builderStorage s.

(** The globals of the module [m] of the arena [h] that have the linkage
    name [name]. *)
Definition namedGlobalsOf (h : Heap) (name : string) (m : IRInst) : list IRInst :=
  if bool_decide (m = nullptr) then [] else
  match deref h m with
  | Val md => List.filter (hasLinkageName h name) (getChildren h md)
  | _ => []
  end.

(** ** What an instruction is, once made *)

(** From [s] to [s'], every instruction of the arena is still there, with
    the opcode and the payload it had. *)
Definition kindsKept (s s' : LinkState) : Prop :=
  forall p d, deref (heap s) p = Val d ->
    exists d', deref (heap s') p = Val d' /\ op d' = op d /\ value d' = value d.

(** The table of shared instructions is sound: the instruction it holds
    for a key has the opcode and the payload of the key. *)
Definition numberingOK (s : LinkState) : Prop :=
  forall o t args v i,
    findKey (o, t, args, v) (globalValueNumberingMap s) = Some i ->
    exists d, deref (heap s) i = Val d /\ op d = o /\ value d = v.

(** However [m] ends, it keeps the instructions of the arena and what
    they are, and it keeps the table of shared instructions sound. *)
Definition keeps {A : Type} (m : M A) : Prop :=
  forall s, kindsKept s (m s).2 /\ (numberingOK s -> numberingOK (m s).2).

(** Whenever [m] returns, it returns an instruction of opcode [K]. *)
Definition made (K : IROp) (m : M IRInst) : Prop :=
  forall s c s', m s = (Val c, s') -> exists d, deref (heap s') c = Val d /\ op d = K.

(** Whenever [m] returns, it returns an instruction of opcode [K] that
    the arena did not hold when [m] started. *)
Definition makes (K : IROp) (m : M IRInst) : Prop :=
  forall s c s', m s = (Val c, s') ->
    length (heap s) < c /\ exists d, deref (heap s') c = Val d /\ op d = K.

(** From a sound table of shared instructions, whenever [m] returns, it
    returns an instruction of opcode [K] and payload [v]. *)
Definition madeLit (K : IROp) (v : IRConstantValue) (m : M IRInst) : Prop :=
  forall s c s', numberingOK s -> m s = (Val c, s') ->
    exists d, deref (heap s') c = Val d /\ op d = K /\ value d = v.

(** Whenever [m] returns, it returns [c]. *)
Definition returns {A : Type} (c : A) (m : M A) : Prop :=
  forall s r s', m s = (Val r, s') -> r = c.

(** A link of [heapTargets] that lists its module three times, once as a
    null dependency, with a layout for the name g in the global scope and
    another in the entry-point group. *)
Definition inputTwice : LinkInput :=
  mkInput 1 [nullptr; 1] "G" [("g", 1)] [("g", 2); ("e", 3)] 0 [] [].

Definition stateTwice : LinkState :=
  (linkIR_collect inputTwice (initialState heapTargets CodeGenTarget.HLSL)).2.

(** A link of [heapWitness] for an entry point it does not hold, and the
    state of its link for [main] once the symbol table is collected. *)
Definition inputAbsent : LinkInput := mkInput 1 [] "absent" [] [] 0 [] [].

Definition stateWitness : LinkState :=
  (linkIR_collect inputWitness (initialState heapWitness CodeGenTarget.HLSL)).2.

(** A source module that holds the Boolean literal 2, of payload 5. *)
Definition heapBool : Heap :=
  [ inst kIROp_Module [] 0 [2] NoValue;
    inst kIROp_BoolLit [] 1 [] (IntVal 5) ].

(** * Properties *)

(** ** Outcomes *)

Lemma obind_Val {A B : Type} (o : Outcome A) (k : A -> Outcome B) (b : B) :
  obind o k = Val b -> exists a, o = Val a /\ k a = Val b.
Proof. destruct o; simpl; intros; try discriminate; eauto. Qed.

(** ** Looking through generics *)

Lemma returnedByGeneric_step fuel h G V :
  genericReturns h G V ->
  returnedByGeneric (S fuel) h G = returnedByGeneric fuel h V.
Proof.
  intros (g & block & r & HG & Hop & Hfirst & Hblock & Hlast & Hret & HV).
  cbn [returnedByGeneric].
  unfold asOp at 1. rewrite HG, Hop. unfold isOp at 1.
  rewrite bool_decide_eq_true_2 by done.
  simpl obind. rewrite bool_decide_eq_false_2 by done.
  rewrite Hblock. simpl obind.
  unfold asOp. rewrite Hlast, Hret. unfold isOp.
  rewrite bool_decide_eq_true_2 by done.
  simpl obind. rewrite HV. reflexivity.
Qed.

(** C6. For a generic whose first block ends in a return of [V], the
    specialization level of the generic is the specialization level of
    [V]: the level is computed from the returned value (looking through
    nested generics in turn) and the decorations of the generic itself are
    not read. One unit of the budget is spent on the step from the generic
    to [V]. *)
Theorem generic_level_is_level_of_returned_value fuel h G V targetName :
  genericReturns h G V ->
  getTargetSpecialiationLevel (S fuel) h G targetName =
  getTargetSpecialiationLevel fuel h V targetName.
Proof.
  intros HG. unfold getTargetSpecialiationLevel.
  rewrite (returnedByGeneric_step fuel h G V HG). reflexivity.
Qed.

(** ** The ranking *)

Lemma outranks_key (a b : Rank) : outranks a b <-> rankKey b < rankKey a.
Proof.
  destruct a as [[] [] []], b as [[] [] []]; unfold outranks, rankKey; simpl;
    (split;
     [ intros [?|[? [[??]|[?[??]]]]]; simplify_eq/=; lia
     | intros; first [ lia | left; lia | right; split; [done|]; first [left; done | right; done] ] ]).
Qed.

Lemma rankOf_Val fuel h targetName v r :
  rankOf fuel h targetName v = Val r ->
  exists e,
    getTargetSpecialiationLevel fuel h v targetName = Val (level r) /\
    findDecoration h (isOp kIROp_ExportDecoration) v = Val e /\
    isExport r = negb (bool_decide (e = nullptr)) /\
    isDef r = isDefinition h v.
Proof.
  unfold rankOf. intros H.
  apply obind_Val in H as (l & Hl & H).
  apply obind_Val in H as (e & He & H).
  exists e. inversion H; subst; simpl. auto.
Qed.

(** [isBetterForTarget] is the strict comparison of ranks. *)
Lemma isBetterForTarget_rank fuel h t targetName newVal oldVal rn ro :
  getTargetName t = Val targetName ->
  rankOf fuel h targetName newVal = Val rn ->
  rankOf fuel h targetName oldVal = Val ro ->
  isBetterForTarget fuel h t newVal oldVal = Val (bool_decide (rankKey ro < rankKey rn)).
Proof.
  intros Ht Hn Ho.
  apply rankOf_Val in Hn as (en & Hln & Hen & Hxn & Hdn).
  apply rankOf_Val in Ho as (eo & Hlo & Heo & Hxo & Hdo).
  unfold isBetterForTarget. rewrite Ht. simpl obind.
  rewrite Hln, Hlo. simpl obind.
  rewrite Hen, Heo. simpl obind.
  rewrite <- Hxn, <- Hxo, <- Hdn, <- Hdo.
  destruct rn as [[] [] []], ro as [[] [] []]; reflexivity.
Qed.

(** The scan keeps the first declaration of the greatest rank: those
    before it rank strictly lower, those after it rank no higher. *)
Lemma bestValAmong_first_max fuel h t targetName (R : nat -> Rank) :
  getTargetName t = Val targetName ->
  forall ss pre bestVal post,
    (forall c, c ∈ pre ++ bestVal :: post ++ ss -> rankOf fuel h targetName c = Val (R c)) ->
    (forall c, c ∈ pre -> rankKey (R c) < rankKey (R bestVal)) ->
    (forall c, c ∈ post -> rankKey (R c) <= rankKey (R bestVal)) ->
    exists b pre' post',
      bestValAmong fuel h t bestVal ss = Val b /\
      pre ++ bestVal :: post ++ ss = pre' ++ b :: post' /\
      (forall c, c ∈ pre' -> rankKey (R c) < rankKey (R b)) /\
      (forall c, c ∈ post' -> rankKey (R c) <= rankKey (R b)).
Proof.
  clear DEBUG specializeGeneric.
  intros Ht. induction ss as [|newVal ss IH]; intros pre bestVal post Hrank Hpre Hpost.
  - exists bestVal, pre, post. rewrite app_nil_r. simpl. auto.
  - cbn [bestValAmong].
    rewrite (isBetterForTarget_rank fuel h t targetName newVal bestVal (R newVal) (R bestVal));
      [ | done | apply Hrank; set_solver | apply Hrank; set_solver ].
    simpl obind. case_bool_decide as Hlt.
    + destruct (IH (pre ++ bestVal :: post) newVal []) as (b & pre' & post' & Hb & Heq & H1 & H2).
      * intros c Hc. apply Hrank. set_solver.
      * intros c Hc. apply elem_of_app in Hc as [Hc|Hc].
        { specialize (Hpre c Hc). lia. }
        apply elem_of_cons in Hc as [->|Hc]; [lia|]. specialize (Hpost c Hc). lia.
      * intros c Hc. set_solver.
      * exists b, pre', post'. split; [exact Hb|]. split; [|auto].
        rewrite <- Heq. simpl. rewrite <- !app_assoc. reflexivity.
    + destruct (IH pre bestVal (post ++ [newVal])) as (b & pre' & post' & Hb & Heq & H1 & H2).
      * intros c Hc. apply Hrank. set_solver.
      * exact Hpre.
      * intros c Hc. apply elem_of_app in Hc as [Hc|Hc]; [auto|].
        apply list_elem_of_singleton in Hc as ->. lia.
      * exists b, pre', post'. split; [exact Hb|]. split; [|auto].
        rewrite <- Heq. rewrite <- !app_assoc. reflexivity.
Qed.

Lemma symbolValues_unfold (s : IRSpecSymbol) :
  symbolValues s = irGlobalValue s :: from_option symbolValues [] (nextWithSameName s).
Proof. destruct s as [v [n|]]; reflexivity. Qed.

Lemma selectBestVal_first_max fuel h t targetName (R : nat -> Rank) (s : IRSpecSymbol) :
  getTargetName t = Val targetName ->
  (forall c, c ∈ symbolValues s -> rankOf fuel h targetName c = Val (R c)) ->
  exists b pre post,
    selectBestVal fuel h t s = Val b /\
    symbolValues s = pre ++ b :: post /\
    (forall c, c ∈ pre -> rankKey (R c) < rankKey (R b)) /\
    (forall c, c ∈ post -> rankKey (R c) <= rankKey (R b)).
Proof.
  clear DEBUG specializeGeneric.
  intros Ht Hrank. unfold selectBestVal.
  rewrite symbolValues_unfold in *.
  destruct (bestValAmong_first_max fuel h t targetName R Ht
              (from_option symbolValues [] (nextWithSameName s)) [] (irGlobalValue s) [])
    as (b & pre & post & Hb & Heq & H1 & H2).
  - exact Hrank.
  - intros c Hc. set_solver.
  - intros c Hc. set_solver.
  - exists b, pre, post. auto.
Qed.

(** ** The symbol table *)

Lemma TryGetValue_setValue {V : Type} (dict : Dictionary V) key v key' :
  TryGetValue (setValue dict key v) key' =
  if bool_decide (key = key') then
    match TryGetValue dict key with Some _ => Some v | None => None end
  else TryGetValue dict key'.
Proof.
  induction dict as [|[k v0] dict IH]; simpl.
  - by case_bool_decide.
  - repeat (case_bool_decide; simplify_eq/=); try done; rewrite IH;
      repeat (case_bool_decide; simplify_eq/=); done.
Qed.

Lemma TryGetValue_Add {V : Type} (dict : Dictionary V) key v key' :
  TryGetValue (Add dict key v) key' =
  match TryGetValue dict key' with
  | Some x => Some x
  | None => if bool_decide (key = key') then Some v else None
  end.
Proof.
  unfold Add. induction dict as [|[k v0] dict IH]; simpl.
  - done.
  - destruct (bool_decide (k = key')); [done|apply IH].
Qed.

Lemma insertGlobalValueSymbol_valuesOf h syms gv syms' name :
  insertGlobalValueSymbol h syms gv = Val syms' ->
  valuesOf syms' name =
  if hasLinkageName h name gv then
    match valuesOf syms name with
    | [] => [gv]
    | v0 :: vs => v0 :: gv :: vs
    end
  else valuesOf syms name.
Proof.
  unfold insertGlobalValueSymbol, hasLinkageName. intros H.
  apply obind_Val in H as (linkage & Hl & H). rewrite Hl.
  destruct linkage as [mangledName|]; [|by inversion H].
  unfold valuesOf.
  destruct (TryGetValue syms mangledName) as [prev|] eqn:Hprev; inversion H; subst; clear H.
  - rewrite TryGetValue_setValue, Hprev.
    case_bool_decide; [subst|].
    + rewrite Hprev. simpl. rewrite (symbolValues_unfold prev).
      destruct prev as [v [n|]]; reflexivity.
    + reflexivity.
  - rewrite TryGetValue_Add.
    case_bool_decide; [subst|].
    + by rewrite Hprev.
    + by destruct (TryGetValue syms name).
Qed.

Lemma insertAll_valuesOf h name gvs : forall syms syms',
  insertAll h syms gvs = Val syms' ->
  valuesOf syms' name =
  mergeValues (valuesOf syms name) (List.filter (hasLinkageName h name) gvs).
Proof.
  induction gvs as [|g gvs IH]; intros syms syms' H.
  - inversion H; subst. simpl. unfold mergeValues.
    destruct (valuesOf syms' name); reflexivity.
  - cbn [insertAll] in H. apply obind_Val in H as (syms1 & H1 & H).
    rewrite (IH _ _ H).
    rewrite (insertGlobalValueSymbol_valuesOf _ _ _ _ name H1).
    simpl List.filter.
    destruct (hasLinkageName h name g); [|done].
    destruct (valuesOf syms name) as [|v0 vs]; simpl.
    + by rewrite app_nil_r.
    + by rewrite reverse_cons, <- app_assoc.
Qed.

(** C2, as the code has it. After any sequence of insertions into an empty
    table, the chain of a name holds the declaration inserted first at its
    head and the later ones behind it in reverse order of insertion; and
    when the ranking leaves declarations tied for the best, the one
    earliest in that chain is selected: those before it rank strictly
    lower, those after it rank no higher. *)
Theorem chain_order_and_tie_break fuel h t targetName (R : nat -> Rank) gvs syms name :
  insertAll h [] gvs = Val syms ->
  List.filter (hasLinkageName h name) gvs <> [] ->
  getTargetName t = Val targetName ->
  (forall c, c ∈ List.filter (hasLinkageName h name) gvs ->
             rankOf fuel h targetName c = Val (R c)) ->
  exists s b pre post,
    TryGetValue syms name = Some s /\
    symbolValues s = storedOrder (List.filter (hasLinkageName h name) gvs) /\
    selectBestVal fuel h t s = Val b /\
    symbolValues s = pre ++ b :: post /\
    (forall c, c ∈ pre -> outranks (R b) (R c)) /\
    (forall c, c ∈ post -> ~ outranks (R c) (R b)).
Proof.
  clear DEBUG specializeGeneric.
  intros Hins Hne Ht Hrank.
  pose proof (insertAll_valuesOf h name gvs [] syms Hins) as Hvals.
  unfold valuesOf in Hvals. simpl in Hvals.
  destruct (TryGetValue syms name) as [s|] eqn:Hs; simpl in Hvals.
  - destruct (selectBestVal_first_max fuel h t targetName R s Ht)
      as (b & pre & post & Hb & Heq & H1 & H2).
    + intros c Hc. apply Hrank. rewrite Hvals in Hc.
      destruct (List.filter (hasLinkageName h name) gvs) as [|g0 rest]; [done|].
      simpl in Hc. rewrite elem_of_cons, elem_of_reverse in Hc. set_solver.
    + exists s, b, pre, post. repeat split; try done.
      * intros c Hc. apply outranks_key. auto.
      * intros c Hc Hout. apply outranks_key in Hout. specialize (H2 c Hc). lia.
  - destruct (List.filter (hasLinkageName h name) gvs); [done|discriminate].
Qed.

(** C1, as the code has it. For a target that [getTargetName] names (HLSL,
    GLSL, C or C++ source) and declarations that can be ranked, the scan
    returns a declaration of the symbol that no other one outranks, where a
    higher specialization level outranks a lower one (for the target, not
    specialized, for another target), at equal levels an export outranks
    none, and at equal export status a definition outranks a declaration.
    In particular the one declaration marked for the target is chosen, and
    among declarations of equal level and export status the one definition
    is chosen. *)
Theorem best_declaration_is_maximal fuel h t targetName (R : nat -> Rank) (s : IRSpecSymbol) :
  getTargetName t = Val targetName ->
  (forall c, c ∈ symbolValues s -> rankOf fuel h targetName c = Val (R c)) ->
  exists b,
    selectBestVal fuel h t s = Val b /\
    b ∈ symbolValues s /\
    (forall c, c ∈ symbolValues s -> ~ outranks (R c) (R b)) /\
    (forall x, x ∈ symbolValues s ->
       level (R x) = specializedForTarget ->
       (forall c, c ∈ symbolValues s -> c <> x -> level (R c) <> specializedForTarget) ->
       b = x) /\
    (forall x, x ∈ symbolValues s ->
       isDef (R x) = true ->
       (forall c, c ∈ symbolValues s -> c <> x ->
          level (R c) = level (R x) /\ isExport (R c) = isExport (R x) /\ isDef (R c) = false) ->
       b = x).
Proof.
  clear DEBUG specializeGeneric.
  intros Ht Hrank.
  destruct (selectBestVal_first_max fuel h t targetName R s Ht Hrank)
    as (b & pre & post & Hb & Heq & H1 & H2).
  assert (Hmax : forall c, c ∈ symbolValues s -> rankKey (R c) <= rankKey (R b)).
  { intros c Hc. rewrite Heq in Hc. apply elem_of_app in Hc as [Hc|Hc].
    - specialize (H1 c Hc). lia.
    - apply elem_of_cons in Hc as [->|Hc]; [lia|auto]. }
  assert (Hb_in : b ∈ symbolValues s) by (rewrite Heq; set_solver).
  exists b. split; [exact Hb|]. split; [exact Hb_in|]. split; [|split].
  - intros c Hc Hout. apply outranks_key in Hout. specialize (Hmax c Hc). lia.
  - intros x Hx Hlx Hothers.
    destruct (decide (b = x)) as [|Hne]; [done|exfalso].
    specialize (Hothers b Hb_in Hne). specialize (Hmax x Hx).
    unfold rankKey in Hmax. rewrite Hlx in Hmax.
    destruct (level (R b)), (isExport (R b)), (isDef (R b)), (isExport (R x)), (isDef (R x));
      simpl in Hmax; first [done | lia].
  - intros x Hx Hdx Hothers.
    destruct (decide (b = x)) as [|Hne]; [done|exfalso].
    destruct (Hothers b Hb_in Hne) as (Hl & He & Hd). specialize (Hmax x Hx).
    unfold rankKey in Hmax. rewrite Hl, He, Hd, Hdx in Hmax. lia.
Qed.

(** ** Memoization *)

(** C3. Once a clone is registered for [original] in the chain of
    environments (the innermost environment that knows [original]
    decides), a call of [cloneValue] returns that very clone and leaves the
    state as it was: no instruction is constructed, and the next call finds
    the same situation. *)
Theorem cloned_value_is_reused fuel (s : LinkState) (original clonedValue : IRInst) :
  original <> nullptr ->
  clonedValue <> nullptr ->
  findClonedValue (envs s) original = clonedValue ->
  cloneValue (S fuel) original s = (Val clonedValue, s) /\
  findClonedValue (envs (cloneValue (S fuel) original s).2) original = clonedValue.
Proof.
  intros Ho Hc Hfind.
  assert (H : cloneValue (S fuel) original s = (Val clonedValue, s)).
  { cbn [cloneValue]. unfold cloneValue_body.
    rewrite bool_decide_eq_false_2 by done.
    unfold bind, gets. rewrite Hfind.
    rewrite bool_decide_eq_false_2 by done. reflexivity. }
  split; [exact H|]. rewrite H. exact Hfind.
Qed.

(** ** What the pure parts can throw *)

Lemma obind_Unexpected {A B : Type} (o : Outcome A) (k : A -> Outcome B) msg :
  obind o k = Unexpected msg ->
  o = Unexpected msg \/ exists a, o = Val a /\ k a = Unexpected msg.
Proof. destruct o; simpl; intros H; try discriminate; [eauto|left; congruence]. Qed.

Lemma deref_noThrow h p : noThrow (deref h p).
Proof. intros msg. destruct p; simpl; [done|]. by destruct (h !! p). Qed.

Lemma getOperand_noThrow d i : noThrow (getOperand d i).
Proof. intros msg. unfold getOperand. by destruct (operands d !! i). Qed.

Lemma getStringOperand_noThrow h d : noThrow (getStringOperand h d).
Proof.
  intros msg H. unfold getStringOperand in H.
  apply obind_Unexpected in H as [H|(lit & _ & H)]; [by apply getOperand_noThrow in H|].
  apply obind_Unexpected in H as [H|(l & _ & H)]; [by apply deref_noThrow in H|].
  by destruct (value l).
Qed.

Lemma findDecoration_noThrow h isa p : noThrow (findDecoration h isa p).
Proof.
  intros msg H. unfold findDecoration in H.
  apply obind_Unexpected in H as [H|(d & _ & H)]; [by apply deref_noThrow in H|done].
Qed.

Lemma linkageName_noThrow h gv : noThrow (linkageName h gv).
Proof.
  intros msg H. unfold linkageName in H.
  apply obind_Unexpected in H as [H|(l & _ & H)]; [by apply findDecoration_noThrow in H|].
  case_bool_decide; [done|].
  apply obind_Unexpected in H as [H|(d & _ & H)]; [by apply deref_noThrow in H|].
  apply obind_Unexpected in H as [H|(n & _ & H)]; [by apply getStringOperand_noThrow in H|done].
Qed.

Lemma returnedByGeneric_noThrow fuel h : forall val, noThrow (returnedByGeneric fuel h val).
Proof.
  induction fuel as [|fuel IH]; intros val msg H; simpl in H.
  - by destruct (asOp h (isOp kIROp_Generic) val).
  - destruct (asOp h (isOp kIROp_Generic) val); [|done].
    apply obind_Unexpected in H as [H|(g & _ & H)]; [by apply deref_noThrow in H|].
    case_bool_decide; [done|].
    apply obind_Unexpected in H as [H|(b & _ & H)]; [by apply deref_noThrow in H|].
    destruct (asOp h (isOp kIROp_ReturnVal) (getLastChild h b)); [|done].
    apply obind_Unexpected in H as [H|(r & _ & H)]; [by apply deref_noThrow in H|].
    apply obind_Unexpected in H as [H|(v & _ & H)]; [by apply getOperand_noThrow in H|].
    by apply IH in H.
Qed.

Lemma scanTargetDecorations_noThrow h targetName ds :
  forall result, noThrow (scanTargetDecorations h targetName result ds).
Proof.
  induction ds as [|dd ds IH]; intros result msg H; simpl in H; [done|].
  apply obind_Unexpected in H as [H|(d & _ & H)]; [by apply deref_noThrow in H|].
  destruct (negb (isOp kIROp_TargetDecoration (op d))); [by apply IH in H|].
  apply obind_Unexpected in H as [H|(n & _ & H)]; [by apply getStringOperand_noThrow in H|].
  case_bool_decide; [done|]. by apply IH in H.
Qed.

Lemma getTargetSpecialiationLevel_noThrow fuel h v targetName :
  noThrow (getTargetSpecialiationLevel fuel h v targetName).
Proof.
  intros msg H. unfold getTargetSpecialiationLevel in H.
  apply obind_Unexpected in H as [H|(val & _ & H)]; [by apply returnedByGeneric_noThrow in H|].
  apply obind_Unexpected in H as [H|(d & _ & H)]; [by apply deref_noThrow in H|].
  by apply scanTargetDecorations_noThrow in H.
Qed.

Lemma getTargetName_throws t msg :
  getTargetName t = Unexpected msg -> msg = "unhandled case".
Proof. destruct t; simpl; congruence. Qed.

Lemma isBetterForTarget_throws fuel h t newVal oldVal msg :
  isBetterForTarget fuel h t newVal oldVal = Unexpected msg -> msg = "unhandled case".
Proof.
  unfold isBetterForTarget. intros H.
  apply obind_Unexpected in H as [H|(n & _ & H)]; [by apply getTargetName_throws in H|].
  apply obind_Unexpected in H as [H|(l1 & _ & H)];
    [by apply getTargetSpecialiationLevel_noThrow in H|].
  apply obind_Unexpected in H as [H|(l2 & _ & H)];
    [by apply getTargetSpecialiationLevel_noThrow in H|].
  case_bool_decide; [done|].
  apply obind_Unexpected in H as [H|(e1 & _ & H)]; [by apply findDecoration_noThrow in H|].
  apply obind_Unexpected in H as [H|(e2 & _ & H)]; [by apply findDecoration_noThrow in H|].
  repeat case_bool_decide; done.
Qed.

Lemma bestValAmong_throws fuel h t ss : forall bestVal msg,
  bestValAmong fuel h t bestVal ss = Unexpected msg -> msg = "unhandled case".
Proof.
  induction ss as [|newVal ss IH]; intros bestVal msg H; simpl in H; [done|].
  apply obind_Unexpected in H as [H|(b & _ & H)]; [by apply isBetterForTarget_throws in H|].
  by apply IH in H.
Qed.

Lemma selectBestVal_throws fuel h t s msg :
  selectBestVal fuel h t s = Unexpected msg -> msg = "unhandled case".
Proof. apply bestValAmong_throws. Qed.

(** ** Invariants of the cloner *)

Section Soundness.

Variable R : LinkState -> LinkState -> Prop.
Variable P : string -> Prop.
Hypothesis R_refl : forall s, R s s.
Hypothesis R_trans : forall s1 s2 s3, R s1 s2 -> R s2 s3 -> R s1 s3.
Hypothesis R_setHeap : forall s h, R s (setHeap h s).
Hypothesis R_setNumbering : forall s m, R s (setNumbering m s).
Hypothesis R_setEnvs : forall s es, R s (setEnvs es s).
Hypothesis R_setBuilder : forall s b, R s (setBuilder b s).
Hypothesis P_values : P "no matching values registered".
Hypothesis P_duplicate : P "duplicate global instruction".
Hypothesis P_unhandled : P "unhandled case".

Lemma sound_ret {A : Type} (a : A) : sound R P (ret a).
Proof using R_refl. intros s. split; [apply R_refl|]. discriminate. Qed.

Lemma sound_bind {A B : Type} (m : M A) (k : A -> M B) :
  sound R P m -> (forall a, sound R P (k a)) -> sound R P (bind m k).
Proof using R_trans.
  intros Hm Hk s. unfold bind.
  destruct (Hm s) as [HR HP]. destruct (m s) as [[a|msg| |] s1]; simpl in *;
    [|split; [exact HR|intros ? [=]; eauto; subst; eauto]..].
  destruct (Hk a s1) as [HR' HP']. split; [eapply R_trans; eauto|exact HP'].
Qed.

Lemma sound_gets {A : Type} (f : LinkState -> A) : sound R P (gets f).
Proof using R_refl. intros s. split; [apply R_refl|]. discriminate. Qed.

Lemma sound_inspect {A : Type} (f : LinkState -> Outcome A) :
  (forall s msg, f s = Unexpected msg -> P msg) -> sound R P (inspect f).
Proof using R_refl. intros H s. split; [apply R_refl|]. simpl. apply H. Qed.

Lemma sound_raise {A : Type} (o : Outcome A) :
  (forall msg, o = Unexpected msg -> P msg) -> sound R P (raise o).
Proof using R_refl. intros H s. split; [apply R_refl|]. simpl. apply H. Qed.

Lemma sound_modify (f : LinkState -> LinkState) :
  (forall s, R s (f s)) -> sound R P (modify f).
Proof. intros H s. split; [apply H|]. discriminate. Qed.

Lemma sound_forEach {A : Type} (l : list A) (body : A -> M unit) :
  (forall x, sound R P (body x)) -> sound R P (forEach l body).
Proof using R_refl R_trans.
  intros H. induction l as [|x l IH]; simpl.
  - apply sound_ret.
  - apply sound_bind; auto.
Qed.

Lemma sound_SLANG_ASSERT b : sound R P (SLANG_ASSERT b).
Proof using R_refl.
  destruct b; simpl; [apply sound_ret|]. apply sound_raise. discriminate.
Qed.

Ltac sound_leaf H :=
  first
    [ discriminate H
    | by apply deref_noThrow in H
    | by apply getOperand_noThrow in H
    | by apply linkageName_noThrow in H
    | by apply findDecoration_noThrow in H
    | by apply getStringOperand_noThrow in H
    | apply selectBestVal_throws in H; subst; assumption
    | injection H as <-; assumption ].

Ltac sound_step :=
  lazymatch goal with
  | |- sound _ _ (ret _) => apply sound_ret
  | |- sound _ _ (bind _ _) => apply sound_bind; [|intros]
  | |- sound _ _ (gets _) => apply sound_gets
  | |- sound _ _ (modify _) => apply sound_modify; intros; auto
  | |- sound _ _ (forEach _ _) => apply sound_forEach; intros
  | |- sound _ _ (SLANG_ASSERT _) => apply sound_SLANG_ASSERT
  | |- sound _ _ (SLANG_UNEXPECTED _) =>
      let H := fresh in apply sound_raise; intros ? H; sound_leaf H
  | |- sound _ _ (raise _) =>
      let H := fresh in apply sound_raise; intros ? H; sound_leaf H
  | |- sound _ _ (inspect _) =>
      let H := fresh in apply sound_inspect; intros ? ? H; sound_leaf H
  | |- sound _ _ (match ?x with _ => _ end) => destruct x
  | |- sound _ _ _ => solve [eauto with sound]
  end.

Ltac sound_tac := repeat sound_step.

Lemma sound_derefM p : sound R P (derefM p).
Proof using R_refl. unfold derefM. sound_tac. Qed.

Lemma sound_allocInst d : sound R P (allocInst d).
Proof using R_setHeap. intros s. split; [apply R_setHeap|]. discriminate. Qed.

#[local] Hint Resolve sound_derefM sound_allocInst : sound.

Lemma sound_updateInst p f : sound R P (updateInst p f).
Proof using R_refl R_trans R_setHeap. unfold updateInst. sound_tac. Qed.
#[local] Hint Resolve sound_updateInst : sound.

Lemma sound_insertAtEnd i p : sound R P (insertAtEnd i p).
Proof using R_refl R_trans R_setHeap. unfold insertAtEnd. sound_tac. Qed.

Lemma sound_insertAtStart i p : sound R P (insertAtStart i p).
Proof using R_refl R_trans R_setHeap. unfold insertAtStart. sound_tac. Qed.

Lemma sound_removeFromParent i : sound R P (removeFromParent i).
Proof using R_refl R_trans R_setHeap. unfold removeFromParent. sound_tac. Qed.
#[local] Hint Resolve sound_insertAtEnd sound_insertAtStart sound_removeFromParent : sound.

Lemma sound_moveToEnd i : sound R P (moveToEnd i).
Proof using R_refl R_trans R_setHeap. unfold moveToEnd. sound_tac. Qed.

Lemma sound_moveToStart i : sound R P (moveToStart i).
Proof using R_refl R_trans R_setHeap. unfold moveToStart. sound_tac. Qed.

Lemma sound_setFullType i t : sound R P (setFullType i t).
Proof using R_refl R_trans R_setHeap. unfold setFullType. sound_tac. Qed.

Lemma sound_initOperand i aa arg : sound R P (initOperand i aa arg).
Proof using R_refl R_trans R_setHeap. unfold initOperand. sound_tac. Qed.

Lemma sound_createInst o t args v : sound R P (createInst o t args v).
Proof using R_setHeap. unfold createInst. sound_tac. Qed.
#[local] Hint Resolve sound_moveToEnd sound_moveToStart sound_setFullType sound_initOperand
  sound_createInst : sound.

Lemma sound_createIntrinsicInst t o n : sound R P (createIntrinsicInst t o n).
Proof using R_setHeap. unfold createIntrinsicInst. sound_tac. Qed.

Lemma sound_addInst b i : sound R P (addInst b i).
Proof using R_refl R_trans R_setHeap. unfold addInst. sound_tac. Qed.

Lemma sound_addGlobalValue b v : sound R P (addGlobalValue b v).
Proof using R_refl R_trans R_setHeap. unfold addGlobalValue. sound_tac. Qed.

Lemma sound_addHoistableInst b i : sound R P (addHoistableInst b i).
Proof using R_refl R_trans R_setHeap. unfold addHoistableInst. sound_tac. Qed.
#[local] Hint Resolve sound_createIntrinsicInst sound_addInst sound_addGlobalValue
  sound_addHoistableInst : sound.

Lemma sound_findOrEmitHoistableInst b t o args v :
  sound R P (findOrEmitHoistableInst b t o args v).
Proof using R_refl R_trans R_setHeap R_setNumbering.
  unfold findOrEmitHoistableInst. sound_tac.
Qed.
#[local] Hint Resolve sound_findOrEmitHoistableInst : sound.

Lemma sound_getType b o args : sound R P (getType b o args).
Proof using R_refl R_trans R_setHeap R_setNumbering. unfold getType. sound_tac. Qed.
#[local] Hint Resolve sound_getType : sound.

Lemma sound_getVoidType b : sound R P (getVoidType b).
Proof using R_refl R_trans R_setHeap R_setNumbering. unfold getVoidType. sound_tac. Qed.

Lemma sound_getBoolType b : sound R P (getBoolType b).
Proof using R_refl R_trans R_setHeap R_setNumbering. unfold getBoolType. sound_tac. Qed.

Lemma sound_getStringType b : sound R P (getStringType b).
Proof using R_refl R_trans R_setHeap R_setNumbering. unfold getStringType. sound_tac. Qed.

Lemma sound_getBasicBlockType b : sound R P (getBasicBlockType b).
Proof using R_refl R_trans R_setHeap R_setNumbering. unfold getBasicBlockType. sound_tac. Qed.

Lemma sound_getPtrType b t : sound R P (getPtrType b t).
Proof using R_refl R_trans R_setHeap R_setNumbering. unfold getPtrType. sound_tac. Qed.

Lemma sound_getRateQualifiedType b r t : sound R P (getRateQualifiedType b r t).
Proof using R_refl R_trans R_setHeap R_setNumbering. unfold getRateQualifiedType. sound_tac. Qed.
#[local] Hint Resolve sound_getVoidType sound_getBoolType sound_getStringType
  sound_getBasicBlockType sound_getPtrType sound_getRateQualifiedType : sound.

Lemma sound_getBoolValue b v : sound R P (getBoolValue b v).
Proof using R_refl R_trans R_setHeap R_setNumbering. unfold getBoolValue. sound_tac. Qed.

Lemma sound_getIntValue b t v : sound R P (getIntValue b t v).
Proof using R_refl R_trans R_setHeap R_setNumbering. unfold getIntValue. sound_tac. Qed.

Lemma sound_getFloatValue b t v : sound R P (getFloatValue b t v).
Proof using R_refl R_trans R_setHeap R_setNumbering. unfold getFloatValue. sound_tac. Qed.

Lemma sound_getStringValue b v : sound R P (getStringValue b v).
Proof using R_refl R_trans R_setHeap R_setNumbering. unfold getStringValue. sound_tac. Qed.

Lemma sound_getPtrValue b v : sound R P (getPtrValue b v).
Proof using R_refl R_trans R_setHeap R_setNumbering. unfold getPtrValue. sound_tac. Qed.

Lemma sound_createGlobal b o t : sound R P (createGlobal b o t).
Proof using R_refl R_trans R_setHeap. unfold createGlobal. sound_tac. Qed.
#[local] Hint Resolve sound_getBoolValue sound_getIntValue sound_getFloatValue
  sound_getStringValue sound_getPtrValue sound_createGlobal : sound.

Lemma sound_createGlobalVar b t : sound R P (createGlobalVar b t).
Proof using R_refl R_trans R_setHeap R_setNumbering. unfold createGlobalVar. sound_tac. Qed.

Lemma sound_emitGeneric b : sound R P (emitGeneric b).
Proof using R_refl R_trans R_setHeap. unfold emitGeneric. sound_tac. Qed.

Lemma sound_createBlock b : sound R P (createBlock b).
Proof using R_refl R_trans R_setHeap R_setNumbering. unfold createBlock. sound_tac. Qed.

Lemma sound_addDecoration b v o args : sound R P (addDecoration b v o args).
Proof using R_refl R_trans R_setHeap R_setNumbering. unfold addDecoration. sound_tac. Qed.
#[local] Hint Resolve sound_createGlobalVar sound_emitGeneric sound_createBlock
  sound_addDecoration : sound.

Lemma sound_addLayoutDecoration b v l : sound R P (addLayoutDecoration b v l).
Proof using R_refl R_trans R_setHeap R_setNumbering. unfold addLayoutDecoration. sound_tac. Qed.

Lemma sound_addKeepAliveDecoration b v : sound R P (addKeepAliveDecoration b v).
Proof using R_refl R_trans R_setHeap R_setNumbering.
  unfold addKeepAliveDecoration. sound_tac.
Qed.

Lemma sound_registerClonedValue c o : sound R P (registerClonedValue c o).
Proof using R_refl R_trans R_setEnvs. unfold registerClonedValue. sound_tac. Qed.
#[local] Hint Resolve sound_addLayoutDecoration sound_addKeepAliveDecoration
  sound_registerClonedValue : sound.

Lemma sound_registerClonedValues c ovs : sound R P (registerClonedValues c ovs).
Proof using R_refl R_trans R_setEnvs. unfold registerClonedValues. sound_tac. Qed.
#[local] Hint Resolve sound_registerClonedValues : sound.

Collection soundness := R_refl R_trans R_setHeap R_setNumbering R_setEnvs R_setBuilder
  P_values P_duplicate P_unhandled.

Lemma sound_createFunc b : sound R P (createFunc b).
Proof using soundness. unfold createFunc. apply sound_createGlobal. Qed.
Lemma sound_createGlobalConstant b t : sound R P (createGlobalConstant b t).
Proof using soundness. unfold createGlobalConstant. apply sound_createGlobal. Qed.
Lemma sound_createGlobalParam b t : sound R P (createGlobalParam b t).
Proof using soundness. unfold createGlobalParam. apply sound_createGlobal. Qed.
Lemma sound_createStructKey b : sound R P (createStructKey b).
Proof using soundness. unfold createStructKey. apply sound_createGlobal. Qed.
Lemma sound_createStructType b : sound R P (createStructType b).
Proof using soundness. unfold createStructType. apply sound_createGlobal. Qed.
Lemma sound_createInterfaceType b : sound R P (createInterfaceType b).
Proof using soundness. unfold createInterfaceType. apply sound_createGlobal. Qed.
Lemma sound_createWitnessTable b : sound R P (createWitnessTable b).
Proof using soundness. unfold createWitnessTable. apply sound_createGlobal. Qed.
Lemma sound_emitGlobalGenericParam b : sound R P (emitGlobalGenericParam b).
Proof using soundness. unfold emitGlobalGenericParam. apply sound_createGlobal. Qed.
Lemma sound_addBlock c b : sound R P (addBlock c b).
Proof using soundness. apply sound_insertAtEnd. Qed.
#[local] Hint Resolve sound_createFunc sound_createGlobalConstant sound_createGlobalParam
  sound_createStructKey sound_createStructType sound_createInterfaceType
  sound_createWitnessTable sound_emitGlobalGenericParam sound_addBlock : sound.

Section ClonerSoundness.

Variable cv : IRInst -> M IRInst.
Variable ci : IRBuilder -> IRInst -> IROriginalValuesForClone -> M IRInst.
Variable n : nat.
Hypothesis Hcv : forall x, sound R P (cv x).
Hypothesis Hci : forall b x o, sound R P (ci b x o).

#[local] Hint Resolve Hcv Hci : sound.

Lemma sound_cloneType t : sound R P (cloneType cv t).
Proof using soundness Hcv. apply Hcv. Qed.
Lemma sound_cloneRate t : sound R P (cloneRate cv t).
Proof using soundness Hcv. apply Hcv. Qed.
#[local] Hint Resolve sound_cloneType sound_cloneRate : sound.

Lemma sound_cloneDecorations c o : sound R P (cloneDecorations ci c o).
Proof using soundness Hci. unfold cloneDecorations. sound_tac. Qed.

Lemma sound_cloneDecorationsAndChildren c o : sound R P (cloneDecorationsAndChildren ci c o).
Proof using soundness Hci. unfold cloneDecorationsAndChildren. sound_tac. Qed.

Lemma sound_maybeSetClonedRate b c o : sound R P (maybeSetClonedRate cv b c o).
Proof using soundness Hcv. unfold maybeSetClonedRate. sound_tac. Qed.

Lemma sound_cloneBlockContents obs : forall cb, sound R P (cloneBlockContents ci obs cb).
Proof using soundness Hci.
  induction obs as [|ob obs IH]; intros cb; simpl; sound_tac.
Qed.
#[local] Hint Resolve sound_cloneDecorations sound_cloneDecorationsAndChildren
  sound_maybeSetClonedRate sound_cloneBlockContents : sound.

Lemma sound_cloneGlobalValueWithCodeCommon c o :
  sound R P (cloneGlobalValueWithCodeCommon ci c o).
Proof using soundness Hci. unfold cloneGlobalValueWithCodeCommon. sound_tac. Qed.
#[local] Hint Resolve sound_cloneGlobalValueWithCodeCommon : sound.

Lemma sound_cloneGlobalVarImpl b o ovs : sound R P (cloneGlobalVarImpl cv ci b o ovs).
Proof using soundness Hcv Hci. unfold cloneGlobalVarImpl. sound_tac. Qed.

Lemma sound_cloneGlobalConstantImpl b o ovs : sound R P (cloneGlobalConstantImpl cv ci b o ovs).
Proof using soundness Hcv Hci. unfold cloneGlobalConstantImpl. sound_tac. Qed.

Lemma sound_cloneSimpleGlobalValueImpl o ovs c r :
  sound R P (cloneSimpleGlobalValueImpl ci o ovs c r).
Proof using soundness Hci. unfold cloneSimpleGlobalValueImpl. sound_tac. Qed.
#[local] Hint Resolve sound_cloneGlobalVarImpl sound_cloneGlobalConstantImpl
  sound_cloneSimpleGlobalValueImpl : sound.

Lemma sound_cloneGlobalParamImpl b o ovs : sound R P (cloneGlobalParamImpl cv ci b o ovs).
Proof using soundness Hcv Hci. unfold cloneGlobalParamImpl. sound_tac. Qed.

Lemma sound_cloneGenericImpl b o ovs : sound R P (cloneGenericImpl ci b o ovs).
Proof using soundness Hci. unfold cloneGenericImpl. sound_tac. Qed.

Lemma sound_cloneStructKeyImpl b o ovs : sound R P (cloneStructKeyImpl ci b o ovs).
Proof using soundness Hci. unfold cloneStructKeyImpl. sound_tac. Qed.

Lemma sound_cloneGlobalGenericParamImpl b o ovs :
  sound R P (cloneGlobalGenericParamImpl ci b o ovs).
Proof using soundness Hci. unfold cloneGlobalGenericParamImpl. sound_tac. Qed.

Lemma sound_cloneWitnessTableImpl b o ovs d r :
  sound R P (cloneWitnessTableImpl ci b o ovs d r).
Proof using soundness Hci. unfold cloneWitnessTableImpl. sound_tac. Qed.

Lemma sound_cloneStructTypeImpl b o ovs : sound R P (cloneStructTypeImpl ci b o ovs).
Proof using soundness Hci. unfold cloneStructTypeImpl. sound_tac. Qed.

Lemma sound_cloneInterfaceTypeImpl b o ovs : sound R P (cloneInterfaceTypeImpl ci b o ovs).
Proof using soundness Hci. unfold cloneInterfaceTypeImpl. sound_tac. Qed.

Lemma sound_checkIRDuplicate i m name : sound R P (checkIRDuplicate i m name).
Proof using soundness. unfold checkIRDuplicate. sound_tac. Qed.
#[local] Hint Resolve sound_cloneGlobalParamImpl sound_cloneGenericImpl
  sound_cloneStructKeyImpl sound_cloneGlobalGenericParamImpl sound_cloneWitnessTableImpl
  sound_cloneStructTypeImpl sound_cloneInterfaceTypeImpl sound_checkIRDuplicate : sound.

Lemma sound_cloneFunctionCommon c o chk : sound R P (cloneFunctionCommon cv ci c o chk).
Proof using soundness Hcv Hci. unfold cloneFunctionCommon. sound_tac. Qed.
#[local] Hint Resolve sound_cloneFunctionCommon : sound.

Lemma sound_cloneFuncImpl b o ovs : sound R P (cloneFuncImpl cv ci b o ovs).
Proof using soundness Hcv Hci. unfold cloneFuncImpl. sound_tac. Qed.
#[local] Hint Resolve sound_cloneFuncImpl : sound.

Lemma sound_cloneInst_body b o ovs : sound R P (cloneInst_body cv ci b o ovs).
Proof using soundness Hcv Hci. unfold cloneInst_body. sound_tac. Qed.

Lemma sound_cloneGlobalValueImpl o ovs : sound R P (cloneGlobalValueImpl ci o ovs).
Proof using soundness Hci. unfold cloneGlobalValueImpl. sound_tac. Qed.
#[local] Hint Resolve sound_cloneGlobalValueImpl : sound.

Lemma sound_cloneGlobalValueWithLinkage o l :
  sound R P (cloneGlobalValueWithLinkage ci n o l).
Proof using soundness Hci. unfold cloneGlobalValueWithLinkage. sound_tac. Qed.
#[local] Hint Resolve sound_cloneGlobalValueWithLinkage : sound.

Lemma sound_cloneGlobalValue o : sound R P (cloneGlobalValue ci n o).
Proof using soundness Hci. unfold cloneGlobalValue. sound_tac. Qed.
#[local] Hint Resolve sound_cloneGlobalValue : sound.

Lemma sound_maybeCloneValue o : sound R P (maybeCloneValue cv ci n o).
Proof using soundness Hcv Hci. unfold maybeCloneValue. sound_tac. Qed.
#[local] Hint Resolve sound_maybeCloneValue : sound.

Lemma sound_cloneValue_body o : sound R P (cloneValue_body cv ci n o).
Proof using soundness Hcv Hci. unfold cloneValue_body. sound_tac. Qed.

End ClonerSoundness.

Lemma sound_clone fuel :
  (forall x, sound R P (cloneValue fuel x)) /\
  (forall b x o, sound R P (cloneInst fuel b x o)).
Proof using soundness.
  induction fuel as [|fuel [IHv IHi]]; (split; [intros x|intros b x o]); simpl.
  - apply sound_raise. discriminate.
  - apply sound_raise. discriminate.
  - apply sound_cloneValue_body; assumption.
  - apply sound_cloneInst_body; assumption.
Qed.

Lemma sound_cloneWitnessTables fuel : sound R P (cloneWitnessTables fuel).
Proof using soundness.
  destruct (sound_clone fuel) as [Hv Hi].
  unfold cloneWitnessTables. sound_tac. apply sound_cloneGlobalValue. exact Hi.
Qed.

End Soundness.

(** ** The symbol table is read-only while cloning *)

Lemma symbols_setHeap s h : symbols (setHeap h s) = symbols s.
Proof. reflexivity. Qed.

Lemma cloning_keeps_symbols fuel :
  (forall x s, symbols (cloneValue fuel x s).2 = symbols s) /\
  (forall b x o s, symbols (cloneInst fuel b x o s).2 = symbols s) /\
  (forall s, symbols (cloneWitnessTables fuel s).2 = symbols s).
Proof.
  assert (Hrefl : forall s : LinkState, symbols s = symbols s) by done.
  assert (Htrans : forall s1 s2 s3 : LinkState,
             symbols s2 = symbols s1 -> symbols s3 = symbols s2 -> symbols s3 = symbols s1)
    by (intros; congruence).
  pose proof (sound_clone (fun s s' => symbols s' = symbols s) (fun _ => True)
                Hrefl Htrans (fun s h => eq_refl) (fun s m => eq_refl) (fun s es => eq_refl)
                (fun s b => eq_refl) I I I fuel) as [Hv Hi].
  pose proof (sound_cloneWitnessTables (fun s s' => symbols s' = symbols s) (fun _ => True)
                Hrefl Htrans (fun s h => eq_refl) (fun s m => eq_refl) (fun s es => eq_refl)
                (fun s b => eq_refl) I I I fuel) as Hw.
  split; [|split].
  - intros x s. apply (Hv x s).
  - intros b x o s. apply (Hi b x o s).
  - intros s. apply (Hw s).
Qed.

Lemma specializeIRForEntryPoint_unresolved fuel name layout layouts s :
  TryGetValue (symbols s) name = None ->
  specializeIRForEntryPoint fuel name layout layouts s =
  (Unexpected "no matching IR symbol", s).
Proof.
  intros H. unfold specializeIRForEntryPoint, bind, gets. rewrite H. reflexivity.
Qed.

Lemma cloneGlobalValueWithLinkage_unresolved ci n s originalVal o linkage l name :
  deref (heap s) originalVal = Val o ->
  parent o <> moduleInst s ->
  findClonedValue (envs s) originalVal = nullptr ->
  linkage <> nullptr ->
  deref (heap s) linkage = Val l ->
  getStringOperand (heap s) l = Val name ->
  TryGetValue (symbols s) name = None ->
  cloneGlobalValueWithLinkage ci n originalVal linkage s =
  (Unexpected "no matching values registered", s).
Proof.
  intros Ho Hp Hc Hl Hd Hn Ht.
  unfold cloneGlobalValueWithLinkage, bind, derefM, inspect, gets.
  rewrite Ho. rewrite bool_decide_eq_false_2 by done.
  rewrite Hc. simpl. rewrite bool_decide_eq_false_2 by done.
  rewrite Hd, Hn, Ht. reflexivity.
Qed.

(** C8. A name without an entry in the symbol table is a fatal error, not
    an empty result: [cloneGlobalValueWithLinkage] throws "no matching
    values registered" for a value that is neither in the module under
    construction nor cloned yet, and [linkIR] for an entry point whose name
    the table lacks never returns a result, throws "no matching IR symbol"
    once the witness tables are cloned, and ends with the symbol table as
    the collecting step built it. *)
Theorem unresolved_symbol_is_fatal fuel (input : LinkInput) (s0 s : LinkState)
    (originalVal linkage : IRInst) (o l : IRInstData) (name : string) :
  deref (heap s) originalVal = Val o ->
  parent o <> moduleInst s ->
  findClonedValue (envs s) originalVal = nullptr ->
  linkage <> nullptr ->
  deref (heap s) linkage = Val l ->
  getStringOperand (heap s) l = Val name ->
  TryGetValue (symbols s) name = None ->
  TryGetValue (symbols (linkIR_collect input s0).2) (entryPointMangledName input) = None ->
  cloneGlobalValueWithLinkage (cloneInst fuel) fuel originalVal linkage s =
    (Unexpected "no matching values registered", s) /\
  (forall r, (linkIR fuel input s0).1 <> Val r) /\
  symbols (linkIR fuel input s0).2 = symbols (linkIR_collect input s0).2 /\
  ((linkIR_collect input s0).1 = Val tt ->
   (cloneWitnessTables fuel (linkIR_collect input s0).2).1 = Val tt ->
   (linkIR fuel input s0).1 = Unexpected "no matching IR symbol").
Proof.
  intros Ho Hp Hc Hl Hd Hn Ht Hentry.
  split; [by eapply cloneGlobalValueWithLinkage_unresolved|].
  destruct (cloning_keeps_symbols fuel) as (_ & _ & Hw).
  assert (Hrun : linkIR fuel input s0 =
    match linkIR_collect input s0 with
    | (Val _, s1) =>
        match cloneWitnessTables fuel s1 with
        | (Val _, s2) => (Unexpected "no matching IR symbol", s2)
        | (Unexpected msg, s2) => (Unexpected msg, s2)
        | (Fault, s2) => (Fault, s2)
        | (OutOfFuel, s2) => (OutOfFuel, s2)
        end
    | (Unexpected msg, s1) => (Unexpected msg, s1)
    | (Fault, s1) => (Fault, s1)
    | (OutOfFuel, s1) => (OutOfFuel, s1)
    end).
  { revert Hentry. unfold linkIR. unfold bind at 1.
    destruct (linkIR_collect input s0) as [[[]|msg| |] s1]; try reflexivity.
    simpl. intros Hentry. unfold bind at 1. specialize (Hw s1).
    destruct (cloneWitnessTables fuel s1) as [[[]|msg| |] s2]; try reflexivity.
    simpl in Hw. unfold bind at 1.
    rewrite specializeIRForEntryPoint_unresolved by (rewrite Hw; exact Hentry).
    reflexivity. }
  rewrite Hrun. clear Hrun Hentry.
  destruct (linkIR_collect input s0) as [[[]|msg| |] s1]; simpl;
    try (split; [discriminate|split; [reflexivity|discriminate]]).
  specialize (Hw s1).
  destruct (cloneWitnessTables fuel s1) as [[[]|msg| |] s2]; simpl in *;
    (split; [discriminate|split; [exact Hw|intros; first [reflexivity|discriminate]]]).
Qed.

(** ** What the cloner can throw *)

Lemma cloner_messages fuel msg :
  (forall x s, (cloneValue fuel x s).1 = Unexpected msg ->
     msg ∈ ["no matching values registered"; "duplicate global instruction"; "unhandled case"]) /\
  (forall b x o s, (cloneInst fuel b x o s).1 = Unexpected msg ->
     msg ∈ ["no matching values registered"; "duplicate global instruction"; "unhandled case"]).
Proof.
  clear specializeGeneric.
  pose proof (sound_clone (fun _ _ => True)
      (fun m => m ∈ ["no matching values registered"; "duplicate global instruction";
                     "unhandled case"])
      (fun _ => I) (fun _ _ _ _ _ => I) (fun _ _ => I) (fun _ _ => I) (fun _ _ => I)
      (fun _ _ => I)) as H.
  destruct (H ltac:(set_solver) ltac:(set_solver) ltac:(set_solver) fuel) as [Hv Hi].
  split.
  - intros x s. apply (Hv x s).
  - intros b x o s. apply (Hi b x o s).
Qed.

(** C7, as the code has it. The cloner keeps no mark of the instructions
    it is in the middle of cloning and never reports a circular
    definition: whatever it throws is one of three other messages. A
    request for an instruction that the environments do not know, whether
    it is mid-clone or not, starts a clone of it. *)
Theorem no_circular_definition_error fuel (x : IRInst) (s : LinkState) :
  x <> nullptr ->
  findClonedValue (envs s) x = nullptr ->
  (cloneValue (S fuel) x s).1 <> Unexpected "circular definition" /\
  (forall b o, (cloneInst fuel b x o s).1 <> Unexpected "circular definition") /\
  cloneValue (S fuel) x s = maybeCloneValue (cloneValue fuel) (cloneInst fuel) fuel x s.
Proof.
  clear specializeGeneric.
  intros Hx Hfind. split; [|split].
  - intros H. apply (proj1 (cloner_messages (S fuel) _)) in H. set_solver.
  - intros b o H. apply (proj2 (cloner_messages fuel _)) in H. set_solver.
  - cbn [cloneValue]. unfold cloneValue_body.
    rewrite bool_decide_eq_false_2 by done.
    unfold bind at 1. unfold gets at 1. rewrite Hfind.
    rewrite bool_decide_eq_true_2 by done. reflexivity.
Qed.

(** A clone of an instruction that is its own type re-enters itself before
    anything is registered, at every budget. *)
Lemma self_typed_runs_out fuel :
  (cloneValue fuel 2 stateSelfTyped).1 = OutOfFuel.
Proof.
  induction fuel as [|fuel IH]; [reflexivity|].
  cbn [cloneValue]. unfold cloneValue_body.
  rewrite bool_decide_eq_false_2 by done.
  unfold bind at 1. unfold gets at 1.
  change (findClonedValue (envs stateSelfTyped) 2) with 0.
  rewrite bool_decide_eq_true_2 by done. cbn [negb].
  unfold maybeCloneValue. unfold bind at 1. unfold derefM, inspect.
  change (deref (heap stateSelfTyped) 2) with (Val (mkInst (kIROp_Other 7) 2 [] 1 [] NoValue 0)).
  cbn [op typeUse]. unfold bind at 1. unfold cloneType.
  destruct (cloneValue fuel 2 stateSelfTyped) as [o s']. simpl in IH. subst o. reflexivity.
Qed.

(** ** More fuel changes nothing *)

Lemma obind_not_OutOfFuel {A B : Type} (o : Outcome A) (k : A -> Outcome B) :
  obind o k <> OutOfFuel -> o <> OutOfFuel /\ forall a, o = Val a -> k a <> OutOfFuel.
Proof. destruct o; simpl; intros H; split; try done; congruence. Qed.

Lemma returnedByGeneric_mono h : forall n n' val,
  n <= n' -> returnedByGeneric n h val <> OutOfFuel ->
  returnedByGeneric n' h val = returnedByGeneric n h val.
Proof.
  induction n as [|n IH]; intros n' val Hle H.
  - simpl in *. destruct (asOp h (isOp kIROp_Generic) val) eqn:E; [done|].
    destruct n'; simpl; by rewrite E.
  - destruct n' as [|n']; [lia|]. simpl in *.
    destruct (asOp h (isOp kIROp_Generic) val); [|done].
    destruct (deref h val) as [g| | |]; simpl in *; try done.
    case_bool_decide; [done|].
    destruct (deref h (getFirstChild h g)) as [b| | |]; simpl in *; try done.
    destruct (asOp h (isOp kIROp_ReturnVal) (getLastChild h b)); [|done].
    destruct (deref h (getLastChild h b)) as [r| | |]; simpl in *; try done.
    destruct (getOperand r 0) as [v| | |]; simpl in *; try done.
    apply IH; [lia|done].
Qed.

Lemma getTargetSpecialiationLevel_mono h n n' val targetName :
  n <= n' -> getTargetSpecialiationLevel n h val targetName <> OutOfFuel ->
  getTargetSpecialiationLevel n' h val targetName = getTargetSpecialiationLevel n h val targetName.
Proof.
  intros Hle H. unfold getTargetSpecialiationLevel in *.
  apply obind_not_OutOfFuel in H as [H _].
  by rewrite (returnedByGeneric_mono h n n' val Hle H).
Qed.

Lemma isBetterForTarget_mono h t n n' newVal oldVal :
  n <= n' -> isBetterForTarget n h t newVal oldVal <> OutOfFuel ->
  isBetterForTarget n' h t newVal oldVal = isBetterForTarget n h t newVal oldVal.
Proof.
  intros Hle H. unfold isBetterForTarget in *.
  destruct (getTargetName t) as [targetName| | |]; simpl in *; try done.
  apply obind_not_OutOfFuel in H as [H1 H].
  rewrite (getTargetSpecialiationLevel_mono h n n' newVal targetName Hle H1).
  destruct (getTargetSpecialiationLevel n h newVal targetName) as [l1| | |]; simpl in *; try done.
  specialize (H l1 eq_refl). apply obind_not_OutOfFuel in H as [H2 H].
  by rewrite (getTargetSpecialiationLevel_mono h n n' oldVal targetName Hle H2).
Qed.

Lemma bestValAmong_mono h t n n' ss : forall bestVal,
  n <= n' -> bestValAmong n h t bestVal ss <> OutOfFuel ->
  bestValAmong n' h t bestVal ss = bestValAmong n h t bestVal ss.
Proof.
  induction ss as [|newVal ss IH]; intros bestVal Hle H; simpl in *; [done|].
  apply obind_not_OutOfFuel in H as [H1 H].
  rewrite (isBetterForTarget_mono h t n n' newVal bestVal Hle H1).
  destruct (isBetterForTarget n h t newVal bestVal) as [b| | |]; simpl in *; try done.
  apply IH; [done|]. by apply H.
Qed.

Lemma selectBestVal_mono h t n n' s :
  n <= n' -> selectBestVal n h t s <> OutOfFuel ->
  selectBestVal n' h t s = selectBestVal n h t s.
Proof. apply bestValAmong_mono. Qed.

Lemma refines_refl {A : Type} (m : M A) : refines m m.
Proof. by intros s _. Qed.

Lemma refines_trans {A : Type} (m1 m2 m3 : M A) :
  refines m1 m2 -> refines m2 m3 -> refines m1 m3.
Proof.
  intros H12 H23 s H. rewrite <- (H12 s H). apply H23. by rewrite (H12 s H).
Qed.

Lemma refines_bind {A B : Type} (m m' : M A) (k k' : A -> M B) :
  refines m m' -> (forall a, refines (k a) (k' a)) -> refines (bind m k) (bind m' k').
Proof.
  intros Hm Hk s H. unfold bind in *.
  assert (Hne : (m s).1 <> OutOfFuel).
  { intros E. destruct (m s) as [[] ?]; simpl in *; done. }
  rewrite (Hm s Hne). destruct (m s) as [[a|msg| |] s1]; try reflexivity.
  apply Hk. exact H.
Qed.

Lemma refines_forEach {A : Type} (l : list A) (body body' : A -> M unit) :
  (forall x, refines (body x) (body' x)) -> refines (forEach l body) (forEach l body').
Proof.
  intros H. induction l as [|x l IH]; simpl.
  - apply refines_refl.
  - apply refines_bind; auto.
Qed.

Lemma refines_inspect {A : Type} (f f' : LinkState -> Outcome A) :
  (forall s, f s <> OutOfFuel -> f' s = f s) -> refines (inspect f) (inspect f').
Proof. intros H s Hne. unfold inspect in *. simpl in Hne. by rewrite (H s Hne). Qed.

Ltac refines_step :=
  first
    [ lazymatch goal with |- refines ?a ?b => constr_eq a b; apply refines_refl end
    | lazymatch goal with
      | |- refines (bind _ _) (bind _ _) => apply refines_bind; [|intros]
      | |- refines (forEach _ _) (forEach _ _) => apply refines_forEach; intros
      | |- refines (match ?x with _ => _ end) (match ?x with _ => _ end) => destruct x
      | |- refines _ _ => solve [eauto with refines]
      end ].

Ltac refines_tac := repeat refines_step.

Section ClonerRefines.

Variables cv cv' : IRInst -> M IRInst.
Variables ci ci' : IRBuilder -> IRInst -> IROriginalValuesForClone -> M IRInst.
Variables n n' : nat.
Hypothesis Hcv : forall x, refines (cv x) (cv' x).
Hypothesis Hci : forall b x o, refines (ci b x o) (ci' b x o).
Hypothesis Hn : n <= n'.

#[local] Hint Resolve Hcv Hci : refines.

Lemma refines_cloneType t : refines (cloneType cv t) (cloneType cv' t).
Proof using Hcv. apply Hcv. Qed.
Lemma refines_cloneRate t : refines (cloneRate cv t) (cloneRate cv' t).
Proof using Hcv. apply Hcv. Qed.
#[local] Hint Resolve refines_cloneType refines_cloneRate : refines.

Lemma refines_cloneDecorations c o :
  refines (cloneDecorations ci c o) (cloneDecorations ci' c o).
Proof using Hci. unfold cloneDecorations. refines_tac. Qed.

Lemma refines_cloneDecorationsAndChildren c o :
  refines (cloneDecorationsAndChildren ci c o) (cloneDecorationsAndChildren ci' c o).
Proof using Hci. unfold cloneDecorationsAndChildren. refines_tac. Qed.

Lemma refines_maybeSetClonedRate b c o :
  refines (maybeSetClonedRate cv b c o) (maybeSetClonedRate cv' b c o).
Proof using Hcv. unfold maybeSetClonedRate. refines_tac. Qed.

Lemma refines_cloneBlockContents obs : forall cb,
  refines (cloneBlockContents ci obs cb) (cloneBlockContents ci' obs cb).
Proof using Hci. induction obs as [|ob obs IH]; intros cb; simpl; refines_tac. Qed.
#[local] Hint Resolve refines_cloneDecorations refines_cloneDecorationsAndChildren
  refines_maybeSetClonedRate refines_cloneBlockContents : refines.

Lemma refines_cloneGlobalValueWithCodeCommon c o :
  refines (cloneGlobalValueWithCodeCommon ci c o) (cloneGlobalValueWithCodeCommon ci' c o).
Proof using Hci. unfold cloneGlobalValueWithCodeCommon. refines_tac. Qed.
#[local] Hint Resolve refines_cloneGlobalValueWithCodeCommon : refines.

Lemma refines_cloneGlobalVarImpl b o ovs :
  refines (cloneGlobalVarImpl cv ci b o ovs) (cloneGlobalVarImpl cv' ci' b o ovs).
Proof using Hcv Hci. unfold cloneGlobalVarImpl. refines_tac. Qed.

Lemma refines_cloneGlobalConstantImpl b o ovs :
  refines (cloneGlobalConstantImpl cv ci b o ovs) (cloneGlobalConstantImpl cv' ci' b o ovs).
Proof using Hcv Hci. unfold cloneGlobalConstantImpl. refines_tac. Qed.

Lemma refines_cloneSimpleGlobalValueImpl o ovs c r :
  refines (cloneSimpleGlobalValueImpl ci o ovs c r) (cloneSimpleGlobalValueImpl ci' o ovs c r).
Proof using Hci. unfold cloneSimpleGlobalValueImpl. refines_tac. Qed.
#[local] Hint Resolve refines_cloneGlobalVarImpl refines_cloneGlobalConstantImpl
  refines_cloneSimpleGlobalValueImpl : refines.

Lemma refines_cloneGlobalParamImpl b o ovs :
  refines (cloneGlobalParamImpl cv ci b o ovs) (cloneGlobalParamImpl cv' ci' b o ovs).
Proof using Hcv Hci. unfold cloneGlobalParamImpl. refines_tac. Qed.

Lemma refines_cloneGenericImpl b o ovs :
  refines (cloneGenericImpl ci b o ovs) (cloneGenericImpl ci' b o ovs).
Proof using Hci. unfold cloneGenericImpl. refines_tac. Qed.

Lemma refines_cloneStructKeyImpl b o ovs :
  refines (cloneStructKeyImpl ci b o ovs) (cloneStructKeyImpl ci' b o ovs).
Proof using Hci. unfold cloneStructKeyImpl. refines_tac. Qed.

Lemma refines_cloneGlobalGenericParamImpl b o ovs :
  refines (cloneGlobalGenericParamImpl ci b o ovs) (cloneGlobalGenericParamImpl ci' b o ovs).
Proof using Hci. unfold cloneGlobalGenericParamImpl. refines_tac. Qed.

Lemma refines_cloneWitnessTableImpl b o ovs d r :
  refines (cloneWitnessTableImpl ci b o ovs d r) (cloneWitnessTableImpl ci' b o ovs d r).
Proof using Hci. unfold cloneWitnessTableImpl. refines_tac. Qed.

Lemma refines_cloneStructTypeImpl b o ovs :
  refines (cloneStructTypeImpl ci b o ovs) (cloneStructTypeImpl ci' b o ovs).
Proof using Hci. unfold cloneStructTypeImpl. refines_tac. Qed.

Lemma refines_cloneInterfaceTypeImpl b o ovs :
  refines (cloneInterfaceTypeImpl ci b o ovs) (cloneInterfaceTypeImpl ci' b o ovs).
Proof using Hci. unfold cloneInterfaceTypeImpl. refines_tac. Qed.
#[local] Hint Resolve refines_cloneGlobalParamImpl refines_cloneGenericImpl
  refines_cloneStructKeyImpl refines_cloneGlobalGenericParamImpl refines_cloneWitnessTableImpl
  refines_cloneStructTypeImpl refines_cloneInterfaceTypeImpl : refines.

Lemma refines_cloneFunctionCommon c o chk :
  refines (cloneFunctionCommon cv ci c o chk) (cloneFunctionCommon cv' ci' c o chk).
Proof using Hcv Hci. unfold cloneFunctionCommon. refines_tac. Qed.
#[local] Hint Resolve refines_cloneFunctionCommon : refines.

Lemma refines_cloneFuncImpl b o ovs :
  refines (cloneFuncImpl cv ci b o ovs) (cloneFuncImpl cv' ci' b o ovs).
Proof using Hcv Hci. unfold cloneFuncImpl. refines_tac. Qed.
#[local] Hint Resolve refines_cloneFuncImpl : refines.

Lemma refines_cloneInst_body b o ovs :
  refines (cloneInst_body cv ci b o ovs) (cloneInst_body cv' ci' b o ovs).
Proof using Hcv Hci. unfold cloneInst_body. refines_tac. Qed.

Lemma refines_cloneGlobalValueImpl o ovs :
  refines (cloneGlobalValueImpl ci o ovs) (cloneGlobalValueImpl ci' o ovs).
Proof using Hci. unfold cloneGlobalValueImpl. refines_tac. Qed.
#[local] Hint Resolve refines_cloneGlobalValueImpl : refines.

Lemma refines_cloneGlobalValueWithLinkage o l :
  refines (cloneGlobalValueWithLinkage ci n o l) (cloneGlobalValueWithLinkage ci' n' o l).
Proof using Hci Hn.
  unfold cloneGlobalValueWithLinkage. refines_tac.
  apply refines_inspect. intros st. by apply selectBestVal_mono.
Qed.
#[local] Hint Resolve refines_cloneGlobalValueWithLinkage : refines.

Lemma refines_cloneGlobalValue o :
  refines (cloneGlobalValue ci n o) (cloneGlobalValue ci' n' o).
Proof using Hci Hn. unfold cloneGlobalValue. refines_tac. Qed.
#[local] Hint Resolve refines_cloneGlobalValue : refines.

Lemma refines_maybeCloneValue o :
  refines (maybeCloneValue cv ci n o) (maybeCloneValue cv' ci' n' o).
Proof using Hcv Hci Hn. unfold maybeCloneValue. refines_tac. Qed.
#[local] Hint Resolve refines_maybeCloneValue : refines.

Lemma refines_cloneValue_body o :
  refines (cloneValue_body cv ci n o) (cloneValue_body cv' ci' n' o).
Proof using Hcv Hci Hn. unfold cloneValue_body. refines_tac. Qed.

End ClonerRefines.

Lemma clone_refines_succ n :
  (forall x, refines (cloneValue n x) (cloneValue (S n) x)) /\
  (forall b x o, refines (cloneInst n b x o) (cloneInst (S n) b x o)).
Proof.
  induction n as [|n [IHv IHi]].
  - split; intros; intros s H; simpl in H; done.
  - split.
    + intros x. cbn [cloneValue]. apply refines_cloneValue_body; auto.
    + intros b x o. cbn [cloneInst]. apply refines_cloneInst_body; auto.
Qed.

Lemma clone_refines n n' :
  n <= n' ->
  (forall x, refines (cloneValue n x) (cloneValue n' x)) /\
  (forall b x o, refines (cloneInst n b x o) (cloneInst n' b x o)).
Proof.
  induction 1 as [|n' Hle [IHv IHi]].
  - split; intros; apply refines_refl.
  - destruct (clone_refines_succ n') as [Hv Hi]. split; intros.
    + eapply refines_trans; [apply IHv|apply Hv].
    + eapply refines_trans; [apply IHi|apply Hi].
Qed.

Lemma linkIR_refines n n' input :
  n <= n' -> refines (linkIR n input) (linkIR n' input).
Proof.
  intros Hle. destruct (clone_refines n n' Hle) as [Hv Hi].
  pose proof (refines_cloneGlobalValue _ _ n n' Hi Hle) as Hg.
  unfold linkIR. apply refines_bind; [apply refines_refl|intros _].
  apply refines_bind.
  { unfold cloneWitnessTables. refines_tac. apply Hg. }
  intros _. apply refines_bind.
  { unfold specializeIRForEntryPoint. refines_tac; first [apply Hg|apply Hi]. }
  intros irEntryPoint. apply refines_bind; [|intros; apply refines_refl].
  unfold linkIR_finish. refines_tac; apply Hv.
Qed.


(** ** One definition per name *)

Lemma findClonedValue_insert e es k c k' :
  findClonedValue (<[k := c]> e :: es) k' =
  if decide (k = k') then c else findClonedValue (e :: es) k'.
Proof.
  simpl. destruct (decide (k = k')) as [->|Hne].
  - by rewrite lookup_insert_eq.
  - by rewrite lookup_insert_ne.
Qed.

Lemma registerClonedValue_run c v e es s :
  envs s = e :: es -> v <> nullptr ->
  registerClonedValue c v s = (Val tt, setEnvs (<[v := c]> e :: es) s).
Proof.
  intros He Hv. unfold registerClonedValue.
  rewrite bool_decide_eq_false_2 by done.
  unfold bind, gets, modify. by rewrite He.
Qed.

Lemma registerClonedValue_null c s : registerClonedValue c nullptr s = (Val tt, s).
Proof. reflexivity. Qed.

(** Registering [c] for a list of values leaves each of them bound to [c]. *)
Lemma forEach_register c (l : list nat) : forall e es s,
  envs s = e :: es ->
  exists e', forEach l (registerClonedValue c) s = (Val tt, setEnvs (e' :: es) s) /\
    (forall v, v ∈ l -> v <> nullptr -> e' !! v = Some c) /\
    (forall v, e !! v = Some c -> e' !! v = Some c).
Proof.
  induction l as [|x l IH]; intros e es s He.
  - exists e. simpl. unfold ret. split.
    + destruct s; simpl in *; by subst.
    + split; [|auto]. intros v Hv. by apply elem_of_nil in Hv.
  - simpl. unfold bind at 1.
    destruct (decide (x = nullptr)) as [->|Hx].
    + rewrite registerClonedValue_null.
      destruct (IH e es s He) as (e' & Hrun & Hin & Hkeep).
      exists e'. split; [exact Hrun|]. split; [|exact Hkeep].
      intros v Hv Hne. apply elem_of_cons in Hv as [->|Hv]; [done|auto].
    + rewrite (registerClonedValue_run c x e es s He Hx).
      destruct (IH (<[x := c]> e) es (setEnvs (<[x := c]> e :: es) s) eq_refl)
        as (e' & Hrun & Hin & Hkeep).
      exists e'. split; [exact Hrun|]. split.
      * intros v Hv Hne. apply elem_of_cons in Hv as [->|Hv]; [|auto].
        apply Hkeep. apply lookup_insert_eq.
      * intros v Hv. apply Hkeep.
        destruct (decide (x = v)) as [->|Hxv]; [apply lookup_insert_eq|].
        by rewrite lookup_insert_ne.
Qed.

Lemma registerClonedValues_symbol c sy e es s :
  envs s = e :: es ->
  exists e', registerClonedValues c (fromSymbol sy) s = (Val tt, setEnvs (e' :: es) s) /\
    forall v, v ∈ symbolValues sy -> v <> nullptr ->
      findClonedValue (e' :: es) v = c.
Proof.
  intros He. unfold registerClonedValues. simpl.
  unfold bind at 1. rewrite registerClonedValue_null.
  destruct (forEach_register c (symbolValues sy) e es s He) as (e' & Hrun & Hin & _).
  exists e'. split; [exact Hrun|].
  intros v Hv Hne. simpl. by rewrite (Hin v Hv Hne).
Qed.

Lemma cloneGlobalValue_reuses ci n s v o c :
  deref (heap s) v = Val o ->
  parent o <> moduleInst s ->
  findClonedValue (envs s) v = c ->
  c <> nullptr ->
  cloneGlobalValue ci n v s = (Val c, s).
Proof.
  intros Ho Hp Hfind Hc.
  unfold cloneGlobalValue, bind, inspect, findDecoration. rewrite Ho. simpl.
  unfold cloneGlobalValueWithLinkage, bind, derefM, inspect, gets. rewrite Ho.
  rewrite bool_decide_eq_false_2 by done. rewrite Hfind.
  by rewrite bool_decide_eq_false_2.
Qed.

Lemma cloneGlobalValue_passes_through ci n s v o :
  deref (heap s) v = Val o ->
  parent o = moduleInst s ->
  cloneGlobalValue ci n v s = (Val v, s).
Proof.
  intros Ho Hp.
  unfold cloneGlobalValue, bind, inspect, findDecoration. rewrite Ho. simpl.
  unfold cloneGlobalValueWithLinkage, bind, derefM, inspect, gets. rewrite Ho.
  by rewrite bool_decide_eq_true_2.
Qed.

(** The scan of the debug check returns only if no other child of the
    module carries the name. *)
Lemma checkIRDuplicate_scan i name (l : list nat) : forall s s',
  forEach l (fun child =>
      if bool_decide (child = i) then ret tt else
      let* childLinkage := inspect (fun s => linkageName (heap s) child) in
      match childLinkage with
      | Some name' =>
          if bool_decide (name = name')
          then SLANG_UNEXPECTED "duplicate global instruction"
          else ret tt
      | None => ret tt
      end) s = (Val tt, s') ->
  s' = s /\
  forall child, child ∈ l -> child <> i -> linkageName (heap s) child <> Val (Some name).
Proof.
  induction l as [|x l IH]; intros s s' H.
  - simpl in H. inversion H. split; [done|]. intros child Hc. by apply elem_of_nil in Hc.
  - simpl in H. unfold bind at 1 in H.
    case_bool_decide as Hx.
    + simpl in H. destruct (IH s s' H) as [-> Hl]. split; [done|].
      intros child Hc Hne. apply elem_of_cons in Hc as [->|Hc]; [done|auto].
    + unfold bind at 1 in H. unfold inspect at 1 in H.
      destruct (linkageName (heap s) x) as [[name'|]| | |] eqn:Hname; simpl in H;
        try discriminate.
      * case_bool_decide as Hn; simpl in H; [discriminate|].
        destruct (IH s s' H) as [-> Hl]. split; [done|].
        intros child Hc Hne. apply elem_of_cons in Hc as [->|Hc]; [|auto].
        rewrite Hname. congruence.
      * destruct (IH s s' H) as [-> Hl]. split; [done|].
        intros child Hc Hne. apply elem_of_cons in Hc as [->|Hc]; [|auto].
        rewrite Hname. congruence.
Qed.


(** ** Cloning writes behind the source arena only *)

Section Separation.

Variable h0 : Heap.
Hypothesis h0_closed : closedSource h0.

Notation n0 := (length h0).
Notation fresh := (fun p : nat => n0 < p).
Notation anything := (fun _ => True).

Lemma fresh0_null : fresh0 n0 nullptr.
Proof using Type. by left. Qed.

Lemma fresh0_fresh p : n0 < p -> fresh0 n0 p.
Proof using Type. by right. Qed.

Lemma fresh0_deref p (h : Heap) d : fresh0 n0 p -> deref h p = Val d -> n0 < p.
Proof using Type. intros [->|H] Hd; [done|exact H]. Qed.

Lemma Ext_refl s : Ext s s.
Proof using Type. done. Qed.

Lemma Ext_trans s1 s2 s3 : Ext s1 s2 -> Ext s2 s3 -> Ext s1 s3.
Proof using Type.
  intros (H1 & H2 & H3) (H1' & H2' & H3'). split; [congruence|]. split; [congruence|auto].
Qed.

Lemma spec_ret {A : Type} (a : A) (Q : A -> Prop) : Q a -> spec h0 (ret a) Q.
Proof using Type.
  intros HQ s Hs. simpl. split; [done|]. split; [apply Ext_refl|]. by intros ? [= <-].
Qed.

Lemma spec_bind {A B : Type} (m : M A) (k : A -> M B) (Q1 : A -> Prop) (Q : B -> Prop) :
  spec h0 m Q1 -> (forall a, Q1 a -> spec h0 (k a) Q) -> spec h0 (bind m k) Q.
Proof using Type.
  intros Hm Hk s Hs. unfold bind.
  destruct (Hm s Hs) as (HI & HE & HQ).
  destruct (m s) as [[a|msg| |] s1]; simpl in *;
    [|split; [exact HI|split; [exact HE|discriminate]]..].
  destruct (Hk a (HQ a eq_refl) s1 HI) as (HI' & HE' & HQ').
  split; [exact HI'|]. split; [by eapply Ext_trans|exact HQ'].
Qed.

Lemma spec_weaken {A : Type} (m : M A) (Q Q' : A -> Prop) :
  spec h0 m Q -> (forall a, Q a -> Q' a) -> spec h0 m Q'.
Proof using Type.
  intros Hm HQ s Hs. destruct (Hm s Hs) as (HI & HE & Ha). auto.
Qed.

Lemma spec_gets {A : Type} (f : LinkState -> A) (Q : A -> Prop) :
  (forall s, Inv h0 s -> Q (f s)) -> spec h0 (gets f) Q.
Proof using Type.
  intros H s Hs. simpl. split; [done|]. split; [apply Ext_refl|].
  intros a [= <-]. auto.
Qed.

Lemma spec_inspect {A : Type} (f : LinkState -> Outcome A) (Q : A -> Prop) :
  (forall s a, Inv h0 s -> f s = Val a -> Q a) -> spec h0 (inspect f) Q.
Proof using Type.
  intros H s Hs. simpl. split; [done|]. split; [apply Ext_refl|]. eauto.
Qed.

Lemma spec_raise {A : Type} (o : Outcome A) (Q : A -> Prop) :
  (forall a, o = Val a -> Q a) -> spec h0 (raise o) Q.
Proof using Type.
  intros H s Hs. simpl. split; [done|]. split; [apply Ext_refl|]. exact H.
Qed.

Lemma spec_forEach {A : Type} (l : list A) (body : A -> M unit) :
  (forall x, spec h0 (body x) anything) -> spec h0 (forEach l body) anything.
Proof using Type.
  intros H. induction l as [|x l IH]; simpl.
  - by apply spec_ret.
  - eapply spec_bind; [apply H|]. intros _ _. exact IH.
Qed.

Lemma spec_SLANG_ASSERT b : spec h0 (SLANG_ASSERT b) anything.
Proof using Type. destruct b; simpl; [by apply spec_ret|]. by apply spec_raise. Qed.

(** *** Reading the arena *)

Lemma deref_source (l : Heap) p d :
  p <= n0 -> deref (h0 ++ l) p = Val d -> d ∈ h0.
Proof using Type.
  intros Hp Hd. destruct p as [|i]; unfold deref in Hd; [done|].
  rewrite lookup_app_l in Hd by lia.
  destruct (h0 !! i) eqn:E; [|done]. inversion Hd; subst.
  by apply list_elem_of_lookup_2 in E.
Qed.

Lemma Inv_deref s p d : Inv h0 s -> deref (heap s) p = Val d -> derefs h0 p d.
Proof using Type.
  intros Hs Hd. split; [|split].
  - by intros ->.
  - intros Hp. apply (inv_dest h0 s Hs p d); [|done]. by eapply fresh0_deref.
  - intros Hp. destruct (inv_prefix h0 s Hs) as [l Hl]. rewrite Hl in Hd.
    by eapply deref_source.
Qed.

Lemma spec_derefM p : spec h0 (derefM p) (derefs h0 p).
Proof using Type.
  apply spec_inspect. intros s d Hs Hd. by eapply Inv_deref.
Qed.

Lemma source_parent d p : derefs h0 p d -> n0 < parent d -> n0 < p.
Proof using h0_closed.
  intros (_ & _ & Hsrc) Hpar. destruct (decide (p <= n0)) as [Hle|Hgt]; [|lia].
  destruct (h0_closed d (Hsrc Hle)) as (Hp & _). lia.
Qed.

(** *** Writing the arena *)

Lemma deref_insert_eq (h : Heap) p d x :
  deref h p = Val d -> deref (<[pred p := x]> h) p = Val x.
Proof using Type.
  destruct p as [|i]; unfold deref; [done|]. simpl.
  destruct (h !! i) eqn:E; [|done]. intros _.
  rewrite list_lookup_insert_eq; [done|]. by eapply lookup_lt_Some.
Qed.

Lemma deref_insert_ne (h : Heap) p q x :
  p <> q -> p <> nullptr -> deref (<[pred p := x]> h) q = deref h q.
Proof using Type.
  intros Hne Hp. destruct q as [|j]; unfold deref; [done|].
  destruct p as [|i]; [done|]. simpl.
  rewrite list_lookup_insert_ne by lia. done.
Qed.

Lemma Inv_update s p d x :
  Inv h0 s -> n0 < p -> deref (heap s) p = Val d -> closedData n0 x ->
  Inv h0 (setHeap (<[pred p := x]> (heap s)) s).
Proof using Type.
  intros Hs Hp Hd Hx. destruct Hs as [[l Hl] Hdest Henv Hnum Hmod Hb Hbs].
  split; simpl; try done.
  - exists (<[pred p - n0 := x]> l). rewrite Hl.
    rewrite insert_app_r_alt by lia. done.
  - intros q d' Hq Hd'. destruct (decide (p = q)) as [<-|Hne].
    + rewrite (deref_insert_eq _ _ _ _ Hd) in Hd'. by inversion Hd'; subst.
    + rewrite deref_insert_ne in Hd' by (done || lia). eauto.
Qed.

Lemma Ext_setHeap s h : Ext s (setHeap h s).
Proof using Type. done. Qed.

Lemma spec_updateInst p f :
  fresh0 n0 p -> (forall d, closedData n0 d -> closedData n0 (f d)) ->
  spec h0 (updateInst p f) anything.
Proof using Type.
  intros Hp Hf s Hs. unfold updateInst, bind, derefM, inspect, modify.
  destruct (deref (heap s) p) as [d| | |] eqn:Hd; simpl;
    try (split; [done|split; [apply Ext_refl|done]]).
  pose proof (fresh0_deref _ _ _ Hp Hd) as Hfresh.
  split; [|split; [apply Ext_setHeap|done]].
  eapply Inv_update; eauto. apply Hf. by apply (inv_dest h0 s Hs p d).
Qed.

Lemma deref_app_new (h : Heap) d : deref (h ++ [d]) (S (length h)) = Val d.
Proof using Type.
  unfold deref. rewrite lookup_app_r by lia. by rewrite Nat.sub_diag.
Qed.

Lemma deref_app_old (h : Heap) d q x :
  deref (h ++ [d]) q = Val x -> q <> S (length h) -> deref h q = Val x.
Proof using Type.
  destruct q as [|j]; unfold deref; [done|]. intros H Hne.
  destruct (decide (j < length h)) as [Hlt|Hge].
  - by rewrite lookup_app_l in H by lia.
  - rewrite lookup_app_r in H by lia.
    destruct (j - length h) as [|k] eqn:E; [lia|]. by destruct k.
Qed.

Lemma spec_allocInst d : closedData n0 d -> spec h0 (allocInst d) fresh.
Proof using Type.
  intros Hd s Hs. unfold allocInst. simpl.
  destruct Hs as [[l Hl] Hdest Henv Hnum Hmod Hb Hbs].
  split; [|split; [done|]].
  - split; simpl; try done.
    + exists (l ++ [d]). rewrite Hl. by rewrite app_assoc.
    + intros q x Hq Hx. destruct (decide (q = S (length (heap s)))) as [->|Hne].
      * rewrite deref_app_new in Hx. by inversion Hx; subst.
      * apply deref_app_old in Hx; eauto.
  - intros a [= <-]. rewrite Hl, length_app. lia.
Qed.

(** *** Facts about pointers *)

Lemma closedData_parent d : closedData n0 d -> fresh0 n0 (parent d).
Proof using Type. by intros (? & ? & ? & ?). Qed.

Lemma closedData_typeUse d : closedData n0 d -> fresh0 n0 (typeUse d).
Proof using Type. by intros (? & ? & ? & ?). Qed.

Lemma closedData_operands d : closedData n0 d -> Forall (fresh0 n0) (operands d).
Proof using Type. by intros (? & ? & ? & ?). Qed.

Lemma closedData_children d : closedData n0 d -> Forall (fresh0 n0) (decorationsAndChildren d).
Proof using Type. by intros (? & ? & ? & ?). Qed.

Lemma derefs_closed p d : derefs h0 p d -> fresh0 n0 p -> closedData n0 d.
Proof using Type. intros (_ & H & _) Hp. auto. Qed.

Lemma closedData_withParent p d :
  fresh0 n0 p -> closedData n0 d -> closedData n0 (withParent p d).
Proof using Type. intros Hp (? & ? & ? & ?). by repeat split. Qed.

Lemma closedData_withChildren l d :
  Forall (fresh0 n0) l -> closedData n0 d -> closedData n0 (withChildren l d).
Proof using Type. intros Hp (? & ? & ? & ?). by repeat split. Qed.

Lemma closedData_withType t d :
  fresh0 n0 t -> closedData n0 d -> closedData n0 (withType t d).
Proof using Type. intros Hp (? & ? & ? & ?). by repeat split. Qed.

Lemma closedData_withOperands l d :
  Forall (fresh0 n0) l -> closedData n0 d -> closedData n0 (withOperands l d).
Proof using Type. intros Hp (? & ? & ? & ?). by repeat split. Qed.

Lemma closedData_withSourceLoc loc d :
  closedData n0 d -> closedData n0 (withSourceLoc loc d).
Proof using Type. intros (? & ? & ? & ?). by repeat split. Qed.

Lemma closedData_mkInst o t args v :
  fresh0 n0 t -> Forall (fresh0 n0) args -> closedData n0 (mkInst o t args nullptr [] v 0).
Proof using Type. intros Ht Ha. repeat split; simpl; auto using fresh0_null. Qed.

Lemma Forall_fresh0_app l x :
  Forall (fresh0 n0) l -> fresh0 n0 x -> Forall (fresh0 n0) (l ++ [x]).
Proof using Type. intros Hl Hx. apply Forall_app. auto. Qed.

Lemma Forall_fresh0_filter (Pf : nat -> Prop) `{!forall x, Decision (Pf x)} l :
  Forall (fresh0 n0) l -> Forall (fresh0 n0) (filter Pf l).
Proof using Type.
  intros Hl. apply Forall_forall. intros x Hx.
  apply list_elem_of_filter in Hx as [_ Hx]. by eapply Forall_forall in Hl.
Qed.

Lemma Forall_fresh0_insert l i x :
  Forall (fresh0 n0) l -> fresh0 n0 x -> Forall (fresh0 n0) (<[i := x]> l).
Proof using Type. intros Hl Hx. by apply Forall_insert. Qed.

Lemma Forall_fresh0_replicate k : Forall (fresh0 n0) (replicate k nullptr).
Proof using Type. apply Forall_replicate. apply fresh0_null. Qed.

Lemma fresh0_setInsertInto p : fresh0 n0 p -> fresh0 n0 (insertIntoParent (setInsertInto p)).
Proof using Type. done. Qed.

#[local] Hint Resolve fresh0_null fresh0_fresh closedData_parent closedData_typeUse
  closedData_operands closedData_children derefs_closed closedData_withParent
  closedData_withChildren closedData_withType closedData_withOperands
  closedData_withSourceLoc closedData_mkInst Forall_fresh0_app Forall_fresh0_filter
  Forall_fresh0_insert Forall_fresh0_replicate fresh0_setInsertInto Forall_nil_2
  Forall_cons_2 : sep.

Ltac sep_facts := simpl; intros; eauto 6 with sep.

Ltac spec_known := solve [ eauto with spec | eauto 6 with spec sep ].

Ltac spec_step :=
  lazymatch goal with
  | |- spec _ (ret _) _ => apply spec_ret; sep_facts
  | |- spec _ (bind _ _) _ =>
      first [ eapply spec_bind; [ spec_known | cbv beta; intros ? ? ]
            | eapply spec_bind with (Q1 := anything); [ | cbv beta; intros ? _ ] ]
  | |- spec _ (forEach _ _) _ => apply spec_forEach; intros
  | |- spec _ (SLANG_ASSERT _) _ => apply spec_SLANG_ASSERT
  | |- spec _ (SLANG_UNEXPECTED _) _ => apply spec_raise; discriminate
  | |- spec _ (raise _) _ => apply spec_raise; first [ discriminate | sep_facts ]
  | |- spec _ (gets _) _ => apply spec_gets; sep_facts
  | |- spec _ (inspect _) _ => apply spec_inspect; sep_facts
  | |- spec _ (match ?x with _ => _ end) _ => destruct x eqn:?
  | |- spec _ _ _ =>
      first [ spec_known | eapply spec_weaken; [ spec_known | sep_facts ] ]
  end.

Ltac spec_tac := repeat spec_step.

#[local] Hint Resolve spec_derefM spec_allocInst : spec.

Lemma spec_insertAtEnd i p :
  fresh0 n0 i -> fresh0 n0 p -> spec h0 (insertAtEnd i p) anything.
Proof using Type.
  intros Hi Hp. unfold insertAtEnd. spec_tac; apply spec_updateInst; sep_facts.
Qed.

Lemma spec_insertAtStart i p :
  fresh0 n0 i -> fresh0 n0 p -> spec h0 (insertAtStart i p) anything.
Proof using Type.
  intros Hi Hp. unfold insertAtStart. spec_tac; apply spec_updateInst; sep_facts.
Qed.

Lemma spec_removeFromParent i : fresh0 n0 i -> spec h0 (removeFromParent i) anything.
Proof using Type.
  intros Hi. unfold removeFromParent. spec_tac; apply spec_updateInst; sep_facts.
Qed.
#[local] Hint Resolve spec_insertAtEnd spec_insertAtStart spec_removeFromParent : spec.

Lemma spec_moveToEnd i : fresh0 n0 i -> spec h0 (moveToEnd i) anything.
Proof using Type. intros Hi. unfold moveToEnd. spec_tac. Qed.

Lemma spec_moveToStart i : fresh0 n0 i -> spec h0 (moveToStart i) anything.
Proof using Type. intros Hi. unfold moveToStart. spec_tac. Qed.

Lemma spec_setFullType i t : fresh0 n0 i -> fresh0 n0 t -> spec h0 (setFullType i t) anything.
Proof using Type. intros Hi Ht. unfold setFullType. apply spec_updateInst; sep_facts. Qed.

Lemma spec_initOperand i aa arg :
  fresh0 n0 i -> fresh0 n0 arg -> spec h0 (initOperand i aa arg) anything.
Proof using Type. intros Hi Ha. unfold initOperand. apply spec_updateInst; sep_facts. Qed.

Lemma spec_setSourceLoc i loc :
  fresh0 n0 i -> spec h0 (updateInst i (withSourceLoc loc)) anything.
Proof using Type. intros Hi. apply spec_updateInst; sep_facts. Qed.

Lemma spec_createInst o t args v :
  fresh0 n0 t -> Forall (fresh0 n0) args -> spec h0 (createInst o t args v) fresh.
Proof using Type. intros Ht Ha. unfold createInst. apply spec_allocInst. sep_facts. Qed.
#[local] Hint Resolve spec_moveToEnd spec_moveToStart spec_setFullType spec_initOperand
  spec_setSourceLoc spec_createInst : spec.

Lemma spec_createIntrinsicInst t o k :
  fresh0 n0 t -> spec h0 (createIntrinsicInst t o k) fresh.
Proof using Type. intros Ht. unfold createIntrinsicInst. spec_tac. Qed.

Lemma spec_addInst b i :
  fresh0 n0 (insertIntoParent b) -> fresh0 n0 i -> spec h0 (addInst b i) anything.
Proof using Type. intros Hb Hi. unfold addInst. spec_tac. Qed.
#[local] Hint Resolve spec_createIntrinsicInst spec_addInst : spec.

Lemma spec_moduleInst : spec h0 (gets moduleInst) fresh.
Proof using Type. apply spec_gets. intros s Hs. apply (inv_module h0 s Hs). Qed.

Lemma spec_builder : spec h0 (gets builder) (fun b => fresh0 n0 (insertIntoParent b)).
Proof using Type. apply spec_gets. intros s Hs. apply (inv_builder h0 s Hs). Qed.

Lemma spec_builderStorage :
  spec h0 (gets builderStorage) (fun b => fresh0 n0 (insertIntoParent b)).
Proof using Type. apply spec_gets. intros s Hs. apply (inv_builderStorage h0 s Hs). Qed.
#[local] Hint Resolve spec_moduleInst spec_builder spec_builderStorage : spec.

Lemma parentOf_fresh0 s p : Inv h0 s -> fresh0 n0 p -> fresh0 n0 (parentOf (heap s) p).
Proof using Type.
  intros Hs Hp. unfold parentOf. destruct (deref (heap s) p) as [d| | |] eqn:Hd; sep_facts.
  apply closedData_parent. apply (inv_dest h0 s Hs p d); [|done]. by eapply fresh0_deref.
Qed.

Lemma findGlobalValueParent_fresh0 s steps : forall p,
  Inv h0 s -> fresh0 n0 p -> fresh0 n0 (findGlobalValueParent steps (heap s) p).
Proof using Type.
  induction steps as [|steps IH]; intros p Hs Hp; simpl; [apply fresh0_null|].
  case_bool_decide; [apply fresh0_null|].
  destruct (asOp (heap s) (isOp kIROp_Module) p); [done|].
  destruct (asOp (heap s) (isOp kIROp_Block) p &&
            asOp (heap s) (isOp kIROp_Generic) (parentOf (heap s) p)); [done|].
  apply IH; [done|]. by apply parentOf_fresh0.
Qed.

Lemma spec_addGlobalValue b v :
  fresh0 n0 (insertIntoParent b) -> fresh0 n0 v -> spec h0 (addGlobalValue b v) anything.
Proof using Type.
  intros Hb Hv. unfold addGlobalValue.
  eapply spec_bind with (Q1 := (fresh0 n0)).
  { apply spec_gets. intros s Hs. by apply findGlobalValueParent_fresh0. }
  intros found Hfound. spec_tac. apply spec_insertAtEnd; [done|].
  case_bool_decide; sep_facts.
Qed.

Lemma mergeCandidateParents_fresh0 (h : Heap) l r :
  fresh0 n0 l -> fresh0 n0 r -> fresh0 n0 (mergeCandidateParentsForHoistableInst h l r).
Proof using Type.
  intros Hl Hr. unfold mergeCandidateParentsForHoistableInst.
  repeat case_bool_decide; try done. by destruct (isAncestor _ _ _ _).
Qed.

Lemma hoistableParent_fresh0 s ops : forall p,
  Inv h0 s -> fresh0 n0 p -> Forall (fresh0 n0) ops ->
  fresh0 n0 (foldl (fun p operand =>
      if bool_decide (operand = nullptr) then p
      else mergeCandidateParentsForHoistableInst (heap s) p (parentOf (heap s) operand))
    p ops).
Proof using Type.
  induction ops as [|x ops IH]; intros p Hs Hp Hops; simpl; [done|].
  inversion Hops; subst. apply IH; [done| |done].
  case_bool_decide; [done|].
  apply mergeCandidateParents_fresh0; [done|]. by apply parentOf_fresh0.
Qed.

Lemma spec_addHoistableInst b i : fresh0 n0 i -> spec h0 (addHoistableInst b i) anything.
Proof using Type.
  intros Hi. unfold addHoistableInst.
  eapply spec_bind; [apply spec_derefM|]. intros d Hd.
  eapply spec_bind; [apply spec_moduleInst|]. intros m Hm.
  eapply spec_bind with (Q1 := (fresh0 n0)).
  { apply spec_gets. intros s Hs. apply hoistableParent_fresh0; sep_facts. }
  intros chosen Hchosen. spec_tac.
Qed.
#[local] Hint Resolve spec_addGlobalValue spec_addHoistableInst : spec.

Lemma Inv_setNumbering s k v :
  Inv h0 s -> n0 < v -> Inv h0 (setNumbering ((k, v) :: globalValueNumberingMap s) s).
Proof using Type.
  intros [Hpre Hdest Henv Hnum Hmod Hb Hbs] Hv. split; simpl; try done.
  intros k' v' H. case_bool_decide; [by inversion H; subst|eauto].
Qed.

Lemma spec_findOrEmitHoistableInst b t o args v :
  fresh0 n0 t -> Forall (fresh0 n0) args ->
  spec h0 (findOrEmitHoistableInst b t o args v) fresh.
Proof using Type.
  intros Ht Ha. unfold findOrEmitHoistableInst.
  eapply spec_bind with (Q1 := (fun known => forall i, known = Some i -> n0 < i)).
  { apply spec_gets. intros s Hs i Hi. by eapply (inv_numbering h0 s Hs). }
  intros [i|] Hknown; [apply spec_ret; auto|].
  eapply spec_bind; [apply spec_createInst; auto|]. intros inst Hinst.
  eapply spec_bind with (Q1 := anything).
  { intros s Hs. simpl. split; [by apply Inv_setNumbering|]. done. }
  intros _ _. spec_tac.
Qed.
#[local] Hint Resolve spec_findOrEmitHoistableInst : spec.

Lemma spec_getType b o args : Forall (fresh0 n0) args -> spec h0 (getType b o args) fresh.
Proof using Type. intros Ha. unfold getType. spec_tac. Qed.
#[local] Hint Resolve spec_getType : spec.

Lemma spec_getVoidType b : spec h0 (getVoidType b) fresh.
Proof using Type. unfold getVoidType. spec_tac. Qed.
Lemma spec_getBoolType b : spec h0 (getBoolType b) fresh.
Proof using Type. unfold getBoolType. spec_tac. Qed.
Lemma spec_getStringType b : spec h0 (getStringType b) fresh.
Proof using Type. unfold getStringType. spec_tac. Qed.
Lemma spec_getBasicBlockType b : spec h0 (getBasicBlockType b) fresh.
Proof using Type. unfold getBasicBlockType. spec_tac. Qed.
Lemma spec_getPtrType b t : fresh0 n0 t -> spec h0 (getPtrType b t) fresh.
Proof using Type. intros Ht. unfold getPtrType. spec_tac. Qed.
Lemma spec_getRateQualifiedType b r t :
  fresh0 n0 r -> fresh0 n0 t -> spec h0 (getRateQualifiedType b r t) fresh.
Proof using Type. intros Hr Ht. unfold getRateQualifiedType. spec_tac. Qed.
#[local] Hint Resolve spec_getVoidType spec_getBoolType spec_getStringType
  spec_getBasicBlockType spec_getPtrType spec_getRateQualifiedType : spec.

Lemma spec_getBoolValue b v : spec h0 (getBoolValue b v) fresh.
Proof using Type. unfold getBoolValue. spec_tac. Qed.
Lemma spec_getIntValue b t v : fresh0 n0 t -> spec h0 (getIntValue b t v) fresh.
Proof using Type. intros Ht. unfold getIntValue. spec_tac. Qed.
Lemma spec_getFloatValue b t v : fresh0 n0 t -> spec h0 (getFloatValue b t v) fresh.
Proof using Type. intros Ht. unfold getFloatValue. spec_tac. Qed.
Lemma spec_getStringValue b v : spec h0 (getStringValue b v) fresh.
Proof using Type. unfold getStringValue. spec_tac. Qed.
Lemma spec_getPtrValue b v : spec h0 (getPtrValue b v) fresh.
Proof using Type. unfold getPtrValue. spec_tac. Qed.
#[local] Hint Resolve spec_getBoolValue spec_getIntValue spec_getFloatValue
  spec_getStringValue spec_getPtrValue : spec.

Lemma spec_createGlobal b o t :
  fresh0 n0 (insertIntoParent b) -> fresh0 n0 t -> spec h0 (createGlobal b o t) fresh.
Proof using Type. intros Hb Ht. unfold createGlobal. spec_tac. Qed.
#[local] Hint Resolve spec_createGlobal : spec.

Lemma spec_createFunc b : fresh0 n0 (insertIntoParent b) -> spec h0 (createFunc b) fresh.
Proof using Type. intros Hb. unfold createFunc. spec_tac. Qed.
Lemma spec_createGlobalVar b t :
  fresh0 n0 (insertIntoParent b) -> fresh0 n0 t -> spec h0 (createGlobalVar b t) fresh.
Proof using Type. intros Hb Ht. unfold createGlobalVar. spec_tac. Qed.
Lemma spec_createGlobalConstant b t :
  fresh0 n0 (insertIntoParent b) -> fresh0 n0 t -> spec h0 (createGlobalConstant b t) fresh.
Proof using Type. intros Hb Ht. unfold createGlobalConstant. spec_tac. Qed.
Lemma spec_createGlobalParam b t :
  fresh0 n0 (insertIntoParent b) -> fresh0 n0 t -> spec h0 (createGlobalParam b t) fresh.
Proof using Type. intros Hb Ht. unfold createGlobalParam. spec_tac. Qed.
Lemma spec_createStructKey b :
  fresh0 n0 (insertIntoParent b) -> spec h0 (createStructKey b) fresh.
Proof using Type. intros Hb. unfold createStructKey. spec_tac. Qed.
Lemma spec_createStructType b :
  fresh0 n0 (insertIntoParent b) -> spec h0 (createStructType b) fresh.
Proof using Type. intros Hb. unfold createStructType. spec_tac. Qed.
Lemma spec_createInterfaceType b :
  fresh0 n0 (insertIntoParent b) -> spec h0 (createInterfaceType b) fresh.
Proof using Type. intros Hb. unfold createInterfaceType. spec_tac. Qed.
Lemma spec_createWitnessTable b :
  fresh0 n0 (insertIntoParent b) -> spec h0 (createWitnessTable b) fresh.
Proof using Type. intros Hb. unfold createWitnessTable. spec_tac. Qed.
Lemma spec_emitGlobalGenericParam b :
  fresh0 n0 (insertIntoParent b) -> spec h0 (emitGlobalGenericParam b) fresh.
Proof using Type. intros Hb. unfold emitGlobalGenericParam. spec_tac. Qed.
Lemma spec_emitGeneric b : fresh0 n0 (insertIntoParent b) -> spec h0 (emitGeneric b) fresh.
Proof using Type. intros Hb. unfold emitGeneric. spec_tac. Qed.
Lemma spec_createBlock b : spec h0 (createBlock b) fresh.
Proof using Type. unfold createBlock. spec_tac. Qed.
Lemma spec_addBlock c b : fresh0 n0 c -> fresh0 n0 b -> spec h0 (addBlock c b) anything.
Proof using Type. intros Hc Hb. unfold addBlock. spec_tac. Qed.
#[local] Hint Resolve spec_createFunc spec_createGlobalVar spec_createGlobalConstant
  spec_createGlobalParam spec_createStructKey spec_createStructType
  spec_createInterfaceType spec_createWitnessTable spec_emitGlobalGenericParam
  spec_emitGeneric spec_createBlock spec_addBlock : spec.

Lemma spec_addDecoration b v o args :
  fresh0 n0 v -> Forall (fresh0 n0) args -> spec h0 (addDecoration b v o args) anything.
Proof using Type. intros Hv Ha. unfold addDecoration. spec_tac. Qed.
#[local] Hint Resolve spec_addDecoration : spec.

Lemma spec_addKeepAliveDecoration b v :
  fresh0 n0 v -> spec h0 (addKeepAliveDecoration b v) anything.
Proof using Type. intros Hv. unfold addKeepAliveDecoration. spec_tac. Qed.

Lemma spec_addLayoutDecoration b v l :
  fresh0 n0 v -> spec h0 (addLayoutDecoration b v l) anything.
Proof using Type. intros Hv. unfold addLayoutDecoration. spec_tac. Qed.
#[local] Hint Resolve spec_addKeepAliveDecoration spec_addLayoutDecoration : spec.

(** *** The environments *)

Lemma known_insert e es k c o :
  known (e :: es) o -> known (<[k := c]> e :: es) o.
Proof using Type.
  intros (env & Hin & Hsome). apply elem_of_cons in Hin as [->|Hin].
  - exists (<[k := c]> e). split; [by left|].
    destruct (decide (k = o)) as [->|Hne]; [by rewrite lookup_insert_eq|].
    by rewrite lookup_insert_ne.
  - exists env. split; [by right|done].
Qed.

Lemma known_insert_eq e es k c : known (<[k := c]> e :: es) k.
Proof using Type. exists (<[k := c]> e). split; [by left|]. by rewrite lookup_insert_eq. Qed.

Lemma spec_registerClonedValue c o : n0 < c -> spec h0 (registerClonedValue c o) anything.
Proof using Type.
  intros Hc. unfold registerClonedValue. case_bool_decide; [by apply spec_ret|].
  intros s Hs. unfold bind, gets, modify.
  destruct (envs s) as [|e es] eqn:He; simpl;
    [split; [done|split; [apply Ext_refl|done]]|].
  destruct Hs as [Hpre Hdest Henv Hnum Hmod Hb Hbs].
  split; [|split; [|done]].
  - split; simpl; try done.
    intros env o' c' Hin Hl. rewrite He in Henv.
    apply elem_of_cons in Hin as [->|Hin].
    + destruct (decide (o = o')) as [->|Hne].
      * rewrite lookup_insert_eq in Hl. by inversion Hl; subst.
      * rewrite lookup_insert_ne in Hl by done. eapply Henv; [by left|done].
    + eapply Henv; [by right|done].
  - split; [done|]. split; [done|]. simpl. intros o'. rewrite He. by apply known_insert.
Qed.
#[local] Hint Resolve spec_registerClonedValue : spec.

Lemma spec_registerClonedValues c ovs : n0 < c -> spec h0 (registerClonedValues c ovs) anything.
Proof using Type. intros Hc. unfold registerClonedValues. spec_tac. Qed.
#[local] Hint Resolve spec_registerClonedValues : spec.

Lemma findClonedValue_fresh0 s o : Inv h0 s -> fresh0 n0 (findClonedValue (envs s) o).
Proof using Type.
  intros Hs. pose proof (inv_envs h0 s Hs) as Henv.
  induction (envs s) as [|e es IH]; simpl; [apply fresh0_null|].
  destruct (e !! o) as [c|] eqn:E.
  - right. eapply Henv; [by left|done].
  - apply IH. intros env o' c' Hin. apply Henv. by right.
Qed.

Lemma findClonedValue_known es o : findClonedValue es o <> nullptr -> known es o.
Proof using Type.
  induction es as [|e es IH]; simpl; [done|].
  destruct (e !! o) as [c|] eqn:E.
  - intros _. exists e. split; [by left|]. by rewrite E.
  - intros H. destruct (IH H) as (env & Hin & Hs). exists env. split; [by right|done].
Qed.

Lemma known_findClonedValue s o : Inv h0 s -> known (envs s) o -> n0 < findClonedValue (envs s) o.
Proof using Type.
  intros Hs. pose proof (inv_envs h0 s Hs) as Henv.
  induction (envs s) as [|e es IH]; intros (env & Hin & Hsome).
  - by apply elem_of_nil in Hin.
  - simpl. destruct (e !! o) as [c|] eqn:E.
    + eapply Henv; [by left|done].
    + apply IH.
      * intros env' o' c' Hin'. apply Henv. by right.
      * apply elem_of_cons in Hin as [->|Hin]; [rewrite E in Hsome; by destruct Hsome|].
        by exists env.
Qed.

Lemma spec_findClonedValue o :
  spec h0 (gets (fun s => findClonedValue (envs s) o)) (fresh0 n0).
Proof using Type. apply spec_gets. intros s Hs. by apply findClonedValue_fresh0. Qed.

Lemma spec_setBuilder b :
  fresh0 n0 (insertIntoParent b) -> spec h0 (modify (setBuilder b)) anything.
Proof using Type.
  intros Hb s Hs. simpl. destruct Hs. split; [by split|]. done.
Qed.
#[local] Hint Resolve spec_findClonedValue spec_setBuilder : spec.

Lemma fresh0_nonnull p : fresh0 n0 p -> p <> nullptr -> n0 < p.
Proof using Type. by intros [->|H] Hp. Qed.

(** *** Accessors on destination instructions *)

Lemma Forall_takeWhile {A : Type} (Pf : A -> Prop) f (l : list A) :
  Forall Pf l -> Forall Pf (takeWhile f l).
Proof using Type.
  induction 1 as [|x l Hx Hl IH]; simpl; [done|]. destruct (f x); auto.
Qed.

Lemma Forall_dropWhile {A : Type} (Pf : A -> Prop) f (l : list A) :
  Forall Pf l -> Forall Pf (dropWhile f l).
Proof using Type.
  induction 1 as [|x l Hx Hl IH]; simpl; [done|]. destruct (f x); auto.
Qed.

Lemma Forall_hd (Pf : nat -> Prop) (l : list nat) : Forall Pf l -> Pf nullptr -> Pf (hd nullptr l).
Proof using Type. by destruct 1. Qed.

Lemma Forall_tail {A : Type} (Pf : A -> Prop) (l : list A) : Forall Pf l -> Forall Pf (tail l).
Proof using Type. by destruct 1. Qed.

Lemma Forall_nth (Pf : nat -> Prop) (l : list nat) i :
  Forall Pf l -> Pf nullptr -> Pf (nth i l nullptr).
Proof using Type.
  intros Hl H0. revert i. induction Hl as [|x l Hx Hl IH]; intros [|i]; simpl; auto.
Qed.

Lemma getChildren_fresh0 h d : closedData n0 d -> Forall (fresh0 n0) (getChildren h d).
Proof using Type. intros Hd. apply Forall_dropWhile. by apply closedData_children. Qed.

Lemma getDecorations_fresh0 h d : closedData n0 d -> Forall (fresh0 n0) (getDecorations h d).
Proof using Type. intros Hd. apply Forall_takeWhile. by apply closedData_children. Qed.

Lemma getFirstChild_fresh0 h d : closedData n0 d -> fresh0 n0 (getFirstChild h d).
Proof using Type.
  intros Hd. unfold getFirstChild.
  apply (Forall_hd (fresh0 n0)); [by apply getChildren_fresh0|apply fresh0_null].
Qed.

Lemma getNextInst_fresh0 s p : Inv h0 s -> fresh0 n0 p -> fresh0 n0 (getNextInst (heap s) p).
Proof using Type.
  intros Hs Hp. unfold getNextInst.
  pose proof (parentOf_fresh0 s p Hs Hp) as Hpar.
  destruct (deref (heap s) (parentOf (heap s) p)) as [d| | |] eqn:Hd; try apply fresh0_null.
  apply (Forall_hd (fresh0 n0)); [|apply fresh0_null]. apply Forall_tail, Forall_dropWhile.
  apply closedData_children.
  apply (inv_dest h0 s Hs (parentOf (heap s) p) d); [|done]. by eapply fresh0_deref.
Qed.

#[local] Hint Resolve getChildren_fresh0 getDecorations_fresh0 getFirstChild_fresh0
  fresh0_nonnull : sep.

(** *** The cloner *)

Section ClonerSpec.

Variable cv : IRInst -> M IRInst.
Variable ci : IRBuilder -> IRInst -> IROriginalValuesForClone -> M IRInst.
Variable n : nat.
Hypothesis Hcv : forall x, spec h0 (cv x) (fresh0 n0).
Hypothesis Hci : forall b x o, fresh0 n0 (insertIntoParent b) -> spec h0 (ci b x o) fresh.

#[local] Hint Resolve Hcv Hci : spec.

Lemma spec_cloneType t : spec h0 (cloneType cv t) (fresh0 n0).
Proof using Hcv. apply Hcv. Qed.
Lemma spec_cloneRate t : spec h0 (cloneRate cv t) (fresh0 n0).
Proof using Hcv. apply Hcv. Qed.
#[local] Hint Resolve spec_cloneType spec_cloneRate : spec.

Lemma spec_cloneDecorations c o :
  fresh0 n0 c -> spec h0 (cloneDecorations ci c o) anything.
Proof using Hci. intros Hc. unfold cloneDecorations. spec_tac. Qed.

Lemma spec_cloneDecorationsAndChildren c o :
  fresh0 n0 c -> spec h0 (cloneDecorationsAndChildren ci c o) anything.
Proof using Hci. intros Hc. unfold cloneDecorationsAndChildren. spec_tac. Qed.
#[local] Hint Resolve spec_cloneDecorations spec_cloneDecorationsAndChildren : spec.

Lemma spec_maybeSetClonedRate b c o :
  fresh0 n0 (insertIntoParent b) -> fresh0 n0 c ->
  spec h0 (maybeSetClonedRate cv b c o) anything.
Proof using Hcv.
  intros Hb Hc. unfold maybeSetClonedRate.
  eapply spec_bind; [apply spec_derefM|]. intros od Hod.
  eapply spec_bind with (Q1 := anything); [by apply spec_gets|]. intros rate _.
  case_bool_decide; [by apply spec_ret|].
  eapply spec_bind; [apply spec_cloneRate|]. intros clonedRate Hrate.
  eapply spec_bind; [apply spec_derefM|]. intros cd Hcd.
  eapply spec_bind with (Q1 := fresh0 n0).
  { apply spec_gets. intros s _. sep_facts. }
  intros dataType Hdt. spec_tac.
Qed.
#[local] Hint Resolve spec_maybeSetClonedRate : spec.

Lemma spec_cloneBlockContents obs : forall cb,
  fresh0 n0 cb -> spec h0 (cloneBlockContents ci obs cb) anything.
Proof using Hci.
  induction obs as [|ob obs IH]; intros cb Hcb; simpl; [by apply spec_ret|].
  eapply spec_bind with (Q1 := anything); [apply spec_SLANG_ASSERT|]. intros _ _.
  eapply spec_bind; [apply spec_derefM|]. intros od Hod.
  eapply spec_bind with (Q1 := anything); [by apply spec_gets|]. intros insts _.
  eapply spec_bind with (Q1 := anything).
  { apply spec_forEach. intros oi. spec_tac. }
  intros _ _.
  eapply spec_bind with (Q1 := fresh0 n0).
  { apply spec_gets. intros s Hs. by apply getNextInst_fresh0. }
  intros next Hnext. by apply IH.
Qed.
#[local] Hint Resolve spec_cloneBlockContents : spec.

Lemma spec_cloneGlobalValueWithCodeCommon c o :
  fresh0 n0 c -> spec h0 (cloneGlobalValueWithCodeCommon ci c o) anything.
Proof using Hci.
  intros Hc. unfold cloneGlobalValueWithCodeCommon.
  eapply spec_bind with (Q1 := anything); [by apply spec_cloneDecorations|]. intros _ _.
  eapply spec_bind; [apply spec_derefM|]. intros od Hod.
  eapply spec_bind with (Q1 := anything); [by apply spec_gets|]. intros blocks _.
  eapply spec_bind; [apply spec_builder|]. intros b Hb.
  eapply spec_bind with (Q1 := anything).
  { apply spec_forEach. intros ob. spec_tac. }
  intros _ _.
  eapply spec_bind; [apply spec_derefM|]. intros cd Hcd.
  eapply spec_bind with (Q1 := fresh0 n0).
  { apply spec_gets. intros s _. sep_facts. }
  intros cb Hcb. by apply spec_cloneBlockContents.
Qed.
#[local] Hint Resolve spec_cloneGlobalValueWithCodeCommon : spec.

Lemma spec_cloneSimpleGlobalValueImpl o ovs c reg :
  fresh c -> spec h0 (cloneSimpleGlobalValueImpl ci o ovs c reg) anything.
Proof using Hci. intros Hc. unfold cloneSimpleGlobalValueImpl. spec_tac. Qed.
#[local] Hint Resolve spec_cloneSimpleGlobalValueImpl : spec.

Lemma spec_cloneGlobalVarImpl b o ovs :
  fresh0 n0 (insertIntoParent b) -> spec h0 (cloneGlobalVarImpl cv ci b o ovs) fresh.
Proof using Hcv Hci. intros Hb. unfold cloneGlobalVarImpl. spec_tac. Qed.

Lemma spec_cloneGlobalConstantImpl b o ovs :
  fresh0 n0 (insertIntoParent b) -> spec h0 (cloneGlobalConstantImpl cv ci b o ovs) fresh.
Proof using Hcv Hci. intros Hb. unfold cloneGlobalConstantImpl. spec_tac. Qed.

Lemma spec_cloneGlobalParamImpl b o ovs :
  fresh0 n0 (insertIntoParent b) -> spec h0 (cloneGlobalParamImpl cv ci b o ovs) fresh.
Proof using Hcv Hci. intros Hb. unfold cloneGlobalParamImpl. spec_tac. Qed.

Lemma spec_cloneGenericImpl b o ovs :
  fresh0 n0 (insertIntoParent b) -> spec h0 (cloneGenericImpl ci b o ovs) fresh.
Proof using Hci. intros Hb. unfold cloneGenericImpl. spec_tac. Qed.

Lemma spec_cloneStructKeyImpl b o ovs :
  fresh0 n0 (insertIntoParent b) -> spec h0 (cloneStructKeyImpl ci b o ovs) fresh.
Proof using Hci. intros Hb. unfold cloneStructKeyImpl. spec_tac. Qed.

Lemma spec_cloneGlobalGenericParamImpl b o ovs :
  fresh0 n0 (insertIntoParent b) -> spec h0 (cloneGlobalGenericParamImpl ci b o ovs) fresh.
Proof using Hci. intros Hb. unfold cloneGlobalGenericParamImpl. spec_tac. Qed.

Lemma spec_cloneWitnessTableImpl b o ovs dst reg :
  fresh0 n0 (insertIntoParent b) -> fresh0 n0 dst ->
  spec h0 (cloneWitnessTableImpl ci b o ovs dst reg) fresh.
Proof using Hci.
  intros Hb Hdst. unfold cloneWitnessTableImpl.
  eapply spec_bind with (Q1 := fresh).
  { case_bool_decide; [spec_tac|]. apply spec_ret. by apply fresh0_nonnull. }
  intros c Hc. spec_tac.
Qed.

Lemma spec_cloneStructTypeImpl b o ovs :
  fresh0 n0 (insertIntoParent b) -> spec h0 (cloneStructTypeImpl ci b o ovs) fresh.
Proof using Hci. intros Hb. unfold cloneStructTypeImpl. spec_tac. Qed.

Lemma spec_cloneInterfaceTypeImpl b o ovs :
  fresh0 n0 (insertIntoParent b) -> spec h0 (cloneInterfaceTypeImpl ci b o ovs) fresh.
Proof using Hci. intros Hb. unfold cloneInterfaceTypeImpl. spec_tac. Qed.

Lemma spec_checkIRDuplicate i m name : spec h0 (checkIRDuplicate i m name) anything.
Proof using Type. unfold checkIRDuplicate. spec_tac. Qed.
#[local] Hint Resolve spec_checkIRDuplicate : spec.

Lemma spec_cloneFunctionCommon c o chk :
  fresh c -> spec h0 (cloneFunctionCommon cv ci c o chk) anything.
Proof using Hcv Hci. intros Hc. unfold cloneFunctionCommon. spec_tac. Qed.
#[local] Hint Resolve spec_cloneFunctionCommon : spec.

Lemma spec_cloneFuncImpl b o ovs :
  fresh0 n0 (insertIntoParent b) -> spec h0 (cloneFuncImpl cv ci b o ovs) fresh.
Proof using Hcv Hci. intros Hb. unfold cloneFuncImpl. spec_tac. Qed.

#[local] Hint Resolve spec_cloneGlobalVarImpl spec_cloneGlobalConstantImpl
  spec_cloneGlobalParamImpl spec_cloneGenericImpl spec_cloneStructKeyImpl
  spec_cloneGlobalGenericParamImpl spec_cloneWitnessTableImpl spec_cloneStructTypeImpl
  spec_cloneInterfaceTypeImpl spec_cloneFuncImpl : spec.

Lemma spec_cloneInst_body b o ovs :
  fresh0 n0 (insertIntoParent b) -> spec h0 (cloneInst_body cv ci b o ovs) fresh.
Proof using Hcv Hci.
  intros Hb. unfold cloneInst_body.
  eapply spec_bind; [apply spec_derefM|]. intros od Hod.
  destruct (op od); try spec_known; spec_tac.
Qed.

Lemma spec_cloneGlobalValueImpl o ovs : spec h0 (cloneGlobalValueImpl ci o ovs) fresh.
Proof using Hci. unfold cloneGlobalValueImpl. spec_tac. Qed.
#[local] Hint Resolve spec_cloneGlobalValueImpl : spec.

Lemma spec_cloneGlobalValueWithLinkage o l :
  spec h0 (cloneGlobalValueWithLinkage ci n o l) fresh.
Proof using Hci h0_closed.
  unfold cloneGlobalValueWithLinkage.
  eapply spec_bind; [apply spec_derefM|]. intros od Hod.
  eapply spec_bind; [apply spec_moduleInst|]. intros m Hm.
  case_bool_decide as Hpar.
  { apply spec_ret. eapply source_parent; [done|]. by rewrite Hpar. }
  eapply spec_bind; [apply spec_findClonedValue|]. intros c Hc.
  case_bool_decide as Hnull; simpl.
  2:{ apply spec_ret. by apply fresh0_nonnull. }
  spec_tac.
Qed.
#[local] Hint Resolve spec_cloneGlobalValueWithLinkage : spec.

Lemma spec_cloneGlobalValue o : spec h0 (cloneGlobalValue ci n o) fresh.
Proof using Hci h0_closed. unfold cloneGlobalValue. spec_tac. Qed.
#[local] Hint Resolve spec_cloneGlobalValue : spec.

Lemma spec_maybeCloneValue o : spec h0 (maybeCloneValue cv ci n o) fresh.
Proof using Hcv Hci h0_closed.
  unfold maybeCloneValue.
  eapply spec_bind; [apply spec_derefM|]. intros od Hod.
  destruct (op od); try spec_known; spec_tac.
Qed.

Lemma spec_cloneValue_body o : spec h0 (cloneValue_body cv ci n o) (fresh0 n0).
Proof using Hcv Hci h0_closed.
  unfold cloneValue_body. case_bool_decide; [apply spec_ret, fresh0_null|].
  eapply spec_bind; [apply spec_findClonedValue|]. intros c Hc.
  case_bool_decide as Hnull; simpl; [|by apply spec_ret].
  eapply spec_weaken; [apply spec_maybeCloneValue|]. sep_facts.
Qed.

End ClonerSpec.

(** *** What a clone is registered for *)

Lemma bind_Val {A B : Type} (m : M A) (k : A -> M B) s b :
  (bind m k s).1 = Val b ->
  exists a, (m s).1 = Val a /\ bind m k s = k a (m s).2.
Proof using Type.
  unfold bind. destruct (m s) as [[a|msg| |] s1]; simpl; try discriminate.
  intros _. by exists a.
Qed.

Lemma bind_run {A B : Type} (m : M A) (k : A -> M B) s a b :
  (m s).1 = Val a -> (k a (m s).2).1 = Val b -> bind m k s = (Val b, (k a (m s).2).2).
Proof using Type.
  unfold bind. destruct (m s) as [r s1]; simpl. intros ->.
  destruct (k a s1) as [r2 s2]; simpl. by intros ->.
Qed.

Lemma stable_registered vals : stable (registered vals).
Proof using Type. intros s s' (_ & _ & Hk) H v Hv Hne. apply Hk. by apply H. Qed.

Lemma est_bind_r {A B : Type} (m : M A) (k : A -> M B) (Q1 : A -> Prop) K :
  spec h0 m Q1 -> (forall a, Q1 a -> establishes h0 (k a) K) ->
  establishes h0 (bind m k) K.
Proof using Type.
  intros Hm Hk s Hs b Hb. destruct (bind_Val m k s b Hb) as (a & Ha & Heq).
  destruct (Hm s Hs) as (HI & _ & HQ). rewrite Heq in Hb |- *.
  by apply (Hk a (HQ a Ha) (m s).2 HI b).
Qed.

Lemma est_bind_l {A B : Type} (m : M A) (k : A -> M B) (Q1 : A -> Prop) (Q : B -> Prop) K :
  stable K -> spec h0 m Q1 -> establishes h0 m K -> (forall a, Q1 a -> spec h0 (k a) Q) ->
  establishes h0 (bind m k) K.
Proof using Type.
  intros HK Hm He Hk s Hs b Hb. destruct (bind_Val m k s b Hb) as (a & Ha & Heq).
  destruct (Hm s Hs) as (HI & _ & HQ). rewrite Heq.
  destruct (Hk a (HQ a Ha) (m s).2 HI) as (_ & HE & _).
  apply (HK (m s).2); [done|]. by apply (He s Hs a).
Qed.

Lemma registerClonedValue_known c v s :
  (registerClonedValue c v s).1 = Val tt ->
  (v <> nullptr -> known (envs (registerClonedValue c v s).2) v) /\
  (forall o, known (envs s) o -> known (envs (registerClonedValue c v s).2) o).
Proof using Type.
  unfold registerClonedValue. case_bool_decide as Hv; [by intros _|].
  unfold bind, gets, modify. destruct (envs s) as [|e es] eqn:He; simpl; [done|].
  intros _. split.
  - intros _. apply known_insert_eq.
  - intros o. apply known_insert.
Qed.

Lemma forEach_register_known c (l : list nat) : forall s,
  (forEach l (registerClonedValue c) s).1 = Val tt ->
  registered l (forEach l (registerClonedValue c) s).2 /\
  (forall o, known (envs s) o -> known (envs (forEach l (registerClonedValue c) s).2) o).
Proof using Type.
  induction l as [|x l IH]; intros s; simpl.
  - intros _. split; [|done]. intros v Hv. by apply elem_of_nil in Hv.
  - intros Hrun. destruct (bind_Val _ _ _ _ Hrun) as ([] & Hx & Heq).
    rewrite Heq in Hrun |- *.
    destruct (registerClonedValue_known c x s Hx) as (Hnew & Hold).
    destruct (IH _ Hrun) as (Hl & Hkeep). split.
    + intros v Hv Hne. apply elem_of_cons in Hv as [->|Hv]; [|by apply Hl].
      apply Hkeep. by apply Hnew.
    + intros o Ho. by apply Hkeep, Hold.
Qed.

Lemma est_registerClonedValues c ovs :
  establishes h0 (registerClonedValues c ovs) (registered (valuesFor ovs)).
Proof using Type.
  intros s _ [] Hrun.
  by destruct (forEach_register_known c (valuesFor ovs) s Hrun) as (H & _).
Qed.

Section ClonerRegisters.

Variable cv : IRInst -> M IRInst.
Variable ci : IRBuilder -> IRInst -> IROriginalValuesForClone -> M IRInst.
Hypothesis Hcv : forall x, spec h0 (cv x) (fresh0 n0).
Hypothesis Hci : forall b x o, fresh0 n0 (insertIntoParent b) -> spec h0 (ci b x o) fresh.

#[local] Hint Resolve Hcv Hci spec_cloneType spec_cloneRate spec_cloneDecorations
  spec_cloneDecorationsAndChildren spec_maybeSetClonedRate spec_cloneBlockContents
  spec_cloneGlobalValueWithCodeCommon spec_cloneSimpleGlobalValueImpl
  spec_checkIRDuplicate spec_cloneFunctionCommon : spec.

Lemma est_cloneSimpleGlobalValueImpl o ovs c :
  fresh c ->
  establishes h0 (cloneSimpleGlobalValueImpl ci o ovs c true) (registered (valuesFor ovs)).
Proof using Hci.
  intros Hc. unfold cloneSimpleGlobalValueImpl. cbv iota.
  eapply est_bind_l with (Q1 := anything) (Q := anything);
    [apply stable_registered|spec_known|apply est_registerClonedValues|].
  intros _ _. spec_tac.
Qed.

Ltac est_step :=
  lazymatch goal with
  | |- establishes _ (bind (registerClonedValues _ _) _) _ =>
      eapply est_bind_l with (Q1 := anything) (Q := anything);
        [ apply stable_registered | spec_known | apply est_registerClonedValues
        | intros ? _; spec_tac ]
  | |- establishes _ (bind (cloneSimpleGlobalValueImpl _ _ _ _ true) _) _ =>
      eapply est_bind_l with (Q1 := anything) (Q := anything);
        [ apply stable_registered | spec_known | by apply est_cloneSimpleGlobalValueImpl
        | intros ? _; spec_tac ]
  | |- establishes _ (bind _ _) _ =>
      first [ eapply est_bind_r; [ spec_known | cbv beta; intros ? ? ]
            | eapply est_bind_r with (Q1 := anything); [ spec_tac | cbv beta; intros ? _ ] ]
  end.

Lemma est_cloneInst_body b o ovs :
  fresh0 n0 (insertIntoParent b) ->
  establishes h0 (cloneInst_body cv ci b o ovs) (registered (valuesFor ovs)).
Proof using Hcv Hci.
  intros Hb. unfold cloneInst_body.
  eapply est_bind_r; [apply spec_derefM|]. intros od Hod.
  destruct (op od);
    unfold cloneFuncImpl, cloneGlobalVarImpl, cloneGlobalConstantImpl, cloneGlobalParamImpl,
      cloneStructTypeImpl, cloneInterfaceTypeImpl, cloneGenericImpl, cloneStructKeyImpl,
      cloneGlobalGenericParamImpl;
    try (repeat est_step; fail).
  unfold cloneWitnessTableImpl.
  eapply est_bind_r with (Q1 := fresh).
  { rewrite bool_decide_eq_true_2 by done. spec_tac. }
  intros c Hc. est_step.
Qed.

End ClonerRegisters.

(** *** The recursive cloner *)

Lemma spec_clone fuel :
  (forall x, spec h0 (cloneValue fuel x) (fresh0 n0)) /\
  (forall b x o, fresh0 n0 (insertIntoParent b) -> spec h0 (cloneInst fuel b x o) fresh).
Proof using h0_closed.
  induction fuel as [|k [IHv IHi]]; split; intros; simpl;
    try (apply spec_raise; discriminate).
  - by apply spec_cloneValue_body.
  - by apply spec_cloneInst_body.
Qed.

Lemma spec_cloneValue fuel x : spec h0 (cloneValue fuel x) (fresh0 n0).
Proof using h0_closed. apply spec_clone. Qed.

Lemma spec_cloneInst fuel b x o :
  fresh0 n0 (insertIntoParent b) -> spec h0 (cloneInst fuel b x o) fresh.
Proof using h0_closed. apply spec_clone. Qed.

Lemma est_cloneInst fuel b x ovs :
  fresh0 n0 (insertIntoParent b) ->
  establishes h0 (cloneInst fuel b x ovs) (registered (valuesFor ovs)).
Proof using h0_closed.
  intros Hb. destruct fuel as [|k]; simpl; [by intros s _ a|].
  apply est_cloneInst_body; [apply spec_cloneValue|apply spec_cloneInst|done].
Qed.

#[local] Hint Resolve spec_cloneValue spec_cloneInst : spec.

Lemma est_cloneGlobalValueImpl fuel o ovs :
  establishes h0 (cloneGlobalValueImpl (cloneInst fuel) o ovs) (registered (valuesFor ovs)).
Proof using h0_closed.
  unfold cloneGlobalValueImpl.
  eapply est_bind_r; [apply spec_builderStorage|]. intros b Hb.
  eapply est_bind_l with (Q1 := fresh) (Q := anything);
    [apply stable_registered|by apply spec_cloneInst|by apply est_cloneInst|].
  intros c Hc. spec_tac.
Qed.

(** *** The source arena reads the same at any time *)

Lemma deref_source_eq l p : p <= n0 -> deref (h0 ++ l) p = deref h0 p.
Proof using Type.
  destruct p as [|i]; [done|]. intros Hp. unfold deref. by rewrite lookup_app_l by lia.
Qed.

Lemma deref_source_in p d : deref h0 p = Val d -> d ∈ h0 /\ p <= n0 /\ p <> nullptr.
Proof using Type.
  destruct p as [|i]; simpl; [done|]. destruct (h0 !! i) as [x|] eqn:E; [|done].
  intros [= <-]. split; [by eapply list_elem_of_lookup_2|].
  apply lookup_lt_Some in E. split; [lia|done].
Qed.

Lemma asOp_source_eq l isa c : c <= n0 -> asOp (h0 ++ l) isa c = asOp h0 isa c.
Proof using Type. intros Hc. unfold asOp. by rewrite deref_source_eq. Qed.

Lemma takeWhile_ext {A : Type} (f g : A -> bool) (l : list A) :
  Forall (fun x => f x = g x) l -> takeWhile f l = takeWhile g l.
Proof using Type.
  induction 1 as [|x l Hx Hl IH]; simpl; [done|]. rewrite Hx, IH. done.
Qed.

Lemma dropWhile_ext {A : Type} (f g : A -> bool) (l : list A) :
  Forall (fun x => f x = g x) l -> dropWhile f l = dropWhile g l.
Proof using Type.
  induction 1 as [|x l Hx Hl IH]; simpl; [done|]. rewrite Hx, IH. done.
Qed.

Lemma source_children d : d ∈ h0 -> Forall (fun c => c <= n0) (decorationsAndChildren d).
Proof using h0_closed. intros Hd. by destruct (h0_closed d Hd) as (_ & _ & H). Qed.

Lemma source_operands d : d ∈ h0 -> Forall (fun c => c <= n0) (operands d).
Proof using h0_closed. intros Hd. by destruct (h0_closed d Hd) as (_ & H & _). Qed.

Lemma getDecorations_source l d : d ∈ h0 -> getDecorations (h0 ++ l) d = getDecorations h0 d.
Proof using h0_closed.
  intros Hd. unfold getDecorations. apply takeWhile_ext.
  eapply Forall_impl; [by apply source_children|]. intros c Hc. by apply asOp_source_eq.
Qed.

Lemma getChildren_source l d : d ∈ h0 -> getChildren (h0 ++ l) d = getChildren h0 d.
Proof using h0_closed.
  intros Hd. unfold getChildren. apply dropWhile_ext.
  eapply Forall_impl; [by apply source_children|]. intros c Hc. by apply asOp_source_eq.
Qed.

Lemma getChildren_source_le d : d ∈ h0 -> Forall (fun c => c <= n0) (getChildren h0 d).
Proof using h0_closed. intros Hd. apply Forall_dropWhile. by apply source_children. Qed.

Lemma findDecorationIn_source l isa ds :
  Forall (fun c => c <= n0) ds ->
  findDecorationIn (h0 ++ l) isa ds = findDecorationIn h0 isa ds /\
  findDecorationIn h0 isa ds <= n0.
Proof using Type.
  induction 1 as [|x ds Hx Hds [IH1 IH2]]; simpl; [split; [done|lia]|].
  rewrite asOp_source_eq by done. destruct (asOp h0 isa x); auto.
Qed.

Lemma findDecoration_source l isa p :
  p <= n0 -> findDecoration (h0 ++ l) isa p = findDecoration h0 isa p.
Proof using h0_closed.
  intros Hp. unfold findDecoration. rewrite deref_source_eq by done.
  destruct (deref h0 p) as [d| | |] eqn:Hd; simpl; try done.
  apply deref_source_in in Hd as (Hd & _). rewrite getDecorations_source by done.
  f_equal. apply findDecorationIn_source.
  apply Forall_takeWhile. by apply source_children.
Qed.

Lemma findDecoration_source_le isa p dd : findDecoration h0 isa p = Val dd -> dd <= n0.
Proof using h0_closed.
  unfold findDecoration. destruct (deref h0 p) as [d| | |] eqn:Hd; simpl; try done.
  intros [= <-]. apply deref_source_in in Hd as (Hd & _).
  apply (findDecorationIn_source []). apply Forall_takeWhile. by apply source_children.
Qed.

Lemma getStringOperand_source l d :
  d ∈ h0 -> getStringOperand (h0 ++ l) d = getStringOperand h0 d.
Proof using h0_closed.
  intros Hd. unfold getStringOperand, getOperand.
  destruct (operands d !! 0) as [lit|] eqn:E; simpl; [|done].
  rewrite deref_source_eq; [done|].
  pose proof (source_operands d Hd) as Hops.
  by eapply Forall_lookup_1 in Hops.
Qed.

Lemma linkageName_source l v : v <= n0 -> linkageName (h0 ++ l) v = linkageName h0 v.
Proof using h0_closed.
  intros Hv. unfold linkageName. rewrite findDecoration_source by done.
  destruct (findDecoration h0 isLinkageDecorationOp v) as [dd| | |] eqn:Hdd; simpl; try done.
  case_bool_decide; [done|].
  apply findDecoration_source_le in Hdd. rewrite deref_source_eq by done.
  destruct (deref h0 dd) as [d| | |] eqn:Hd; simpl; try done.
  apply deref_source_in in Hd as (Hd & _). by rewrite getStringOperand_source.
Qed.

(** *** The symbol table *)

Lemma TryGetValue_elem {V : Type} (dict : Dictionary V) k v :
  TryGetValue dict k = Some v -> (k, v) ∈ dict.
Proof using Type.
  induction dict as [|[k0 v0] dict IH]; simpl; [done|].
  destruct (bool_decide (k0 = k)) eqn:E.
  - apply bool_decide_eq_true in E. subst. intros [= <-]. by left.
  - intros H. right. auto.
Qed.

Lemma TryGetValue_None {V : Type} (dict : Dictionary V) k :
  TryGetValue dict k = None -> k ∉ dict.*1.
Proof using Type.
  induction dict as [|[k0 v0] dict IH]; simpl; [intros _; apply not_elem_of_nil|].
  destruct (bool_decide (k0 = k)) eqn:E; [done|].
  apply bool_decide_eq_false in E. intros H. apply not_elem_of_cons. split; [congruence|auto].
Qed.

Lemma TryGetValue_NoDup {V : Type} (dict : Dictionary V) k v :
  NoDup dict.*1 -> (k, v) ∈ dict -> TryGetValue dict k = Some v.
Proof using Type.
  induction dict as [|[k0 v0] dict IH]; simpl; intros Hnd Hin; [by apply elem_of_nil in Hin|].
  apply NoDup_cons in Hnd as [Hk0 Hnd].
  apply elem_of_cons in Hin as [[= -> ->]|Hin].
  - by rewrite bool_decide_eq_true_2.
  - destruct (bool_decide (k0 = k)) eqn:E; [|auto].
    apply bool_decide_eq_true in E. subst. destruct Hk0.
    apply list_elem_of_fmap. by exists (k, v).
Qed.

Lemma setValue_keys {V : Type} (dict : Dictionary V) k v : (setValue dict k v).*1 = dict.*1.
Proof using Type.
  induction dict as [|[k0 v0] dict IH]; simpl; [done|].
  destruct (bool_decide (k0 = k)); [done|]. rewrite !fmap_cons. by rewrite IH.
Qed.

Lemma setValue_elem {V : Type} (dict : Dictionary V) k v k' v' :
  (k', v') ∈ setValue dict k v -> (k' = k /\ v' = v) \/ (k', v') ∈ dict.
Proof using Type.
  induction dict as [|[k0 v0] dict IH]; simpl; [by right|].
  destruct (bool_decide (k0 = k)) eqn:E; intros Hin.
  - apply bool_decide_eq_true in E. subst.
    apply elem_of_cons in Hin as [[= -> ->]|Hin]; [by left|]. right. by right.
  - apply elem_of_cons in Hin as [[= -> ->]|Hin]; [right; by left|].
    destruct (IH Hin) as [?|?]; [by left|]. right. by right.
Qed.

Lemma insertGlobalValueSymbol_tableOK l syms gv syms' :
  tableOK h0 syms -> gv <= n0 ->
  insertGlobalValueSymbol (h0 ++ l) syms gv = Val syms' -> tableOK h0 syms'.
Proof using h0_closed.
  intros [Hnd Hvals] Hgv. unfold insertGlobalValueSymbol.
  rewrite linkageName_source by done.
  destruct (linkageName h0 gv) as [[name|]| | |] eqn:Hname; simpl; try done.
  2:{ by intros [= <-]. }
  destruct (TryGetValue syms name) as [prev|] eqn:Hprev; intros [= <-].
  - split; [by rewrite setValue_keys|].
    intros name' sym' Hin v Hv. apply setValue_elem in Hin as [[-> ->]|Hin]; [|by eapply Hvals].
    apply TryGetValue_elem in Hprev. simpl in Hv.
    apply elem_of_cons in Hv as [->|Hv].
    { apply (Hvals name prev Hprev). rewrite symbolValues_unfold. by left. }
    apply elem_of_cons in Hv as [->|Hv]; [done|].
    apply (Hvals name prev Hprev). rewrite symbolValues_unfold. right.
    by destruct (nextWithSameName prev).
  - split.
    + unfold Add. rewrite fmap_app. apply NoDup_app. split; [done|].
      split; [|apply NoDup_singleton]. intros x Hx Hx'.
      apply list_elem_of_singleton in Hx'. subst. by apply TryGetValue_None in Hprev.
    + intros name' sym' Hin v Hv. apply elem_of_app in Hin as [Hin|Hin]; [by eapply Hvals|].
      apply list_elem_of_singleton in Hin. inversion Hin; subst. simpl in Hv.
      apply list_elem_of_singleton in Hv. by subst.
Qed.

Lemma insertAll_tableOK l gvs : forall syms syms',
  tableOK h0 syms -> Forall (fun c => c <= n0) gvs ->
  insertAll (h0 ++ l) syms gvs = Val syms' -> tableOK h0 syms'.
Proof using h0_closed.
  induction gvs as [|gv gvs IH]; intros syms syms' Hok Hle; simpl; [by intros [= <-]|].
  apply Forall_cons in Hle as [Hgv Hle].
  destruct (insertGlobalValueSymbol (h0 ++ l) syms gv) as [syms1| | |] eqn:E; simpl; try done.
  apply IH; [|done]. by eapply insertGlobalValueSymbol_tableOK.
Qed.

Lemma insertGlobalValueSymbols_tableOK l syms om syms' :
  Forall (fun d => decorationsAndChildren d = []) l ->
  tableOK h0 syms ->
  insertGlobalValueSymbols (h0 ++ l) syms om = Val syms' -> tableOK h0 syms'.
Proof using h0_closed.
  intros Hl Hok. unfold insertGlobalValueSymbols. case_bool_decide; [by intros [= <-]|].
  destruct (deref (h0 ++ l) om) as [md| | |] eqn:Hmd; simpl; try done.
  destruct (decide (om <= n0)) as [Hle|Hgt].
  - rewrite deref_source_eq in Hmd by done. apply deref_source_in in Hmd as (Hmd & _).
    rewrite getChildren_source by done.
    apply insertAll_tableOK; [done|]. by apply getChildren_source_le.
  - assert (md ∈ l) as Hin.
    { destruct om as [|i]; [done|]. unfold deref in Hmd.
      rewrite lookup_app_r in Hmd by lia.
      destruct (l !! (i - n0)) as [x|] eqn:E; [|done].
      inversion Hmd; subst. by eapply list_elem_of_lookup_2. }
    eapply Forall_forall in Hl; [|done].
    unfold getChildren. rewrite Hl. simpl. by intros [= <-].
Qed.

(** *** The first steps of the link *)

Lemma lands_bind {A B : Type} J K (m : M A) (k : A -> M B) :
  lands J m J -> (forall a, lands J (k a) K) -> lands J (bind m k) K.
Proof using Type.
  intros Hm Hk s b Hs Hb. destruct (bind_Val m k s b Hb) as (a & Ha & Heq).
  rewrite Heq in Hb |- *. apply (Hk a _ b); [|done]. by apply (Hm s a).
Qed.

Lemma lands_forEach {A : Type} J (l : list A) (body : A -> M unit) :
  (forall x, lands J (body x) J) -> lands J (forEach l body) J.
Proof using Type.
  intros H. induction l as [|x l IH]; simpl; [by intros s a Hs _|].
  apply lands_bind; [apply H|]. intros _. exact IH.
Qed.

Lemma collected_insertGlobalValueSymbolsM om :
  lands (collected h0) (insertGlobalValueSymbolsM om) (collected h0).
Proof using h0_closed.
  intros s a (Hheap & Hmod & Henv & Hnum & Hok). unfold insertGlobalValueSymbolsM, bind, inspect.
  destruct (insertGlobalValueSymbols (heap s) (symbols s) om) as [syms| | |] eqn:E;
    simpl; try done.
  intros _. do 4 (split; [done|]). simpl. rewrite Hheap in E.
  eapply insertGlobalValueSymbols_tableOK; [|exact Hok|exact E].
  apply Forall_cons. split; [done|apply Forall_nil_2].
Qed.

Lemma collected_addGlobalVarLayouts entries :
  lands (collected h0) (addGlobalVarLayouts entries) (collected h0).
Proof using Type.
  unfold addGlobalVarLayouts. apply lands_forEach. by intros [name layout] s a Hs _.
Qed.

Lemma collected_Inv s :
  collected h0 s ->
  Inv h0 (setBuilder (setInsertInto (moduleInst s))
            (setBuilderStorage (setInsertInto (moduleInst s)) s)).
Proof using Type.
  intros (Hheap & Hmod & Henv & Hnum & Hok). split; simpl.
  - eexists. exact Hheap.
  - intros p d Hp Hd. rewrite Hheap in Hd.
    destruct (decide (p = S n0)) as [->|Hne].
    + rewrite deref_app_new in Hd. inversion Hd; subst.
      repeat split; simpl; auto using fresh0_null.
    + apply deref_app_old in Hd; [|done]. apply deref_source_in in Hd. lia.
  - rewrite Henv. intros env o c Hin. apply list_elem_of_singleton in Hin. by subst.
  - by rewrite Hnum.
  - rewrite Hmod. lia.
  - rewrite Hmod. right. lia.
  - rewrite Hmod. right. lia.
Qed.

Lemma linkIR_collect_rest input :
  lands (collected h0)
    (insertGlobalValueSymbolsM (originalProgramIRModule input) ;;
     forEach (moduleDependencies input) insertGlobalValueSymbolsM ;;
     addGlobalVarLayouts (globalScopeVarLayouts input) ;;
     addGlobalVarLayouts (entryPointGroupVarLayouts input) ;;
     let* m := gets moduleInst in
     modify (setBuilderStorage (setInsertInto m)) ;;
     modify (setBuilder (setInsertInto m)))
    (fun s => Inv h0 s /\ tableOK h0 (symbols s)).
Proof using h0_closed.
  apply lands_bind; [apply collected_insertGlobalValueSymbolsM|]. intros _.
  apply lands_bind.
  { apply lands_forEach. intros om. apply collected_insertGlobalValueSymbolsM. }
  intros _.
  apply lands_bind; [apply collected_addGlobalVarLayouts|]. intros _.
  apply lands_bind; [apply collected_addGlobalVarLayouts|]. intros _.
  intros s [] Hs _. split; [by apply collected_Inv|]. by destruct Hs as (_ & _ & _ & _ & Hok).
Qed.

Lemma linkIR_collect_Inv input t :
  lands (eq (initialState h0 t)) (linkIR_collect input)
    (fun s => Inv h0 s /\ tableOK h0 (symbols s)).
Proof using h0_closed.
  intros s0 a <-. unfold linkIR_collect.
  assert (collected h0 (initializeSharedSpecContext nullptr (initialState h0 t)).2) as Hinit.
  { do 4 (split; [done|]). split; [apply NoDup_nil_2|].
    intros name sym Hin. simpl in Hin. by apply elem_of_nil in Hin. }
  intros Hrun. destruct (bind_Val _ _ _ _ Hrun) as ([] & _ & Heq). rewrite Heq in Hrun |- *.
  exact (linkIR_collect_rest input _ a Hinit Hrun).
Qed.

(** *** A symbol is registered once it is cloned *)

Lemma cloneGlobalValue_registers fuel s name sym :
  Inv h0 s -> tableOK h0 (symbols s) -> (name, sym) ∈ symbols s ->
  forall c, (cloneGlobalValue (cloneInst fuel) fuel (irGlobalValue sym) s).1 = Val c ->
  known (envs (cloneGlobalValue (cloneInst fuel) fuel (irGlobalValue sym) s).2)
    (irGlobalValue sym).
Proof using h0_closed.
  intros Hs [Hnd Hvals] Hin c.
  enough (forall r s', cloneGlobalValue (cloneInst fuel) fuel (irGlobalValue sym) s = (r, s') ->
            r = Val c -> known (envs s') (irGlobalValue sym)) as Hgen.
  { intros Hrun.
    destruct (cloneGlobalValue (cloneInst fuel) fuel (irGlobalValue sym) s) as [r s'] eqn:E.
    by apply (Hgen r s'). }
  intros r s'.
  assert (irGlobalValue sym ∈ symbolValues sym) as HW
    by (rewrite symbolValues_unfold; by left).
  destruct (Hvals name sym Hin _ HW) as [HWle Hname].
  destruct (inv_prefix h0 s Hs) as [l Hl].
  assert (linkageName (heap s) (irGlobalValue sym) = Val (Some name)) as Hname'
    by (by rewrite Hl, linkageName_source).
  unfold linkageName in Hname'.
  unfold cloneGlobalValue, bind, inspect.
  destruct (findDecoration (heap s) isLinkageDecorationOp (irGlobalValue sym))
    as [lk| | |] eqn:Hlk; simpl in Hname' |- *; try done.
  destruct (bool_decide (lk = nullptr)) eqn:Hnull; [done|].
  destruct (deref (heap s) lk) as [ld| | |] eqn:Hld; simpl in Hname'; try done.
  destruct (getStringOperand (heap s) ld) as [mn| | |] eqn:Hmn; simpl in Hname'; try done.
  injection Hname' as ->.
  unfold cloneGlobalValueWithLinkage, bind, derefM, inspect, gets.
  destruct (deref (heap s) (irGlobalValue sym)) as [od| | |] eqn:Hod; simpl;
    try by intros [= <- <-].
  assert (parent od <> moduleInst s) as Hpar.
  { rewrite Hl, deref_source_eq in Hod by done. apply deref_source_in in Hod as (Hod & _).
    destruct (h0_closed od Hod) as (Hp & _). pose proof (inv_module h0 s Hs). lia. }
  rewrite bool_decide_eq_false_2 by done.
  destruct (bool_decide (findClonedValue (envs s) (irGlobalValue sym) = nullptr)) eqn:Hc; simpl.
  2:{ intros [= <- <-] _. apply findClonedValue_known. by apply bool_decide_eq_false in Hc. }
  rewrite Hnull, Hld. simpl. rewrite Hmn. simpl.
  rewrite (TryGetValue_NoDup _ _ _ Hnd Hin).
  destruct (selectBestVal fuel (heap s) (target s) sym) as [best| | |]; simpl;
    try by intros [= <- <-].
  intros Hrun ->.
  pose proof (est_cloneGlobalValueImpl fuel best (fromSymbol sym) s Hs c) as He.
  rewrite Hrun in He. apply (He eq_refl).
  - right. exact HW.
  - intros Hz. by rewrite Hz in Hod.
Qed.

#[local] Hint Resolve spec_cloneGlobalValue spec_cloneWitnessTableImpl : spec.

Lemma spec_witnessTable fuel (x : string * IRSpecSymbol) :
  spec h0 (let '(_, s) := x in
           let* v := derefM (irGlobalValue s) in
           if isOp kIROp_WitnessTable (op v) then
             cloneGlobalValue (cloneInst fuel) fuel (irGlobalValue s) ;; ret tt
           else ret tt) anything.
Proof using h0_closed. destruct x as [name sym]. spec_tac. Qed.

Lemma forEach_witnessTable_registers fuel (l : list (string * IRSpecSymbol)) : forall s,
  Inv h0 s -> tableOK h0 (symbols s) -> (forall x, x ∈ l -> x ∈ symbols s) ->
  let loop := forEach l (fun '(_, s) =>
    let* v := derefM (irGlobalValue s) in
    if isOp kIROp_WitnessTable (op v) then
      cloneGlobalValue (cloneInst fuel) fuel (irGlobalValue s) ;; ret tt
    else ret tt) in
  (loop s).1 = Val tt ->
  forall name sym w, (name, sym) ∈ l ->
    deref h0 (irGlobalValue sym) = Val w -> op w = kIROp_WitnessTable ->
    known (envs (loop s).2) (irGlobalValue sym).
Proof using h0_closed.
  induction l as [|[name0 sym0] l IH]; intros s Hs Hok Hsub loop Hrun name sym w Hin Hw Hop.
  { by apply elem_of_nil in Hin. }
  subst loop. simpl in Hrun |- *.
  destruct (bind_Val _ _ _ _ Hrun) as ([] & Hhead & Heq). rewrite Heq in Hrun |- *.
  destruct (spec_witnessTable fuel (name0, sym0) s Hs) as (HI & HE & _).
  simpl in HI, HE.
  match type of Hhead with (?m s).1 = _ => set (s1 := (m s).2) in * end.
  assert (tableOK h0 (symbols s1)) as Hok1 by (destruct HE as (-> & _); done).
  assert (forall x, x ∈ l -> x ∈ symbols s1) as Hsub1.
  { intros x Hx. destruct HE as (-> & _). apply Hsub. by right. }
  apply elem_of_cons in Hin as [[= -> ->]|Hin].
  2:{ by apply (IH s1 HI Hok1 Hsub1 Hrun name sym w). }
  assert (known (envs s1) (irGlobalValue sym0)) as Hknown.
  { subst s1. revert Hhead. unfold bind at 1 3. unfold derefM, inspect.
    destruct (inv_prefix h0 s Hs) as [l' Hl'].
    pose proof (deref_source_in _ _ Hw) as (_ & Hle & _).
    rewrite Hl', deref_source_eq, Hw by done. simpl.
    rewrite Hop. unfold isOp. rewrite bool_decide_eq_true_2 by done.
    intros Hhead.
    destruct (bind_Val _ _ _ _ Hhead) as (c & Hc & Heq'). rewrite Heq'. simpl.
    eapply cloneGlobalValue_registers; [done|done| |exact Hc]. apply Hsub. by left. }
  assert (spec h0 (forEach l (fun '(_, s) =>
    let* v := derefM (irGlobalValue s) in
    if isOp kIROp_WitnessTable (op v) then
      cloneGlobalValue (cloneInst fuel) fuel (irGlobalValue s) ;; ret tt
    else ret tt)) anything) as Hrest.
  { apply spec_forEach. intros x. apply spec_witnessTable. }
  destruct (Hrest s1 HI) as (_ & (_ & _ & Hkeep) & _). by apply Hkeep.
Qed.

Lemma spec_cloneWitnessTables fuel : spec h0 (cloneWitnessTables fuel) anything.
Proof using h0_closed.
  unfold cloneWitnessTables.
  eapply spec_bind with (Q1 := anything); [by apply spec_gets|]. intros syms _.
  apply spec_forEach. intros x. apply spec_witnessTable.
Qed.

Lemma cloneWitnessTables_registers fuel s :
  Inv h0 s -> tableOK h0 (symbols s) -> (cloneWitnessTables fuel s).1 = Val tt ->
  forall name sym w, (name, sym) ∈ symbols s ->
    deref h0 (irGlobalValue sym) = Val w -> op w = kIROp_WitnessTable ->
    known (envs (cloneWitnessTables fuel s).2) (irGlobalValue sym).
Proof using h0_closed.
  intros Hs Hok Hrun. apply (forEach_witnessTable_registers fuel (symbols s) s); auto.
Qed.

(** *** The entry point and what follows *)

Lemma spec_forEach_in {A : Type} (l : list A) (body : A -> M unit) :
  (forall x, x ∈ l -> spec h0 (body x) anything) -> spec h0 (forEach l body) anything.
Proof using Type.
  induction l as [|x l IH]; intros H; simpl; [by apply spec_ret|].
  eapply spec_bind; [apply H; by left|]. intros _ _. apply IH. intros y Hy. apply H. by right.
Qed.

Lemma enumerate_elem {A : Type} (l : list A) i x : (i, x) ∈ enumerate l -> x ∈ l.
Proof using Type. unfold enumerate. intros H. by apply elem_of_zip_r in H. Qed.

Section Driver.

Hypothesis specializeGeneric_spec :
  forall x, fresh x -> spec h0 (specializeGeneric x) fresh.

Lemma spec_specializeIRForEntryPoint fuel name lay pl :
  spec h0 (specializeIRForEntryPoint fuel name lay pl) fresh.
Proof using h0_closed specializeGeneric_spec.
  unfold specializeIRForEntryPoint.
  eapply spec_bind with (Q1 := anything); [by apply spec_gets|]. intros syms _.
  destruct (TryGetValue syms name) as [sy|]; [|apply spec_raise; discriminate].
  cbv zeta.
  eapply spec_bind; [apply spec_cloneGlobalValue; apply spec_cloneInst|]. intros c0 Hc0.
  eapply spec_bind with (Q1 := anything); [by apply spec_gets|]. intros isSp _.
  eapply spec_bind with (Q1 := fresh).
  { destruct isSp; [by apply specializeGeneric_spec|by apply spec_ret]. }
  intros c Hc. unfold findDecorationM.
  eapply spec_bind with (Q1 := anything); [by apply spec_inspect|]. intros bes _.
  eapply spec_bind with (Q1 := anything).
  { destruct (negb _); [|by apply spec_ret].
    eapply spec_bind with (Q1 := anything); [by apply spec_inspect|]. intros present _.
    case_bool_decide; [|by apply spec_ret].
    eapply spec_bind; [apply spec_cloneInst; sep_facts|]. intros cb Hcb.
    apply spec_moveToStart. sep_facts. }
  intros _ _.
  eapply spec_bind with (Q1 := anything); [by apply spec_gets|]. intros isFunc _.
  destruct (negb isFunc); [apply spec_raise; discriminate|].
  eapply spec_bind; [apply spec_builder|]. intros b Hb.
  eapply spec_bind with (Q1 := anything); [by apply spec_inspect|]. intros ka _.
  eapply spec_bind with (Q1 := anything).
  { case_bool_decide; [apply spec_addKeepAliveDecoration; sep_facts|by apply spec_ret]. }
  intros _ _.
  eapply spec_bind with (Q1 := anything); [apply spec_addLayoutDecoration; sep_facts|].
  intros _ _.
  eapply spec_bind; [apply spec_derefM|]. intros f Hf.
  eapply spec_bind with (Q1 := fresh0 n0).
  { apply spec_gets. intros s _. apply getFirstChild_fresh0. sep_facts. }
  intros fb Hfb.
  eapply spec_bind with (Q1 := anything).
  { destruct (negb _); [|by apply spec_ret].
    eapply spec_bind; [apply spec_derefM|]. intros blk Hblk.
    eapply spec_bind with (Q1 := Forall (fresh0 n0)).
    { apply spec_gets. intros s _. unfold getParams.
      apply Forall_takeWhile, getChildren_fresh0. sep_facts. }
    intros params Hparams. apply spec_forEach_in. intros [i pp] Hin.
    apply enumerate_elem in Hin. destruct (pl !! i); [|apply spec_raise; discriminate].
    apply spec_addLayoutDecoration. by eapply Forall_forall in Hparams. }
  intros _ _. by apply spec_ret.
Qed.

Lemma spec_linkIR_finish fuel input : spec h0 (linkIR_finish fuel input) anything.
Proof using h0_closed.
  unfold linkIR_finish.
  eapply spec_bind; [apply spec_derefM|]. intros pd Hpd.
  eapply spec_bind with (Q1 := anything); [by apply spec_gets|]. intros globals _.
  eapply spec_bind with (Q1 := anything).
  { apply spec_forEach. intros i. spec_tac. }
  intros _ _.
  eapply spec_bind with (Q1 := anything); [by apply spec_gets|]. intros globals' _.
  eapply spec_bind with (Q1 := anything).
  { apply spec_forEach. intros i. spec_tac. }
  intros _ _.
  apply spec_forEach. intros [name layout].
  eapply spec_bind with (Q1 := anything); [by apply spec_gets|]. intros syms _.
  destruct (TryGetValue syms name) as [sy|]; [|by apply spec_ret].
  eapply spec_bind; [apply spec_findClonedValue|]. intros c Hc.
  case_bool_decide; [by apply spec_ret|]. spec_tac.
Qed.

(** Every witness table at the head of an entry of the symbol table is
    registered when the loop over the table is done, and still is when the
    link returns. *)
Lemma linkIR_registers fuel input t out s' :
  linkIR fuel input (initialState h0 t) = (Val out, s') ->
  exists s2,
    (linkIR_collect input ;; cloneWitnessTables fuel) (initialState h0 t) = (Val tt, s2) /\
    symbols s' = symbols s2 /\
    forall name sym w, (name, sym) ∈ symbols s2 ->
      deref h0 (irGlobalValue sym) = Val w -> op w = kIROp_WitnessTable ->
      n0 < findClonedValue (envs s2) (irGlobalValue sym) /\
      n0 < findClonedValue (envs s') (irGlobalValue sym).
Proof using h0_closed specializeGeneric_spec.
  intros Hrun. unfold linkIR in Hrun.
  assert (((linkIR_collect input ;;
           cloneWitnessTables fuel ;;
           let* irEntryPoint := specializeIRForEntryPoint fuel (entryPointMangledName input)
                                  (entryPointLayout input) (paramLayouts input) in
           linkIR_finish fuel input ;;
           let* m := gets moduleInst in ret (mkLinkedIR m irEntryPoint))
            (initialState h0 t)).1 = Val out) as Hout by (by rewrite Hrun).
  destruct (bind_Val _ _ _ _ Hout) as ([] & Hcollect & Heq1).
  rewrite Heq1 in Hrun, Hout.
  destruct (linkIR_collect_Inv input t _ tt eq_refl Hcollect) as [Hs1 Hok1].
  set (s1 := (linkIR_collect input (initialState h0 t)).2) in *.
  destruct (bind_Val _ _ _ _ Hout) as ([] & Hloop & Heq2).
  rewrite Heq2 in Hrun, Hout.
  destruct (spec_cloneWitnessTables fuel s1 Hs1) as (Hs2 & HE12 & _).
  pose proof (cloneWitnessTables_registers fuel s1 Hs1 Hok1 Hloop) as Hreg.
  set (s2 := (cloneWitnessTables fuel s1).2) in *.
  assert (spec h0
    (let* irEntryPoint := specializeIRForEntryPoint fuel (entryPointMangledName input)
                            (entryPointLayout input) (paramLayouts input) in
     linkIR_finish fuel input ;;
     let* m := gets moduleInst in ret (mkLinkedIR m irEntryPoint)) anything) as Hrest.
  { eapply spec_bind; [apply spec_specializeIRForEntryPoint|]. intros e _.
    eapply spec_bind with (Q1 := anything); [apply spec_linkIR_finish|]. intros _ _.
    spec_tac. }
  destruct (Hrest s2 Hs2) as (Hs' & HE2' & _). rewrite Hrun in Hs', HE2'. simpl in Hs', HE2'.
  exists s2. split.
  { exact (bind_run _ (fun _ => cloneWitnessTables fuel) _ tt tt Hcollect Hloop). }
  split; [by destruct HE2' as (-> & _)|].
  intros name sym w Hin Hw Hop.
  assert (known (envs s2) (irGlobalValue sym)) as Hk.
  { apply (Hreg name sym w); [|done|done]. destruct HE12 as (Hsym & _). by rewrite <- Hsym. }
  split; [by apply known_findClonedValue|].
  apply known_findClonedValue; [done|]. destruct HE2' as (_ & _ & Hkeep). by apply Hkeep.
Qed.

End Driver.

End Separation.

(** A closed arena, checked instruction by instruction. *)
Lemma closedSource_Forall (h : Heap) :
  Forall (fun d => parent d <= length h /\
                   Forall (fun c => c <= length h) (operands d) /\
                   Forall (fun c => c <= length h) (decorationsAndChildren d)) h ->
  closedSource h.
Proof. intros H d Hd. by eapply Forall_forall in H. Qed.

Lemma run_Val {A : Type} (m : M A) s a : (m s).1 = Val a -> m s = (Val a, (m s).2).
Proof. destruct (m s) as [r s1]. simpl. by intros ->. Qed.

Lemma spec_noSpecialize h x : length h < x -> spec h (noSpecialize x) (fun c => length h < c).
Proof. intros Hx. by apply spec_ret. Qed.


(** ** Two functions that call each other are cloned once each *)

Section Mutual.

Lemma runs_ret {A : Type} (a : A) s : runs (ret a) s a s.
Proof. reflexivity. Qed.

Lemma runs_bind {A B : Type} (m : M A) (k : A -> M B) s a s1 b s2 :
  runs m s a s1 -> runs (k a) s1 b s2 -> runs (bind m k) s b s2.
Proof. unfold runs, bind. by intros ->. Qed.

Lemma runs_gets {A : Type} (f : LinkState -> A) s : runs (gets f) s (f s) s.
Proof. reflexivity. Qed.

Lemma runs_modify f s : runs (modify f) s tt (f s).
Proof. reflexivity. Qed.

Lemma runs_inspect {A : Type} (f : LinkState -> Outcome A) s a :
  f s = Val a -> runs (inspect f) s a s.
Proof. unfold runs, inspect. by intros ->. Qed.

Lemma runs_allocInst d s :
  runs (allocInst d) s (S (length (heap s))) (setHeap (heap s ++ [d]) s).
Proof. reflexivity. Qed.

(** Reading and writing an arena [h ++ l] behind and inside [h]. *)
Lemma deref_dst (h l : Heap) k :
  deref (h ++ l) (S (length h + k)) = match l !! k with Some d => Val d | None => Fault end.
Proof.
  unfold deref. rewrite lookup_app_r by lia.
  by replace (length h + k - length h) with k by lia.
Qed.

Lemma deref_null (h : Heap) : deref h nullptr = Fault.
Proof. reflexivity. Qed.

Lemma deref_src (h l : Heap) p d : deref h p = Val d -> deref (h ++ l) p = Val d.
Proof.
  destruct p as [|i]; [done|]. unfold deref. destruct (h !! i) as [x|] eqn:E; [|done].
  intros [= <-]. by rewrite (lookup_app_l_Some _ _ _ _ E).
Qed.

Lemma insert_dst (h l : Heap) k d : <[length h + k := d]> (h ++ l) = h ++ <[k := d]> l.
Proof.
  rewrite insert_app_r_alt by lia. by replace (length h + k - length h) with k by lia.
Qed.

Lemma cloneValue_S fuel x :
  cloneValue (S fuel) x = cloneValue_body (cloneValue fuel) (cloneInst fuel) fuel x.
Proof. reflexivity. Qed.

Lemma cloneInst_S fuel bb x o :
  cloneInst (S fuel) bb x o = cloneInst_body (cloneValue fuel) (cloneInst fuel) bb x o.
Proof. reflexivity. Qed.

Lemma forEach_cons {A : Type} (x : A) l (body : A -> M unit) :
  forEach (x :: l) body = (body x ;; forEach l body).
Proof. reflexivity. Qed.

(** The run of a monadic term from a state of the form [h ++ l], step by
    step: the state and the arena are brought to normal form, and the
    term at the head decides the step. *)
#[local] Arguments cloneValue : simpl never.
#[local] Arguments cloneInst : simpl never.
#[local] Arguments bind : simpl never.
#[local] Arguments ret : simpl never.
#[local] Arguments gets : simpl never.
#[local] Arguments modify : simpl never.
#[local] Arguments inspect : simpl never.
#[local] Arguments raise : simpl never.
#[local] Arguments allocInst : simpl never.
#[local] Arguments derefM : simpl never.
#[local] Arguments forEach : simpl never.
#[local] Arguments SLANG_ASSERT : simpl never.
#[local] Arguments deref : simpl never.

Ltac plia :=
  repeat match goal with
         | H : _ <> _ |- _ => clear H
         | H : deref _ _ = _ |- _ => clear H
         end;
  lia.

Ltac dec_bools :=
  repeat match goal with
  | |- context [bool_decide ?P] =>
      first [ rewrite (bool_decide_eq_true_2 P) by (first [reflexivity | assumption | plia])
            | rewrite (bool_decide_eq_false_2 P)
                by (first [discriminate | assumption | plia | congruence]) ]
  end.

Ltac state_norm :=
  unfold setHeap, setSymbols, setBuilderStorage, setNumbering, setEnvs, setBuilder,
    setGlobalVarLayouts, setInsertInto, withParent, withChildren, withType, withOperands,
    withSourceLoc;
  cbn [heap target moduleInst symbols builderStorage globalValueNumberingMap envs builder
       globalVarLayouts insertIntoParent op typeUse operands parent decorationsAndChildren
       value sourceLoc].

Ltac src_derefs :=
  match goal with
  | H : deref ?h ?p = Val ?d |- context [deref (?h ++ ?l) ?p] => rewrite (deref_src h l p d H)
  end.

Ltac map_lookups :=
  first [ rewrite lookup_empty
        | rewrite lookup_insert_eq
        | rewrite lookup_insert_ne by (first [assumption | congruence]) ].

Ltac norm :=
  state_norm;
  repeat first
    [ rewrite length_app
    | rewrite <- app_assoc
    | rewrite deref_dst
    | rewrite insert_dst
    | rewrite deref_null
    | rewrite filter_nil
    | rewrite filter_cons_True by plia
    | rewrite filter_cons_False by plia
    | src_derefs
    | map_lookups
    | progress unfold asOp, parentOf, isOp, emptyModule, findDecoration, linkageName,
        getDecorations, getChildren, getFirstChild, getLastChild, getNextInst,
        getStringOperand, getOperand, getDataType, getRate,
        mergeCandidateParentsForHoistableInst
    | progress simpl
    | progress dec_bools ].

Ltac head_of t := lazymatch t with ?f _ => head_of f | _ => t end.

Ltac run :=
  lazymatch goal with
  | |- runs _ ?s _ _ =>
      tryif is_evar s then idtac else
      (norm; state_norm;
       lazymatch goal with
       | |- runs (ret _) _ _ _ => apply runs_ret
       | |- runs (bind _ _) _ _ _ => eapply runs_bind; [run | cbv beta; run]
       | |- runs (gets _) _ _ _ => apply runs_gets
       | |- runs (modify _) _ _ _ => apply runs_modify
       | |- runs (derefM _) _ _ _ => unfold derefM; apply runs_inspect; norm; reflexivity
       | |- runs (inspect _) _ _ _ => apply runs_inspect; norm; reflexivity
       | |- runs (allocInst _) _ _ _ => apply runs_allocInst
       | |- runs (forEach [] _) _ _ _ => apply runs_ret
       | |- runs (forEach (_ :: _) _) _ _ _ => rewrite forEach_cons; run
       | |- runs (SLANG_ASSERT true) _ _ _ => apply runs_ret
       | |- runs (cloneValue (S _) _) _ _ _ => rewrite cloneValue_S; run
       | |- runs (cloneInst (S _) _ _ _) _ _ _ => rewrite cloneInst_S; run
       | |- runs ?m _ _ _ => let f := head_of m in progress unfold f; run
       end)
  end.

(** The run for the two functions, with the module at [length h + 0]. *)
Lemma mutual_run (h : Heap) t syms lay (a blkA callA b blkB callB kA kB : nat)
    (pA lA pbA tbA lbA pcA lcA pB lB pbB tbB lbB pcB lcB : nat)
    (oA obA oB obB : list nat) (vA vbA vcA vB vbB vcB : IRConstantValue) fuel :
  deref h a = Val (mkInst kIROp_Func 0 oA pA [blkA] vA lA) ->
  deref h blkA = Val (mkInst kIROp_Block tbA obA pbA [callA] vbA lbA) ->
  deref h callA = Val (mkInst (kIROp_Other kA) 0 [b] pcA [] vcA lcA) ->
  deref h b = Val (mkInst kIROp_Func 0 oB pB [blkB] vB lB) ->
  deref h blkB = Val (mkInst kIROp_Block tbB obB pbB [callB] vbB lbB) ->
  deref h callB = Val (mkInst (kIROp_Other kB) 0 [a] pcB [] vcB lcB) ->
  pA <= length h -> pB <= length h -> a <> b ->
  let final :=
    mkState
      (h ++
       [ mkInst kIROp_Module 0 [] 0
           [S (length h + 2); S (length h + 5); S (length h + 1)] NoValue 0;
         mkInst kIROp_Func 0 [] (S (length h + 0)) [S (length h + 3)] NoValue lA;
         mkInst kIROp_BasicBlockType 0 [] (S (length h + 0)) [] NoValue 0;
         mkInst kIROp_Block (S (length h + 2)) [] (S (length h + 1)) [S (length h + 4)]
           NoValue 0;
         mkInst (kIROp_Other kA) 0 [S (length h + 5)] (S (length h + 3)) [] NoValue lcA;
         mkInst kIROp_Func 0 [] (S (length h + 0)) [S (length h + 6)] NoValue lB;
         mkInst kIROp_Block (S (length h + 2)) [] (S (length h + 5)) [S (length h + 7)]
           NoValue 0;
         mkInst (kIROp_Other kB) 0 [S (length h + 1)] (S (length h + 6)) [] NoValue lcB ])
      t (S (length h + 0)) syms (mkBuilder (S (length h + 0)))
      [((kIROp_BasicBlockType, 0, [], NoValue), S (length h + 2))]
      [<[callB := S (length h + 7)]> (<[blkB := S (length h + 6)]> (<[b := S (length h + 5)]>
         (<[callA := S (length h + 4)]> (<[blkA := S (length h + 3)]>
            (<[a := S (length h + 1)]> ∅)))))]
      (mkBuilder (S (length h + 0))) lay in
  runs (cloneValue (7 + fuel) a)
    (mkState (h ++ [emptyModule]) t (S (length h + 0)) syms (mkBuilder (S (length h + 0))) []
       [∅] (mkBuilder (S (length h + 0))) lay)
    (S (length h + 1)) final /\
  findClonedValue (envs final) a = S (length h + 1) /\
  findClonedValue (envs final) b = S (length h + 5) /\
  (forall fuel', runs (cloneValue (S fuel') a) final (S (length h + 1)) final) /\
  (forall fuel', runs (cloneValue (S fuel') b) final (S (length h + 5)) final).
Proof.
  intros Ha HblkA HcallA Hb HblkB HcallB HpA HpB Hab.
  assert (a <> 0) by (intros ->; discriminate).
  assert (b <> 0) by (intros ->; discriminate).
  assert (blkA <> 0) by (intros ->; discriminate).
  assert (blkB <> 0) by (intros ->; discriminate).
  assert (callA <> 0) by (intros ->; discriminate).
  assert (callB <> 0) by (intros ->; discriminate).
  assert (a <> blkA) by (intros ->; rewrite Ha in HblkA; discriminate).
  assert (a <> callA) by (intros ->; rewrite Ha in HcallA; discriminate).
  assert (a <> blkB) by (intros ->; rewrite Ha in HblkB; discriminate).
  assert (a <> callB) by (intros ->; rewrite Ha in HcallB; discriminate).
  assert (b <> blkA) by (intros ->; rewrite Hb in HblkA; discriminate).
  assert (b <> callA) by (intros ->; rewrite Hb in HcallA; discriminate).
  assert (b <> blkB) by (intros ->; rewrite Hb in HblkB; discriminate).
  assert (b <> callB) by (intros ->; rewrite Hb in HcallB; discriminate).
  intros final. subst final. split; [|split; [|split; [|split]]].
  - cbn [Nat.add]. run.
  - norm. reflexivity.
  - norm. reflexivity.
  - intros fuel'. run.
  - intros fuel'. run.
Qed.


End Mutual.

(** * Further properties of the link *)

(** ** The ranking is a strict order *)

Lemma rankKey_inj (a b : Rank) : rankKey a = rankKey b -> a = b.
Proof.
  destruct a as [[] [] []], b as [[] [] []]; cbv; intros H;
    first [reflexivity | discriminate H].
Qed.

(** X1. [isBetterForTarget] is a strict order on the declarations it can
    rank: no declaration is better than itself, of two declarations at
    most one is better than the other, better is transitive, and two
    declarations neither of which is better agree on all it compares. *)
Theorem isBetterForTarget_is_strict_order fuel h t targetName (a b c : IRInst)
    (ra rb rc : Rank) :
  getTargetName t = Val targetName ->
  rankOf fuel h targetName a = Val ra ->
  rankOf fuel h targetName b = Val rb ->
  rankOf fuel h targetName c = Val rc ->
  isBetterForTarget fuel h t a a = Val false /\
  (isBetterForTarget fuel h t a b = Val true -> isBetterForTarget fuel h t b a = Val false) /\
  (isBetterForTarget fuel h t a b = Val true -> isBetterForTarget fuel h t b c = Val true ->
   isBetterForTarget fuel h t a c = Val true) /\
  (isBetterForTarget fuel h t a b = Val false -> isBetterForTarget fuel h t b a = Val false ->
   ra = rb).
Proof.
  clear DEBUG specializeGeneric.
  intros Ht Ha Hb Hc.
  rewrite (isBetterForTarget_rank fuel h t targetName a a ra ra Ht Ha Ha).
  rewrite (isBetterForTarget_rank fuel h t targetName a b ra rb Ht Ha Hb).
  rewrite (isBetterForTarget_rank fuel h t targetName b a rb ra Ht Hb Ha).
  rewrite (isBetterForTarget_rank fuel h t targetName b c rb rc Ht Hb Hc).
  rewrite (isBetterForTarget_rank fuel h t targetName a c ra rc Ht Ha Hc).
  repeat split.
  - by rewrite bool_decide_eq_false_2 by lia.
  - intros [= H]. apply bool_decide_eq_true in H. by rewrite bool_decide_eq_false_2 by lia.
  - intros [= H1] [= H2]. apply bool_decide_eq_true in H1, H2.
    by rewrite bool_decide_eq_true_2 by lia.
  - intros [= H1] [= H2]. apply bool_decide_eq_false in H1, H2.
    apply rankKey_inj. lia.
Qed.

(** ** The level of a declaration that is no generic *)

Lemma isTargetDecorationFor_is_target h targetName dd :
  isTargetDecorationFor h targetName dd -> isTargetDecoration h dd.
Proof. intros (d & Hd & Hop & _). by exists d. Qed.

Lemma scanTargetDecorations_cases h targetName ds : forall r0 r,
  scanTargetDecorations h targetName r0 ds = Val r ->
  (r = specializedForTarget /\ exists dd, dd ∈ ds /\ isTargetDecorationFor h targetName dd) \/
  (r = specializedForOtherTarget /\
     (forall dd, dd ∈ ds -> ~ isTargetDecorationFor h targetName dd) /\
     exists dd, dd ∈ ds /\ isTargetDecoration h dd) \/
  (r = r0 /\ forall dd, dd ∈ ds -> ~ isTargetDecoration h dd).
Proof.
  induction ds as [|dd ds IH]; intros r0 r H; simpl in H.
  - inversion H; subst. right; right. split; [done|].
    intros dd Hdd. by apply elem_of_nil in Hdd.
  - destruct (deref h dd) as [deco| | |] eqn:Hdeco; simpl in H; try discriminate.
    unfold isOp in H.
    destruct (bool_decide (op deco = kIROp_TargetDecoration)) eqn:Hop; simpl in H.
    2:{ apply bool_decide_eq_false in Hop.
        assert (~ isTargetDecoration h dd) as Hno.
        { intros (d & Hd & Hopd). rewrite Hdeco in Hd. by inversion Hd; subst. }
        destruct (IH _ _ H) as [(-> & x & Hx & Hfor)|[(-> & Hnone & x & Hx & Htd)|(-> & Hnone)]].
        - left. split; [done|]. exists x. split; [by right|done].
        - right; left. split; [done|]. split.
          + intros y Hy. apply elem_of_cons in Hy as [->|Hy]; [|by apply Hnone].
            intros Hfor. by apply Hno, (isTargetDecorationFor_is_target h targetName).
          + exists x. split; [by right|done].
        - right; right. split; [done|].
          intros y Hy. apply elem_of_cons in Hy as [->|Hy]; [done|by apply Hnone]. }
    apply bool_decide_eq_true in Hop.
    destruct (getStringOperand h deco) as [name| | |] eqn:Hname; simpl in H; try discriminate.
    assert (isTargetDecoration h dd) as Htd by (by exists deco).
    case_bool_decide as Heq.
    + inversion H; subst. left. split; [done|]. exists dd. split; [by left|]. by exists deco.
    + assert (~ isTargetDecorationFor h targetName dd) as Hno.
      { intros (d & Hd & _ & Hn). rewrite Hdeco in Hd. inversion Hd; subst.
        rewrite Hname in Hn. by inversion Hn. }
      destruct (IH _ _ H) as [(-> & x & Hx & Hfor)|[(-> & Hnone & x & Hx & Htdx)|(-> & Hnone)]].
      * left. split; [done|]. exists x. split; [by right|done].
      * right; left. split; [done|]. split.
        -- intros y Hy. apply elem_of_cons in Hy as [->|Hy]; [done|by apply Hnone].
        -- exists dd. split; [by left|done].
      * right; left. split; [done|]. split.
        -- intros y Hy. apply elem_of_cons in Hy as [->|Hy]; [done|].
           intros Hfor. by apply (Hnone y Hy), (isTargetDecorationFor_is_target h targetName).
        -- exists dd. split; [by left|done].
Qed.

(** X2. The level of a declaration is read off the decorations of the
    value it stands for (the value a generic returns, or the declaration
    itself): it is [specializedForTarget] exactly when one of them is a
    target decoration that names the target, and [notSpecialized] exactly
    when none of them is a target decoration. *)
Theorem level_is_read_off_the_target_decorations fuel h (v v' : IRInst) targetName d r :
  returnedByGeneric fuel h v = Val v' ->
  deref h v' = Val d ->
  getTargetSpecialiationLevel fuel h v targetName = Val r ->
  (r = specializedForTarget <->
     exists dd, dd ∈ getDecorations h d /\ isTargetDecorationFor h targetName dd) /\
  (r = notSpecialized <->
     forall dd, dd ∈ getDecorations h d -> ~ isTargetDecoration h dd).
Proof.
  clear DEBUG specializeGeneric isDefinition.
  intros Hv Hd H. unfold getTargetSpecialiationLevel in H.
  rewrite Hv in H. simpl in H. rewrite Hd in H. simpl in H.
  destruct (scanTargetDecorations_cases _ _ _ _ _ H)
    as [(-> & x & Hx & Hfor)|[(-> & Hnone & x & Hx & Htd)|(-> & Hnone)]].
  - split; split; try done.
    + intros _. by exists x.
    + intros Hno. exfalso.
      by apply (Hno x Hx), (isTargetDecorationFor_is_target h targetName).
  - split; split; try done.
    + intros (y & Hy & Hfor). by destruct (Hnone y Hy).
    + intros Hno. by destruct (Hno x Hx).
  - split; split; try done.
    intros (y & Hy & Hfor). exfalso.
    by apply (Hnone y Hy), (isTargetDecorationFor_is_target h targetName).
Qed.

(** ** When the choice of a declaration fails *)

Lemma isBetterForTarget_Unexpected fuel h t newVal oldVal msg :
  isBetterForTarget fuel h t newVal oldVal = Unexpected msg ->
  getTargetName t = Unexpected msg.
Proof.
  clear DEBUG specializeGeneric.
  unfold isBetterForTarget. intros H.
  apply obind_Unexpected in H as [H|(n & _ & H)]; [done|]. exfalso.
  apply obind_Unexpected in H as [H|(l1 & _ & H)];
    [by apply getTargetSpecialiationLevel_noThrow in H|].
  apply obind_Unexpected in H as [H|(l2 & _ & H)];
    [by apply getTargetSpecialiationLevel_noThrow in H|].
  case_bool_decide; [discriminate|].
  apply obind_Unexpected in H as [H|(e1 & _ & H)]; [by apply findDecoration_noThrow in H|].
  apply obind_Unexpected in H as [H|(e2 & _ & H)]; [by apply findDecoration_noThrow in H|].
  cbv zeta in H. repeat case_bool_decide; discriminate.
Qed.

Lemma bestValAmong_Unexpected fuel h t ss : forall bestVal msg,
  bestValAmong fuel h t bestVal ss = Unexpected msg ->
  ss <> [] /\ getTargetName t = Unexpected msg.
Proof.
  clear DEBUG specializeGeneric.
  induction ss as [|newVal ss IH]; intros bestVal msg H; simpl in H; [done|].
  split; [done|].
  apply obind_Unexpected in H as [H|(b & _ & H)];
    [by apply isBetterForTarget_Unexpected in H|].
  by destruct (IH _ _ H).
Qed.

(** X3. The choice among the declarations of a name throws in exactly one
    case: the name has more than one declaration and the target is none
    of HLSL, GLSL, C and C++; the message is then "unhandled case". A name
    with one declaration is never a cause, whatever the target. *)
Theorem selection_throws_iff_target_is_unnamed fuel h t (s : IRSpecSymbol) msg :
  selectBestVal fuel h t s = Unexpected msg <->
  msg = "unhandled case" /\ nextWithSameName s <> None /\
  t ∉ [CodeGenTarget.HLSL; CodeGenTarget.GLSL; CodeGenTarget.CSource; CodeGenTarget.CPPSource].
Proof.
  clear DEBUG specializeGeneric.
  unfold selectBestVal. split.
  - intros H. apply bestValAmong_Unexpected in H as [Hne Ht].
    split; [by apply getTargetName_throws in Ht|]. split.
    + intros Hnone. rewrite Hnone in Hne. done.
    + intros Hin. repeat (apply elem_of_cons in Hin as [->|Hin]; [discriminate Ht|]).
      by apply elem_of_nil in Hin.
  - intros (-> & Hnext & Ht).
    destruct (nextWithSameName s) as [s2|]; [|done]. simpl.
    destruct s2 as [v2 next2]. simpl. unfold isBetterForTarget.
    destruct t; simpl; try reflexivity; exfalso; apply Ht; set_solver.
Qed.

(** ** What the first steps of the link collect *)

Lemma mergeValues_nil_r old : mergeValues old [] = old.
Proof. by destruct old. Qed.

Lemma mergeValues_storedOrder (decls new : list IRInst) :
  mergeValues (storedOrder decls) new = storedOrder (decls ++ new).
Proof.
  destruct decls as [|d0 rest]; simpl; [done|]. by rewrite reverse_app.
Qed.

Lemma insertGlobalValueSymbols_valuesOf h syms m syms' name :
  insertGlobalValueSymbols h syms m = Val syms' ->
  valuesOf syms' name = mergeValues (valuesOf syms name) (namedGlobalsOf h name m).
Proof.
  unfold insertGlobalValueSymbols, namedGlobalsOf. case_bool_decide.
  - intros [= <-]. by rewrite mergeValues_nil_r.
  - destruct (deref h m) as [md| | |]; simpl; try discriminate.
    apply insertAll_valuesOf.
Qed.

Lemma insertGlobalValueSymbolsM_run m s a :
  (insertGlobalValueSymbolsM m s).1 = Val a ->
  exists syms', insertGlobalValueSymbols (heap s) (symbols s) m = Val syms' /\
                insertGlobalValueSymbolsM m s = (Val tt, setSymbols syms' s).
Proof.
  unfold insertGlobalValueSymbolsM, bind, inspect, modify.
  destruct (insertGlobalValueSymbols (heap s) (symbols s) m) as [syms'| | |];
    simpl; try discriminate.
  intros _. by exists syms'.
Qed.

Lemma forEach_insertGlobalValueSymbolsM_run ms : forall s a,
  (forEach ms insertGlobalValueSymbolsM s).1 = Val a ->
  exists syms', forEach ms insertGlobalValueSymbolsM s = (Val tt, setSymbols syms' s) /\
    forall name decls,
      valuesOf (symbols s) name = storedOrder decls ->
      valuesOf syms' name =
        storedOrder (decls ++ concat (map (namedGlobalsOf (heap s) name) ms)).
Proof.
  induction ms as [|m ms IH]; intros s a H.
  - exists (symbols s). split; [by destruct s|]. intros name decls Hd. simpl.
    by rewrite app_nil_r.
  - simpl in H |- *. destruct (bind_Val _ _ _ _ H) as (a1 & H1 & Heq).
    destruct (insertGlobalValueSymbolsM_run m s a1 H1) as (syms1 & Hins & Hrun1).
    rewrite Heq in H |- *. rewrite Hrun1 in H |- *. simpl in H |- *.
    destruct (IH _ _ H) as (syms' & Hrun & Hvals).
    exists syms'. split; [by rewrite Hrun|].
    intros name decls Hd. rewrite app_assoc. apply Hvals. simpl.
    rewrite (insertGlobalValueSymbols_valuesOf _ _ _ _ name Hins), Hd.
    apply mergeValues_storedOrder.
Qed.

Lemma TryGetValue_app {V : Type} (d1 d2 : Dictionary V) k :
  TryGetValue (d1 ++ d2) k =
  match TryGetValue d1 k with Some v => Some v | None => TryGetValue d2 k end.
Proof.
  induction d1 as [|[k1 v1] d1 IH]; simpl; [done|]. by case_bool_decide.
Qed.

Lemma TryGetValue_AddIfNotExists {V : Type} (d : Dictionary V) k v k' :
  TryGetValue (AddIfNotExists d k v) k' = TryGetValue (d ++ [(k, v)]) k'.
Proof.
  unfold AddIfNotExists, Add. destruct (TryGetValue d k) as [x|] eqn:E; [|done].
  rewrite TryGetValue_app. destruct (TryGetValue d k') as [y|] eqn:E'; [done|].
  simpl. case_bool_decide; [|done]. subst. congruence.
Qed.

Lemma addGlobalVarLayouts_run entries : forall s,
  exists lay, addGlobalVarLayouts entries s = (Val tt, setGlobalVarLayouts lay s) /\
    forall k, TryGetValue lay k = TryGetValue (globalVarLayouts s ++ entries) k.
Proof.
  unfold addGlobalVarLayouts.
  induction entries as [|[k0 v0] entries IH]; intros s.
  - exists (globalVarLayouts s). split; [by destruct s|]. intros k. by rewrite app_nil_r.
  - simpl. unfold bind at 1, modify at 1.
    destruct (IH (setGlobalVarLayouts (AddIfNotExists (globalVarLayouts s) k0 v0) s))
      as (lay & Hrun & Hlay).
    exists lay. split; [by rewrite Hrun|].
    intros k. rewrite Hlay. simpl.
    rewrite TryGetValue_app, TryGetValue_AddIfNotExists, !TryGetValue_app. simpl.
    destruct (TryGetValue (globalVarLayouts s) k); [done|]. by case_bool_decide.
Qed.

(** The state in which the first steps of [linkIR] end when they return:
    the arena is the source arena and the empty module, nothing is cloned,
    and the symbol table and the layouts are those of the input. *)
Lemma linkIR_collect_run input h t s1 :
  linkIR_collect input (initialState h t) = (Val tt, s1) ->
  s1 = freshState h t (symbols s1) (globalVarLayouts s1) /\
  (forall name,
     valuesOf (symbols s1) name =
     storedOrder (concat (map (namedGlobalsOf (h ++ [emptyModule]) name)
                            (originalProgramIRModule input :: moduleDependencies input)))) /\
  (forall name,
     TryGetValue (globalVarLayouts s1) name =
     TryGetValue (globalScopeVarLayouts input ++ entryPointGroupVarLayouts input) name).
Proof.
  clear DEBUG specializeGeneric isDefinition.
  unfold linkIR_collect. intros Hrun.
  assert (Hfst := f_equal fst Hrun). simpl in Hfst.
  destruct (bind_Val _ _ _ _ Hfst) as ([] & _ & Heq). rewrite Heq in Hrun. clear Heq Hfst.
  change (initializeSharedSpecContext nullptr (initialState h t)).2
    with (mkState (h ++ [emptyModule]) t (S (length h)) [] (mkBuilder nullptr) [] [∅]
            (mkBuilder nullptr) []) in Hrun.
  set (s0 := mkState _ _ _ _ _ _ _ _ _) in Hrun.
  change (insertGlobalValueSymbolsM (originalProgramIRModule input) ;;
          forEach (moduleDependencies input) insertGlobalValueSymbolsM ;; ?k)
    with (bind (insertGlobalValueSymbolsM (originalProgramIRModule input))
            (fun _ => bind (forEach (moduleDependencies input) insertGlobalValueSymbolsM)
                        (fun _ => k))) in Hrun.
  assert (Hfst := f_equal fst Hrun). simpl in Hfst.
  destruct (bind_Val _ _ _ _ Hfst) as (a1 & H1 & Heq). rewrite Heq in Hrun. clear Heq Hfst.
  destruct (forEach_insertGlobalValueSymbolsM_run [originalProgramIRModule input] s0 tt)
    as (syms1 & Hrun1 & Hvals1).
  { simpl. unfold bind at 1. destruct (insertGlobalValueSymbolsM _ s0) as [r sx]; simpl in *.
    by subst r. }
  simpl in Hrun1. unfold bind at 1 in Hrun1.
  destruct (insertGlobalValueSymbolsM (originalProgramIRModule input) s0) as [r sx] eqn:E1.
  simpl in H1. subst r. simpl in Hrun1. injection Hrun1 as ->. simpl in Hrun.
  assert (Hfst := f_equal fst Hrun). simpl in Hfst.
  destruct (bind_Val _ _ _ _ Hfst) as (a2 & H2 & Heq). rewrite Heq in Hrun. clear Heq Hfst.
  destruct (forEach_insertGlobalValueSymbolsM_run _ _ _ H2) as (syms2 & Hrun2 & Hvals2).
  rewrite Hrun2 in Hrun. simpl in Hrun.
  unfold bind at 1 in Hrun.
  destruct (addGlobalVarLayouts_run (globalScopeVarLayouts input)
              (setSymbols syms2 (setSymbols syms1 s0))) as (lay1 & Hl1 & Hlay1).
  rewrite Hl1 in Hrun. unfold bind at 1 in Hrun.
  destruct (addGlobalVarLayouts_run (entryPointGroupVarLayouts input)
              (setGlobalVarLayouts lay1 (setSymbols syms2 (setSymbols syms1 s0))))
    as (lay2 & Hl2 & Hlay2).
  rewrite Hl2 in Hrun. injection Hrun as <-. simpl. split; [done|]. split.
  - intros name. simpl.
    rewrite (Hvals2 name _ (Hvals1 name [] eq_refl)). simpl. by rewrite app_nil_r.
  - intros name. rewrite Hlay2. simpl. rewrite TryGetValue_app, Hlay1. simpl.
    by rewrite TryGetValue_app.
Qed.

(** X4. The chain the link keeps for a name holds exactly the globals
    with that linkage name of the module of the program and of the modules
    it depends on, each as often as it is listed (a null module and a
    global without linkage add nothing): with the modules taken in the
    order program then dependencies, the first declaration of the name is
    the head of the chain, and the others follow it last first. *)
Theorem symbol_table_holds_every_declaration input h t s1 name :
  linkIR_collect input (initialState h t) = (Val tt, s1) ->
  heap s1 = h ++ [emptyModule] /\
  valuesOf (symbols s1) name =
    storedOrder (concat (map (namedGlobalsOf (heap s1) name)
                           (originalProgramIRModule input :: moduleDependencies input))).
Proof.
  intros Hrun. destruct (linkIR_collect_run _ _ _ _ Hrun) as (Hs1 & Hvals & _).
  assert (heap s1 = h ++ [emptyModule]) as Hheap by (by rewrite Hs1).
  split; [done|]. rewrite Hheap. exact (Hvals name).
Qed.

(** X5. The layout the link keeps for the mangled name of a global
    parameter is the first one listed for it, the entries of the global
    scope before those of the entry-point group: an entry of the group
    never replaces one of the global scope, and a name listed in neither
    has no layout. *)
Theorem global_scope_layout_comes_first input h t s1 name :
  linkIR_collect input (initialState h t) = (Val tt, s1) ->
  TryGetValue (globalVarLayouts s1) name =
  match TryGetValue (globalScopeVarLayouts input) name with
  | Some layout => Some layout
  | None => TryGetValue (entryPointGroupVarLayouts input) name
  end.
Proof.
  intros Hrun. destruct (linkIR_collect_run _ _ _ _ Hrun) as (_ & _ & Hlay).
  by rewrite Hlay, TryGetValue_app.
Qed.

(** ** What cloning leaves alone *)

Lemma contextKept_refl s : contextKept s s.
Proof. by repeat split. Qed.

Lemma contextKept_trans s1 s2 s3 : contextKept s1 s2 -> contextKept s2 s3 -> contextKept s1 s3.
Proof. unfold contextKept. intros (?&?&?&?&?) (?&?&?&?&?). repeat split; congruence. Qed.

(** X6. However a clone ends (returned, thrown, faulted or out of fuel),
    it has changed nothing of the link but the arena, the table of shared
    instructions, the environments and the current builder: the symbol
    table, the target, the module under construction, the layouts of the
    global parameters and the builder of the shared context are as they
    were. The same holds of the loop over the witness tables. *)
Theorem cloning_keeps_the_context fuel :
  (forall x s, contextKept s (cloneValue fuel x s).2) /\
  (forall b x o s, contextKept s (cloneInst fuel b x o s).2) /\
  (forall s, contextKept s (cloneWitnessTables fuel s).2).
Proof.
  pose proof (sound_clone contextKept (fun _ => True)
                contextKept_refl contextKept_trans
                (fun s h => contextKept_refl s) (fun s m => contextKept_refl s)
                (fun s es => contextKept_refl s) (fun s b => contextKept_refl s)
                I I I fuel) as [Hv Hi].
  pose proof (sound_cloneWitnessTables contextKept (fun _ => True)
                contextKept_refl contextKept_trans
                (fun s h => contextKept_refl s) (fun s m => contextKept_refl s)
                (fun s es => contextKept_refl s) (fun s b => contextKept_refl s)
                I I I fuel) as Hw.
  split; [|split].
  - intros x s. apply (Hv x s).
  - intros b x o s. apply (Hi b x o s).
  - intros s. apply (Hw s).
Qed.

(** ** The source arena and the linked module *)

Lemma bind_inv {A B : Type} (m : M A) (k : A -> M B) s b s' :
  bind m k s = (Val b, s') ->
  exists a, (m s).1 = Val a /\ k a (m s).2 = (Val b, s').
Proof.
  intros H. assert (Hfst := f_equal fst H). simpl in Hfst.
  destruct (bind_Val m k s b Hfst) as (a & Ha & Heq). exists a. split; [done|].
  by rewrite <- Heq.
Qed.

Lemma linkIR_collect_heap input h t :
  heap (linkIR_collect input (initialState h t)).2 = h ++ [emptyModule].
Proof.
  clear DEBUG specializeGeneric isDefinition.
  set (R := fun s s' : LinkState => heap s' = heap s).
  assert (Hrefl : forall s, R s s) by done.
  assert (Htrans : forall s1 s2 s3, R s1 s2 -> R s2 s3 -> R s1 s3)
    by (unfold R; intros; congruence).
  assert (Hins : forall om, sound R (fun _ => True) (insertGlobalValueSymbolsM om)).
  { intros om. apply sound_bind; [done|by apply sound_inspect|].
    intros syms. by apply sound_modify. }
  assert (Hlay : forall entries, sound R (fun _ => True) (addGlobalVarLayouts entries)).
  { intros entries. apply sound_forEach; [done..|]. intros [k v]. by apply sound_modify. }
  assert (sound R (fun _ => True)
            (insertGlobalValueSymbolsM (originalProgramIRModule input) ;;
             forEach (moduleDependencies input) insertGlobalValueSymbolsM ;;
             addGlobalVarLayouts (globalScopeVarLayouts input) ;;
             addGlobalVarLayouts (entryPointGroupVarLayouts input) ;;
             let* m := gets moduleInst in
             modify (setBuilderStorage (setInsertInto m)) ;;
             modify (setBuilder (setInsertInto m)))) as Hrest.
  { apply sound_bind; [done|apply Hins|]. intros _.
    apply sound_bind; [done|by apply sound_forEach|]. intros _.
    apply sound_bind; [done|apply Hlay|]. intros _.
    apply sound_bind; [done|apply Hlay|]. intros _.
    apply sound_bind; [done|by apply sound_gets|]. intros m.
    apply sound_bind; [done|by apply sound_modify|]. intros _.
    by apply sound_modify. }
  unfold linkIR_collect. unfold bind at 1.
  change (initializeSharedSpecContext nullptr (initialState h t))
    with (Val tt, mkState (h ++ [emptyModule]) t (S (length h)) [] (mkBuilder nullptr) [] [∅]
                    (mkBuilder nullptr) []).
  cbv iota beta. by destruct (Hrest (mkState (h ++ [emptyModule]) t (S (length h)) []
                                       (mkBuilder nullptr) [] [∅] (mkBuilder nullptr) [])).
Qed.

(** What [linkIR] does once the symbol table is collected. *)
Lemma spec_linkIR_clone h fuel input :
  closedSource h ->
  (forall x, length h < x -> spec h (specializeGeneric x) (fun c => length h < c)) ->
  spec h (cloneWitnessTables fuel ;;
          let* irEntryPoint :=
            specializeIRForEntryPoint fuel (entryPointMangledName input)
              (entryPointLayout input) (paramLayouts input) in
          linkIR_finish fuel input ;;
          let* m := gets moduleInst in
          ret (mkLinkedIR m irEntryPoint))
    (fun out => length h < entryPoint out).
Proof.
  intros Hc Hsg.
  eapply spec_bind; [by apply spec_cloneWitnessTables|]. intros _ _.
  eapply spec_bind; [by apply spec_specializeIRForEntryPoint|]. intros ep Hep.
  eapply spec_bind; [by apply spec_linkIR_finish|]. intros _ _.
  eapply spec_bind with (Q1 := fun _ => True); [by apply spec_gets|]. intros m _.
  by apply spec_ret.
Qed.

(** X7. However a link ends (with a module, with an error, or out of
    budget), the arena still starts with the source modules as they were
    given: no instruction of a source module is written to, moved or
    removed; what the link makes comes behind them. The generic
    specializer, which is not part of this file, is taken to keep to the
    module under construction. *)
Theorem source_modules_are_never_written fuel input h t :
  closedSource h ->
  (forall x, length h < x -> spec h (specializeGeneric x) (fun c => length h < c)) ->
  exists l, heap (linkIR fuel input (initialState h t)).2 = h ++ l.
Proof.
  intros Hc Hsg. unfold linkIR.
  pose proof (linkIR_collect_heap input h t) as Hheap.
  pose proof (linkIR_collect_Inv h Hc input t (initialState h t)) as Hinv.
  unfold bind at 1.
  destruct (linkIR_collect input (initialState h t)) as [[[]|msg| |] s1];
    simpl in Hheap, Hinv; try (by exists [emptyModule]).
  destruct (Hinv tt eq_refl eq_refl) as [Hs1 _].
  destruct (spec_linkIR_clone h fuel input Hc Hsg s1 Hs1) as (Hs' & _ & _).
  exact (inv_prefix _ _ Hs').
Qed.

(** X8. The module a link returns is self-contained. The module is the
    one instruction the link made first, right behind the source arena;
    the entry point lies behind the source arena; and every instruction
    behind the source arena (the whole of the linked module) holds, as
    parent, type, operands, decorations and children, only null or
    instructions behind the source arena: nothing in the output points
    into a source module. *)
Theorem linked_module_is_self_contained fuel input h t out s' :
  closedSource h ->
  (forall x, length h < x -> spec h (specializeGeneric x) (fun c => length h < c)) ->
  linkIR fuel input (initialState h t) = (Val out, s') ->
  module out = S (length h) /\
  length h < entryPoint out /\
  exists l, heap s' = h ++ l /\ Forall (closedData (length h)) l.
Proof.
  intros Hc Hsg Hrun. unfold linkIR in Hrun.
  apply bind_inv in Hrun as ([] & Hcol & Hrun).
  pose proof (linkIR_collect_Inv h Hc input t (initialState h t) tt eq_refl Hcol) as [Hs1 _].
  destruct (linkIR_collect_run input h t _ (run_Val _ _ _ Hcol)) as (Hfresh & _ & _).
  set (s1 := (linkIR_collect input (initialState h t)).2) in *.
  destruct (spec_linkIR_clone h fuel input Hc Hsg s1 Hs1) as (Hs' & (_ & Hmod & _) & Hout).
  rewrite Hrun in Hs', Hmod, Hout. simpl in Hs', Hmod, Hout.
  assert (module out = moduleInst s') as Hm.
  { apply bind_inv in Hrun as ([] & _ & Hrun).
    apply bind_inv in Hrun as (ep & _ & Hrun).
    apply bind_inv in Hrun as ([] & _ & Hrun).
    unfold bind, gets, ret in Hrun. by injection Hrun as <- <-. }
  split; [|split].
  - rewrite Hm, Hmod, Hfresh. reflexivity.
  - by apply Hout.
  - destruct (inv_prefix _ _ Hs') as [l Hl]. exists l. split; [done|].
    apply Forall_lookup. intros i d Hi.
    apply (inv_dest _ _ Hs' (S (length h + i)) d); [lia|].
    rewrite Hl. unfold deref. simpl. rewrite lookup_app_r by lia.
    replace (length h + i - length h) with i by lia. by rewrite Hi.
Qed.

(** ** An instruction keeps its opcode and its payload *)

Lemma kindsKept_refl s : kindsKept s s.
Proof. intros p d Hd. by exists d. Qed.

Lemma kindsKept_trans s1 s2 s3 : kindsKept s1 s2 -> kindsKept s2 s3 -> kindsKept s1 s3.
Proof.
  intros H12 H23 p d Hd. destruct (H12 p d Hd) as (d2 & Hd2 & Ho2 & Hv2).
  destruct (H23 p d2 Hd2) as (d3 & Hd3 & Ho3 & Hv3). exists d3. repeat split; congruence.
Qed.

Lemma kindsKept_heap s s' : heap s' = heap s -> kindsKept s s'.
Proof. intros Hh p d Hd. exists d. by rewrite Hh. Qed.

Lemma numberingOK_kept s s' :
  kindsKept s s' -> globalValueNumberingMap s' = globalValueNumberingMap s ->
  numberingOK s -> numberingOK s'.
Proof.
  intros Hk Hm Hok o t args v i Hi. rewrite Hm in Hi.
  destruct (Hok o t args v i Hi) as (d & Hd & Hop & Hv).
  destruct (Hk i d Hd) as (d' & Hd' & Hop' & Hv'). exists d'. repeat split; congruence.
Qed.

Lemma keeps_same {A : Type} (m : M A) : (forall s, (m s).2 = s) -> keeps m.
Proof. intros H s. rewrite H. split; [apply kindsKept_refl|done]. Qed.

Lemma keeps_ret {A : Type} (a : A) : keeps (ret a).
Proof. by apply keeps_same. Qed.

Lemma keeps_bind {A B : Type} (m : M A) (k : A -> M B) :
  keeps m -> (forall a, keeps (k a)) -> keeps (bind m k).
Proof.
  intros Hm Hk s. unfold bind. destruct (Hm s) as [H1 H2].
  destruct (m s) as [[a|msg| |] s1]; simpl in *; try done.
  destruct (Hk a s1) as [H3 H4]. split; [by eapply kindsKept_trans|auto].
Qed.

Lemma keeps_gets {A : Type} (f : LinkState -> A) : keeps (gets f).
Proof. by apply keeps_same. Qed.

Lemma keeps_inspect {A : Type} (f : LinkState -> Outcome A) : keeps (inspect f).
Proof. by apply keeps_same. Qed.

Lemma keeps_raise {A : Type} (o : Outcome A) : keeps (raise o).
Proof. by apply keeps_same. Qed.

Lemma keeps_SLANG_ASSERT b : keeps (SLANG_ASSERT b).
Proof. destruct b; by apply keeps_same. Qed.

Lemma keeps_modify (f : LinkState -> LinkState) :
  (forall s, heap (f s) = heap s /\ globalValueNumberingMap (f s) = globalValueNumberingMap s) ->
  keeps (modify f).
Proof.
  intros H s. destruct (H s) as [Hh Hm]. simpl.
  split; [by apply kindsKept_heap|]. apply numberingOK_kept; [by apply kindsKept_heap|done].
Qed.

Lemma keeps_forEach {A : Type} (l : list A) (body : A -> M unit) :
  (forall x, keeps (body x)) -> keeps (forEach l body).
Proof.
  intros H. induction l as [|x l IH]; simpl; [apply keeps_ret|].
  apply keeps_bind; [apply H|]. intros _. exact IH.
Qed.

Lemma keeps_derefM p : keeps (derefM p).
Proof. apply keeps_inspect. Qed.

Lemma kindsKept_alloc s d : kindsKept s (setHeap (heap s ++ [d]) s).
Proof. intros p x Hx. exists x. split; [|done]. simpl. by apply deref_src. Qed.

Lemma keeps_allocInst d : keeps (allocInst d).
Proof.
  intros s. split; [apply kindsKept_alloc|].
  apply numberingOK_kept; [apply kindsKept_alloc|done].
Qed.

(** An update of the fields that [f] changes; the updates of this file
    change the parent, the type, the operands, the decorations and
    children or the location. *)
Lemma keeps_updateInst p (f : IRInstData -> IRInstData) :
  (forall d, op (f d) = op d /\ value (f d) = value d) -> keeps (updateInst p f).
Proof.
  intros Hf s. unfold updateInst, bind, derefM, inspect, modify.
  destruct (deref (heap s) p) as [d| | |] eqn:Hd; simpl;
    try (split; [apply kindsKept_refl|done]).
  assert (kindsKept s (setHeap (<[pred p := f d]> (heap s)) s)) as Hk.
  { intros q x Hx. simpl. destruct (decide (p = q)) as [<-|Hne].
    - exists (f d). split; [by apply (deref_insert_eq _ _ d)|].
      rewrite Hd in Hx. injection Hx as <-. apply Hf.
    - exists x. split; [|done]. rewrite deref_insert_ne; [done..|].
      intros ->. discriminate Hd. }
  split; [done|]. by apply numberingOK_kept.
Qed.

#[local] Hint Resolve keeps_derefM keeps_allocInst : keeps.

Ltac keeps_step :=
  lazymatch goal with
  | |- keeps (ret _) => apply keeps_ret
  | |- keeps (bind _ _) => apply keeps_bind; [|intros]
  | |- keeps (gets _) => apply keeps_gets
  | |- keeps (inspect _) => apply keeps_inspect
  | |- keeps (raise _) => apply keeps_raise
  | |- keeps (SLANG_UNEXPECTED _) => apply keeps_raise
  | |- keeps (SLANG_ASSERT _) => apply keeps_SLANG_ASSERT
  | |- keeps (modify _) => apply keeps_modify; intros; split; reflexivity
  | |- keeps (forEach _ _) => apply keeps_forEach; intros
  | |- keeps (updateInst _ _) => apply keeps_updateInst; intros; split; reflexivity
  | |- keeps (match ?x with _ => _ end) => destruct x
  | |- keeps _ => solve [eauto with keeps]
  end.

Ltac keeps_tac := repeat keeps_step.

Lemma keeps_insertAtEnd i p : keeps (insertAtEnd i p).
Proof. unfold insertAtEnd. keeps_tac. Qed.
#[local] Hint Resolve keeps_insertAtEnd : keeps.

Lemma keeps_insertAtStart i p : keeps (insertAtStart i p).
Proof. unfold insertAtStart. keeps_tac. Qed.
#[local] Hint Resolve keeps_insertAtStart : keeps.

Lemma keeps_removeFromParent i : keeps (removeFromParent i).
Proof. unfold removeFromParent. keeps_tac. Qed.
#[local] Hint Resolve keeps_removeFromParent : keeps.

Lemma keeps_moveToEnd i : keeps (moveToEnd i).
Proof. unfold moveToEnd. keeps_tac. Qed.
#[local] Hint Resolve keeps_moveToEnd : keeps.

Lemma keeps_moveToStart i : keeps (moveToStart i).
Proof. unfold moveToStart. keeps_tac. Qed.
#[local] Hint Resolve keeps_moveToStart : keeps.

Lemma keeps_setFullType i t : keeps (setFullType i t).
Proof. unfold setFullType. keeps_tac. Qed.
#[local] Hint Resolve keeps_setFullType : keeps.

Lemma keeps_initOperand i aa arg : keeps (initOperand i aa arg).
Proof. unfold initOperand. keeps_tac. Qed.
#[local] Hint Resolve keeps_initOperand : keeps.

Lemma keeps_createInst o t args v : keeps (createInst o t args v).
Proof. unfold createInst. keeps_tac. Qed.
#[local] Hint Resolve keeps_createInst : keeps.

Lemma keeps_createIntrinsicInst t o n : keeps (createIntrinsicInst t o n).
Proof. unfold createIntrinsicInst. keeps_tac. Qed.
#[local] Hint Resolve keeps_createIntrinsicInst : keeps.

Lemma keeps_addInst b i : keeps (addInst b i).
Proof. unfold addInst. keeps_tac. Qed.
#[local] Hint Resolve keeps_addInst : keeps.

Lemma keeps_addGlobalValue b v : keeps (addGlobalValue b v).
Proof. unfold addGlobalValue. keeps_tac. Qed.
#[local] Hint Resolve keeps_addGlobalValue : keeps.

Lemma keeps_addHoistableInst b i : keeps (addHoistableInst b i).
Proof. unfold addHoistableInst. keeps_tac. Qed.
#[local] Hint Resolve keeps_addHoistableInst : keeps.

(** A new shared instruction enters the table under the key it was made
    from. *)
Lemma keeps_shared o t args v :
  keeps (let* inst := createInst o t args v in
         modify (fun s => setNumbering (((o, t, args, v), inst) :: globalValueNumberingMap s) s) ;;
         ret inst).
Proof.
  intros s. unfold bind, createInst, allocInst, modify, ret. simpl.
  split; [apply kindsKept_alloc|].
  intros Hok o' t' args' v' i Hi. simpl in Hi |- *.
  case_bool_decide as Hkey.
  - injection Hkey as <- <- <- <-. injection Hi as <-.
    eexists. split; [apply deref_app_new|done].
  - destruct (Hok o' t' args' v' i Hi) as (d & Hd & Hop & Hv).
    exists d. split; [by apply deref_src|done].
Qed.

Lemma keeps_findOrEmitHoistableInst b t o args v :
  keeps (findOrEmitHoistableInst b t o args v).
Proof.
  unfold findOrEmitHoistableInst. apply keeps_bind; [apply keeps_gets|]. intros [inst|].
  - apply keeps_ret.
  - intros s. pose proof (keeps_shared o t args v s) as [Hk Hok].
    unfold bind, createInst, allocInst, modify, ret in Hk, Hok |- *. simpl in Hk, Hok |- *.
    assert (keeps (addHoistableInst b (S (length (heap s))) ;; ret (S (length (heap s)))))
      as Hrest by keeps_tac.
    specialize (Hrest (setNumbering (((o, t, args, v), S (length (heap s))) ::
                                       globalValueNumberingMap s)
                         (setHeap (heap s ++ [mkInst o t args nullptr [] v 0]) s))).
    destruct Hrest as [Hk' Hok']. unfold bind at 1 in Hk'. unfold bind at 1 in Hok'.
    destruct (addHoistableInst b (S (length (heap s))) _) as [[[]|msg| |] s3]; simpl in *;
      (split; [by eapply kindsKept_trans|auto]).
Qed.
#[local] Hint Resolve keeps_findOrEmitHoistableInst : keeps.

Lemma keeps_getType b o args : keeps (getType b o args).
Proof. unfold getType. keeps_tac. Qed.
#[local] Hint Resolve keeps_getType : keeps.

Lemma keeps_getVoidType b : keeps (getVoidType b).
Proof. unfold getVoidType. keeps_tac. Qed.
#[local] Hint Resolve keeps_getVoidType : keeps.

Lemma keeps_getBoolType b : keeps (getBoolType b).
Proof. unfold getBoolType. keeps_tac. Qed.
#[local] Hint Resolve keeps_getBoolType : keeps.

Lemma keeps_getStringType b : keeps (getStringType b).
Proof. unfold getStringType. keeps_tac. Qed.
#[local] Hint Resolve keeps_getStringType : keeps.

Lemma keeps_getBasicBlockType b : keeps (getBasicBlockType b).
Proof. unfold getBasicBlockType. keeps_tac. Qed.
#[local] Hint Resolve keeps_getBasicBlockType : keeps.

Lemma keeps_getPtrType b t : keeps (getPtrType b t).
Proof. unfold getPtrType. keeps_tac. Qed.
#[local] Hint Resolve keeps_getPtrType : keeps.

Lemma keeps_getRateQualifiedType b r t : keeps (getRateQualifiedType b r t).
Proof. unfold getRateQualifiedType. keeps_tac. Qed.
#[local] Hint Resolve keeps_getRateQualifiedType : keeps.

Lemma keeps_getBoolValue b v : keeps (getBoolValue b v).
Proof. unfold getBoolValue. keeps_tac. Qed.
#[local] Hint Resolve keeps_getBoolValue : keeps.

Lemma keeps_getIntValue b t v : keeps (getIntValue b t v).
Proof. unfold getIntValue. keeps_tac. Qed.
#[local] Hint Resolve keeps_getIntValue : keeps.

Lemma keeps_getFloatValue b t v : keeps (getFloatValue b t v).
Proof. unfold getFloatValue. keeps_tac. Qed.
#[local] Hint Resolve keeps_getFloatValue : keeps.

Lemma keeps_getStringValue b v : keeps (getStringValue b v).
Proof. unfold getStringValue. keeps_tac. Qed.
#[local] Hint Resolve keeps_getStringValue : keeps.

Lemma keeps_getPtrValue b v : keeps (getPtrValue b v).
Proof. unfold getPtrValue. keeps_tac. Qed.
#[local] Hint Resolve keeps_getPtrValue : keeps.

Lemma keeps_createGlobal b o t : keeps (createGlobal b o t).
Proof. unfold createGlobal. keeps_tac. Qed.
#[local] Hint Resolve keeps_createGlobal : keeps.

Lemma keeps_createGlobalVar b t : keeps (createGlobalVar b t).
Proof. unfold createGlobalVar. keeps_tac. Qed.
#[local] Hint Resolve keeps_createGlobalVar : keeps.

Lemma keeps_emitGeneric b : keeps (emitGeneric b).
Proof. unfold emitGeneric. keeps_tac. Qed.
#[local] Hint Resolve keeps_emitGeneric : keeps.

Lemma keeps_createBlock b : keeps (createBlock b).
Proof. unfold createBlock. keeps_tac. Qed.
#[local] Hint Resolve keeps_createBlock : keeps.

Lemma keeps_addDecoration b v o args : keeps (addDecoration b v o args).
Proof. unfold addDecoration. keeps_tac. Qed.
#[local] Hint Resolve keeps_addDecoration : keeps.

Lemma keeps_addLayoutDecoration b v l : keeps (addLayoutDecoration b v l).
Proof. unfold addLayoutDecoration. keeps_tac. Qed.
#[local] Hint Resolve keeps_addLayoutDecoration : keeps.

Lemma keeps_addKeepAliveDecoration b v : keeps (addKeepAliveDecoration b v).
Proof. unfold addKeepAliveDecoration. keeps_tac. Qed.
#[local] Hint Resolve keeps_addKeepAliveDecoration : keeps.

Lemma keeps_registerClonedValue c o : keeps (registerClonedValue c o).
Proof. unfold registerClonedValue. keeps_tac. Qed.
#[local] Hint Resolve keeps_registerClonedValue : keeps.

Lemma keeps_registerClonedValues c ovs : keeps (registerClonedValues c ovs).
Proof. unfold registerClonedValues. keeps_tac. Qed.
#[local] Hint Resolve keeps_registerClonedValues : keeps.

Lemma keeps_createFunc b : keeps (createFunc b).
Proof. unfold createFunc. keeps_tac. Qed.
#[local] Hint Resolve keeps_createFunc : keeps.

Lemma keeps_createGlobalConstant b t : keeps (createGlobalConstant b t).
Proof. unfold createGlobalConstant. keeps_tac. Qed.
#[local] Hint Resolve keeps_createGlobalConstant : keeps.

Lemma keeps_createGlobalParam b t : keeps (createGlobalParam b t).
Proof. unfold createGlobalParam. keeps_tac. Qed.
#[local] Hint Resolve keeps_createGlobalParam : keeps.

Lemma keeps_createStructKey b : keeps (createStructKey b).
Proof. unfold createStructKey. keeps_tac. Qed.
#[local] Hint Resolve keeps_createStructKey : keeps.

Lemma keeps_createStructType b : keeps (createStructType b).
Proof. unfold createStructType. keeps_tac. Qed.
#[local] Hint Resolve keeps_createStructType : keeps.

Lemma keeps_createInterfaceType b : keeps (createInterfaceType b).
Proof. unfold createInterfaceType. keeps_tac. Qed.
#[local] Hint Resolve keeps_createInterfaceType : keeps.

Lemma keeps_createWitnessTable b : keeps (createWitnessTable b).
Proof. unfold createWitnessTable. keeps_tac. Qed.
#[local] Hint Resolve keeps_createWitnessTable : keeps.

Lemma keeps_emitGlobalGenericParam b : keeps (emitGlobalGenericParam b).
Proof. unfold emitGlobalGenericParam. keeps_tac. Qed.
#[local] Hint Resolve keeps_emitGlobalGenericParam : keeps.

Lemma keeps_addBlock c b : keeps (addBlock c b).
Proof. apply keeps_insertAtEnd. Qed.
#[local] Hint Resolve keeps_addBlock : keeps.

(** *** What an instruction is, when made *)

Lemma kindsKept_length s s' : kindsKept s s' -> length (heap s) <= length (heap s').
Proof.
  intros H. destruct (length (heap s)) as [|i] eqn:E; [lia|].
  destruct (lookup_lt_is_Some_2 (heap s) i) as [d Hd]; [lia|].
  destruct (H (S i) d) as (d' & Hd' & _); [unfold deref; by rewrite Hd|].
  unfold deref in Hd'. destruct (heap s' !! i) eqn:E'; [|done].
  apply lookup_lt_Some in E'. lia.
Qed.

Lemma returns_ret {A : Type} (c : A) : returns c (ret c).
Proof. intros s r s' [= <- _]. done. Qed.

Lemma returns_bind {A B : Type} (c : B) (m : M A) (k : A -> M B) :
  (forall a, returns c (k a)) -> returns c (bind m k).
Proof. intros Hk s r s' H. apply bind_inv in H as (a & _ & H). by apply (Hk a) in H. Qed.

Ltac returns_tac :=
  repeat lazymatch goal with
         | |- returns _ (ret _) => apply returns_ret
         | |- returns _ (bind _ _) => apply returns_bind; intros
         | |- returns _ (match ?x with _ => _ end) => destruct x
         end.

Lemma makes_createInst o t args v : makes o (createInst o t args v).
Proof.
  intros s c s' [= <- <-]. split; [lia|]. eexists. split; [apply deref_app_new|done].
Qed.

Lemma makes_pre {A : Type} K (m : M A) (k : A -> M IRInst) :
  keeps m -> (forall a, makes K (k a)) -> makes K (bind m k).
Proof.
  intros Hm Hk s c s' H. apply bind_inv in H as (a & _ & H).
  apply (Hk a) in H as [Hlt Hd]. split; [|done].
  pose proof (kindsKept_length _ _ (proj1 (Hm s))). lia.
Qed.

Lemma makes_then K (m : M IRInst) (k : IRInst -> M IRInst) :
  makes K m -> (forall c, keeps (k c)) -> (forall c, returns c (k c)) -> makes K (bind m k).
Proof.
  intros Hm Hk Hr s c s' H. apply bind_inv in H as (c1 & Hc1 & H).
  pose proof (Hr c1 _ _ _ H) as ->.
  destruct (Hm s c1 (m s).2 (run_Val _ _ _ Hc1)) as (Hlt & d & Hd & Hop).
  split; [done|].
  pose proof (proj1 (Hk c1 (m s).2) c1 d Hd) as (d' & Hd' & Hop' & _).
  rewrite H in Hd'. exists d'. split; [done|congruence].
Qed.

Ltac makes_step :=
  lazymatch goal with
  | |- makes _ (bind _ _) =>
      first [ apply makes_then; [solve [eauto with makes]|intros; keeps_tac|intros; returns_tac]
            | apply makes_pre; [keeps_tac|intros] ]
  | |- makes _ (match ?x with _ => _ end) => destruct x
  | |- makes _ _ => solve [eauto with makes]
  end.

Ltac makes_tac := repeat makes_step.

#[local] Hint Resolve makes_createInst : makes.

Lemma makes_createIntrinsicInst t o k : makes o (createIntrinsicInst t o k).
Proof. apply makes_createInst. Qed.

Lemma makes_createGlobal b o t : makes o (createGlobal b o t).
Proof. unfold createGlobal. makes_tac. Qed.

Lemma makes_emitGeneric b : makes kIROp_Generic (emitGeneric b).
Proof. unfold emitGeneric. makes_tac. Qed.
#[local] Hint Resolve makes_createIntrinsicInst makes_createGlobal makes_emitGeneric : makes.

Lemma makes_createGlobalVar b t : makes kIROp_GlobalVar (createGlobalVar b t).
Proof. unfold createGlobalVar. makes_tac. Qed.
#[local] Hint Resolve makes_createGlobalVar : makes.

Section ClonerKinds.

Variable cv : IRInst -> M IRInst.
Variable ci : IRBuilder -> IRInst -> IROriginalValuesForClone -> M IRInst.
Variable n : nat.
Hypothesis Hcv : forall x, keeps (cv x).
Hypothesis Hci : forall b x o, keeps (ci b x o).

#[local] Hint Resolve Hcv Hci : keeps.

Lemma keeps_cloneType t : keeps (cloneType cv t).
Proof using Hcv Hci. apply Hcv. Qed.
#[local] Hint Resolve keeps_cloneType : keeps.

Lemma keeps_cloneRate t : keeps (cloneRate cv t).
Proof using Hcv Hci. apply Hcv. Qed.
#[local] Hint Resolve keeps_cloneRate : keeps.

Lemma keeps_cloneDecorations c o : keeps (cloneDecorations ci c o).
Proof using Hcv Hci. unfold cloneDecorations. keeps_tac. Qed.
#[local] Hint Resolve keeps_cloneDecorations : keeps.

Lemma keeps_cloneDecorationsAndChildren c o : keeps (cloneDecorationsAndChildren ci c o).
Proof using Hcv Hci. unfold cloneDecorationsAndChildren. keeps_tac. Qed.
#[local] Hint Resolve keeps_cloneDecorationsAndChildren : keeps.

Lemma keeps_maybeSetClonedRate b c o : keeps (maybeSetClonedRate cv b c o).
Proof using Hcv Hci. unfold maybeSetClonedRate. keeps_tac. Qed.
#[local] Hint Resolve keeps_maybeSetClonedRate : keeps.

Lemma keeps_cloneBlockContents obs : forall cb, keeps (cloneBlockContents ci obs cb).
Proof using Hcv Hci. induction obs as [|ob obs IH]; intros cb; simpl; keeps_tac. Qed.
#[local] Hint Resolve keeps_cloneBlockContents : keeps.

Lemma keeps_cloneGlobalValueWithCodeCommon c o : keeps (cloneGlobalValueWithCodeCommon ci c o).
Proof using Hcv Hci. unfold cloneGlobalValueWithCodeCommon. keeps_tac. Qed.
#[local] Hint Resolve keeps_cloneGlobalValueWithCodeCommon : keeps.

Lemma keeps_cloneGlobalVarImpl b o ovs : keeps (cloneGlobalVarImpl cv ci b o ovs).
Proof using Hcv Hci. unfold cloneGlobalVarImpl. keeps_tac. Qed.
#[local] Hint Resolve keeps_cloneGlobalVarImpl : keeps.

Lemma keeps_cloneGlobalConstantImpl b o ovs : keeps (cloneGlobalConstantImpl cv ci b o ovs).
Proof using Hcv Hci. unfold cloneGlobalConstantImpl. keeps_tac. Qed.
#[local] Hint Resolve keeps_cloneGlobalConstantImpl : keeps.

Lemma keeps_cloneSimpleGlobalValueImpl o ovs c r : keeps (cloneSimpleGlobalValueImpl ci o ovs c r).
Proof using Hcv Hci. unfold cloneSimpleGlobalValueImpl. keeps_tac. Qed.
#[local] Hint Resolve keeps_cloneSimpleGlobalValueImpl : keeps.

Lemma keeps_cloneGlobalParamImpl b o ovs : keeps (cloneGlobalParamImpl cv ci b o ovs).
Proof using Hcv Hci. unfold cloneGlobalParamImpl. keeps_tac. Qed.
#[local] Hint Resolve keeps_cloneGlobalParamImpl : keeps.

Lemma keeps_cloneGenericImpl b o ovs : keeps (cloneGenericImpl ci b o ovs).
Proof using Hcv Hci. unfold cloneGenericImpl. keeps_tac. Qed.
#[local] Hint Resolve keeps_cloneGenericImpl : keeps.

Lemma keeps_cloneStructKeyImpl b o ovs : keeps (cloneStructKeyImpl ci b o ovs).
Proof using Hcv Hci. unfold cloneStructKeyImpl. keeps_tac. Qed.
#[local] Hint Resolve keeps_cloneStructKeyImpl : keeps.

Lemma keeps_cloneGlobalGenericParamImpl b o ovs : keeps (cloneGlobalGenericParamImpl ci b o ovs).
Proof using Hcv Hci. unfold cloneGlobalGenericParamImpl. keeps_tac. Qed.
#[local] Hint Resolve keeps_cloneGlobalGenericParamImpl : keeps.

Lemma keeps_cloneWitnessTableImpl b o ovs d r : keeps (cloneWitnessTableImpl ci b o ovs d r).
Proof using Hcv Hci. unfold cloneWitnessTableImpl. keeps_tac. Qed.
#[local] Hint Resolve keeps_cloneWitnessTableImpl : keeps.

Lemma keeps_cloneStructTypeImpl b o ovs : keeps (cloneStructTypeImpl ci b o ovs).
Proof using Hcv Hci. unfold cloneStructTypeImpl. keeps_tac. Qed.
#[local] Hint Resolve keeps_cloneStructTypeImpl : keeps.

Lemma keeps_cloneInterfaceTypeImpl b o ovs : keeps (cloneInterfaceTypeImpl ci b o ovs).
Proof using Hcv Hci. unfold cloneInterfaceTypeImpl. keeps_tac. Qed.
#[local] Hint Resolve keeps_cloneInterfaceTypeImpl : keeps.

Lemma keeps_checkIRDuplicate i m name : keeps (checkIRDuplicate i m name).
Proof using Hcv Hci. unfold checkIRDuplicate. keeps_tac. Qed.
#[local] Hint Resolve keeps_checkIRDuplicate : keeps.

Lemma keeps_cloneFunctionCommon c o chk : keeps (cloneFunctionCommon cv ci c o chk).
Proof using Hcv Hci. unfold cloneFunctionCommon. keeps_tac. Qed.
#[local] Hint Resolve keeps_cloneFunctionCommon : keeps.

Lemma keeps_cloneFuncImpl b o ovs : keeps (cloneFuncImpl cv ci b o ovs).
Proof using Hcv Hci. unfold cloneFuncImpl. keeps_tac. Qed.
#[local] Hint Resolve keeps_cloneFuncImpl : keeps.

Lemma keeps_cloneInst_body b o ovs : keeps (cloneInst_body cv ci b o ovs).
Proof using Hcv Hci. unfold cloneInst_body. keeps_tac. Qed.
#[local] Hint Resolve keeps_cloneInst_body : keeps.

Lemma keeps_cloneGlobalValueImpl o ovs : keeps (cloneGlobalValueImpl ci o ovs).
Proof using Hcv Hci. unfold cloneGlobalValueImpl. keeps_tac. Qed.
#[local] Hint Resolve keeps_cloneGlobalValueImpl : keeps.

Lemma keeps_cloneGlobalValueWithLinkage o l : keeps (cloneGlobalValueWithLinkage ci n o l).
Proof using Hcv Hci. unfold cloneGlobalValueWithLinkage. keeps_tac. Qed.
#[local] Hint Resolve keeps_cloneGlobalValueWithLinkage : keeps.

Lemma keeps_cloneGlobalValue o : keeps (cloneGlobalValue ci n o).
Proof using Hcv Hci. unfold cloneGlobalValue. keeps_tac. Qed.
#[local] Hint Resolve keeps_cloneGlobalValue : keeps.

Lemma keeps_maybeCloneValue o : keeps (maybeCloneValue cv ci n o).
Proof using Hcv Hci. unfold maybeCloneValue. keeps_tac. Qed.
#[local] Hint Resolve keeps_maybeCloneValue : keeps.

Lemma keeps_cloneValue_body o : keeps (cloneValue_body cv ci n o).
Proof using Hcv Hci. unfold cloneValue_body. keeps_tac. Qed.
#[local] Hint Resolve keeps_cloneValue_body : keeps.

Lemma makes_cloneInst_body b x ovs s o c s' :
  deref (heap s) x = Val o ->
  cloneInst_body cv ci b x ovs s = (Val c, s') ->
  length (heap s) < c /\ exists d, deref (heap s') c = Val d /\ op d = op o.
Proof using Hcv Hci.
  intros Ho Hrun. unfold cloneInst_body in Hrun.
  apply bind_inv in Hrun as (o' & Ho' & Hrun).
  unfold derefM, inspect in Ho', Hrun. simpl in Ho', Hrun.
  rewrite Ho in Ho'. injection Ho' as <-.
  revert s c s' Ho Hrun.
  enough (forall K, op o = K ->
            makes K match K with
                    | kIROp_Func => cloneFuncImpl cv ci b x ovs
                    | kIROp_GlobalVar => cloneGlobalVarImpl cv ci b x ovs
                    | kIROp_GlobalConstant => cloneGlobalConstantImpl cv ci b x ovs
                    | kIROp_GlobalParam => cloneGlobalParamImpl cv ci b x ovs
                    | kIROp_WitnessTable => cloneWitnessTableImpl ci b x ovs nullptr true
                    | kIROp_StructType => cloneStructTypeImpl ci b x ovs
                    | kIROp_InterfaceType => cloneInterfaceTypeImpl ci b x ovs
                    | kIROp_Generic => cloneGenericImpl ci b x ovs
                    | kIROp_StructKey => cloneStructKeyImpl ci b x ovs
                    | kIROp_GlobalGenericParam => cloneGlobalGenericParamImpl ci b x ovs
                    | _ =>
                        let* clonedType := cloneType cv (typeUse o) in
                        let* clonedInst :=
                          createIntrinsicInst clonedType K (length (operands o)) in
                        registerClonedValues clonedInst ovs ;;
                        let* oldBuilder := gets builder in
                        modify (setBuilder b) ;;
                        forEach (enumerate (operands o)) (fun '(aa, originalArg) =>
                          let* clonedArg := cv originalArg in
                          initOperand clonedInst aa clonedArg) ;;
                        addInst b clonedInst ;;
                        modify (setBuilder oldBuilder) ;;
                        cloneDecorations ci clonedInst x ;;
                        ret clonedInst
                    end) as Hmakes.
  { intros s c s' _ Hrun. exact (Hmakes (op o) eq_refl s c s' Hrun). }
  intros K _.
  destruct K;
    unfold cloneFuncImpl, cloneGlobalVarImpl, cloneGlobalConstantImpl, cloneGlobalParamImpl,
      cloneWitnessTableImpl, cloneStructTypeImpl, cloneInterfaceTypeImpl, cloneGenericImpl,
      cloneStructKeyImpl, cloneGlobalGenericParamImpl, createFunc, createGlobalConstant,
      createGlobalParam, createStructKey, createStructType, createInterfaceType,
      createWitnessTable, emitGlobalGenericParam;
    rewrite ?bool_decide_eq_true_2 by done;
    makes_tac.
Qed.

End ClonerKinds.

Lemma keeps_clone fuel :
  (forall x, keeps (cloneValue fuel x)) /\ (forall b x o, keeps (cloneInst fuel b x o)).
Proof.
  induction fuel as [|fuel [IHv IHi]]; (split; [intros x|intros b x o]); simpl.
  - apply keeps_raise.
  - apply keeps_raise.
  - by apply keeps_cloneValue_body.
  - by apply keeps_cloneInst_body.
Qed.

Lemma keeps_cloneWitnessTables fuel : keeps (cloneWitnessTables fuel).
Proof.
  destruct (keeps_clone fuel) as [Hv Hi].
  unfold cloneWitnessTables. keeps_tac.
  by apply (keeps_cloneGlobalValue (cloneValue fuel) (cloneInst fuel) fuel Hv Hi).
Qed.

Lemma keeps_linkIR_finish fuel input : keeps (linkIR_finish fuel input).
Proof.
  destruct (keeps_clone fuel) as [Hv Hi].
  unfold linkIR_finish. keeps_tac; apply Hv.
Qed.

(** X9. A clone never undoes what an instruction is. However a call of
    [cloneValue] or [cloneInst], or the loop over the witness tables, ends,
    every instruction the arena held before is still in the arena, under
    the same pointer, with the opcode and the payload it had: cloning adds
    instructions and links them (parent, type, operands, decorations and
    children, location), and changes nothing else. *)
Theorem cloning_keeps_every_instruction fuel :
  (forall x s, kindsKept s (cloneValue fuel x s).2) /\
  (forall b x o s, kindsKept s (cloneInst fuel b x o s).2) /\
  (forall s, kindsKept s (cloneWitnessTables fuel s).2).
Proof.
  destruct (keeps_clone fuel) as [Hv Hi]. split; [|split].
  - intros x s. apply (Hv x s).
  - intros b x o s. apply (Hi b x o s).
  - intros s. apply (keeps_cloneWitnessTables fuel s).
Qed.

(** X10. The instruction [cloneInst] returns for an original is a new
    one, which the arena did not hold when the call was made, and it is
    of the opcode of the original: a function for a function, a witness
    table for a witness table, and for an ordinary instruction one of the
    same opcode. *)
Theorem clone_is_new_and_of_the_same_opcode fuel b (x : IRInst) ovs s o c s' :
  deref (heap s) x = Val o ->
  cloneInst fuel b x ovs s = (Val c, s') ->
  length (heap s) < c /\ exists d, deref (heap s') c = Val d /\ op d = op o.
Proof.
  intros Ho Hrun. destruct fuel as [|fuel]; [discriminate Hrun|].
  destruct (keeps_clone fuel) as [Hv Hi]. simpl in Hrun.
  exact (makes_cloneInst_body _ _ Hv Hi b x ovs s o c s' Ho Hrun).
Qed.

(** *** The entry point *)

Lemma made_pre {A : Type} K (m : M A) (k : A -> M IRInst) :
  (forall a, made K (k a)) -> made K (bind m k).
Proof. intros Hk s c s' H. apply bind_inv in H as (a & _ & H). by apply (Hk a) in H. Qed.

Lemma made_raise K (o : Outcome IRInst) : (forall c, o <> Val c) -> made K (raise o).
Proof. intros Ho s c s' [= H _]. by destruct (Ho c). Qed.

(** A value that has passed the test for the opcode [K], and is returned
    once more has been linked to it. *)
Lemma made_checked K c reason (k : M IRInst) :
  keeps k -> returns c k ->
  made K (let* isK := gets (fun st => asOp (heap st) (isOp K) c) in
          if negb isK then SLANG_UNEXPECTED reason else k).
Proof.
  intros Hk Hr s r s' H. apply bind_inv in H as (isK & HisK & H).
  unfold gets in HisK, H. simpl in HisK, H. injection HisK as <-.
  unfold asOp in H. destruct (deref (heap s) c) as [d| | |] eqn:Hd; simpl in H; try discriminate.
  unfold isOp in H. case_bool_decide as Hop; simpl in H; [|discriminate].
  pose proof (Hr _ _ _ H) as ->.
  destruct (proj1 (Hk s) c d Hd) as (d' & Hd' & Hop' & _). rewrite H in Hd'.
  exists d'. split; [done|congruence].
Qed.

Lemma keeps_findDecorationM isa p : keeps (findDecorationM isa p).
Proof. apply keeps_inspect. Qed.
#[local] Hint Resolve keeps_findDecorationM : keeps.

Lemma made_specializeIRForEntryPoint fuel name lay pl :
  made kIROp_Func (specializeIRForEntryPoint fuel name lay pl).
Proof.
  unfold specializeIRForEntryPoint.
  apply made_pre. intros syms.
  destruct (TryGetValue syms name) as [sy|]; [|by apply made_raise].
  cbv zeta.
  repeat first [ apply made_checked; [keeps_tac|returns_tac] | apply made_pre; intros ].
Qed.

(** X11. The entry point a link returns is a function: an instruction of
    the arena the link ends with, of opcode [kIROp_Func], whatever was
    linked to it after it was found to be one (the layouts, the
    keep-alive mark, the bindings of the global generic parameters). *)
Theorem entry_point_is_a_function fuel input s out s' :
  linkIR fuel input s = (Val out, s') ->
  exists d, deref (heap s') (entryPoint out) = Val d /\ op d = kIROp_Func.
Proof.
  intros Hrun. unfold linkIR in Hrun.
  apply bind_inv in Hrun as ([] & _ & Hrun).
  apply bind_inv in Hrun as ([] & _ & Hrun).
  apply bind_inv in Hrun as (ep & Hep & Hrun).
  destruct (made_specializeIRForEntryPoint _ _ _ _ _ _ _ (run_Val _ _ _ Hep)) as (d & Hd & Hop).
  apply bind_inv in Hrun as ([] & Hfin & Hrun).
  pose proof (proj1 (keeps_linkIR_finish fuel input _) ep d Hd) as (d' & Hd' & Hop' & _).
  unfold bind, gets, ret in Hrun. injection Hrun as <- <-. simpl.
  exists d'. split; [done|congruence].
Qed.

(** ** What a link can throw *)

Section LinkMessages.

Hypothesis specializeGeneric_messages :
  forall x, sound (fun _ _ => True) (fun m => m ∈ linkMessages) (specializeGeneric x).

Ltac msg_side := first [ done | unfold linkMessages; set_solver ].

Ltac msg_step :=
  lazymatch goal with
  | |- sound _ _ (ret _) => apply sound_ret; msg_side
  | |- sound _ _ (bind _ _) => apply sound_bind; [msg_side| |intros]
  | |- sound _ _ (gets _) => apply sound_gets; msg_side
  | |- sound _ _ (modify _) => apply sound_modify; msg_side
  | |- sound _ _ (forEach _ _) => apply sound_forEach; [msg_side|msg_side|intros]
  | |- sound _ _ (SLANG_UNEXPECTED _) =>
      apply sound_raise; [msg_side|]; intros ? [= <-]; msg_side
  | |- sound _ _ (inspect _) =>
      let H := fresh in
      apply sound_inspect; [msg_side|]; intros ? ? H;
      first [ by apply deref_noThrow in H | by apply findDecoration_noThrow in H ]
  | |- sound _ _ (match ?x with _ => _ end) => destruct x
  | |- sound _ _ (derefM _) => apply sound_derefM; msg_side
  | |- sound _ _ (findDecorationM _ _) => unfold findDecorationM
  | |- sound _ _ (addKeepAliveDecoration _ _) => apply sound_addKeepAliveDecoration; msg_side
  | |- sound _ _ (addLayoutDecoration _ _ _) => apply sound_addLayoutDecoration; msg_side
  | |- sound _ _ (moveToStart _) => apply sound_moveToStart; msg_side
  | |- sound _ _ (cloneGlobalValue _ _ _) => apply sound_cloneGlobalValue; msg_side
  | |- sound _ _ (addGlobalVarLayouts _) => unfold addGlobalVarLayouts
  | |- sound _ _ (initializeSharedSpecContext _) => unfold initializeSharedSpecContext
  | |- sound _ _ createModule => apply sound_createInst; msg_side
  | |- sound _ _ _ => solve [eauto]
  end.

Lemma insertGlobalValueSymbols_noThrow h syms m : noThrow (insertGlobalValueSymbols h syms m).
Proof using Type.
  intros msg. unfold insertGlobalValueSymbols. case_bool_decide; [done|].
  destruct (deref h m) as [md| | |] eqn:Hd; simpl; try done.
  - generalize (getChildren h md). intros gvs. revert syms.
    induction gvs as [|g gvs IH]; intros syms; simpl; [done|].
    unfold insertGlobalValueSymbol.
    destruct (linkageName h g) as [[name|]|msg0| |] eqn:Hl; simpl; try done.
    + destruct (TryGetValue syms name); apply IH.
    + by apply linkageName_noThrow in Hl.
  - by apply deref_noThrow in Hd.
Qed.

Lemma sound_linkIR fuel input :
  sound (fun _ _ => True) (fun m => m ∈ linkMessages) (linkIR fuel input).
Proof using specializeGeneric_messages.
  destruct (sound_clone (fun _ _ => True) (fun m => m ∈ linkMessages)
              ltac:(msg_side) ltac:(msg_side) ltac:(msg_side) ltac:(msg_side) ltac:(msg_side)
              ltac:(msg_side) ltac:(msg_side) ltac:(msg_side) ltac:(msg_side) fuel)
    as [Hv Hi].
  pose proof (sound_cloneWitnessTables (fun _ _ => True) (fun m => m ∈ linkMessages)
                ltac:(msg_side) ltac:(msg_side) ltac:(msg_side) ltac:(msg_side)
                ltac:(msg_side) ltac:(msg_side) ltac:(msg_side) ltac:(msg_side)
                ltac:(msg_side) fuel) as Hwt.
  assert (Hins : forall om, sound (fun _ _ => True) (fun m => m ∈ linkMessages)
                              (insertGlobalValueSymbolsM om)).
  { intros om. unfold insertGlobalValueSymbolsM.
    apply sound_bind; [done| |intros; by apply sound_modify].
    apply sound_inspect; [done|]. intros s msg H.
    by apply insertGlobalValueSymbols_noThrow in H. }
  unfold linkIR, linkIR_collect, specializeIRForEntryPoint, linkIR_finish.
  repeat msg_step.
Qed.

End LinkMessages.

(** X13. Whatever a link throws is one of six messages: "no matching IR
    symbol", "expected entry point to be a function", "too many
    parameters", "no matching values registered", "duplicate global
    instruction" and "unhandled case"; the generic specializer, which is
    not part of this file, is taken to throw no other. *)
Theorem link_throws_only_its_own_messages fuel input s msg :
  (forall x s0 m, (specializeGeneric x s0).1 = Unexpected m -> m ∈ linkMessages) ->
  (linkIR fuel input s).1 = Unexpected msg ->
  msg ∈ linkMessages.
Proof.
  intros Hsg Hrun.
  assert (forall x, sound (fun _ _ => True) (fun m => m ∈ linkMessages) (specializeGeneric x))
    as Hsound by (intros x s0; split; [done|apply Hsg]).
  by apply (sound_linkIR Hsound fuel input s).
Qed.

(** ** A declaration is cloned once *)

(** X12. Once [cloneInst] has returned for a declaration, none of the
    values the clone was made for is cloned again: each of them (the
    original, or every declaration of the symbol) is registered, so that
    a later [cloneValue] of it is a lookup that returns an instruction
    behind the source arena and changes nothing. The state is one of a
    link of the closed source arena [h], and stays one. *)
Theorem cloned_declarations_are_not_cloned_again fuel b (x : IRInst) ovs h s c s' :
  closedSource h ->
  Inv h s ->
  fresh0 (length h) (insertIntoParent b) ->
  cloneInst fuel b x ovs s = (Val c, s') ->
  Inv h s' /\
  forall v, v ∈ valuesFor ovs -> v <> nullptr ->
    exists c', length h < c' /\ findClonedValue (envs s') v = c' /\
      forall fuel', cloneValue (S fuel') v s' = (Val c', s').
Proof.
  intros Hc Hs Hb Hrun.
  destruct (spec_cloneInst h Hc fuel b x ovs Hb s Hs) as (Hs' & _ & _).
  pose proof (est_cloneInst h Hc fuel b x ovs Hb s Hs c) as Hreg.
  rewrite Hrun in Hs', Hreg. simpl in Hs', Hreg. specialize (Hreg eq_refl).
  split; [done|]. intros v Hv Hne.
  pose proof (known_findClonedValue h s' v Hs' (Hreg v Hv Hne)) as Hfind.
  exists (findClonedValue (envs s') v). split; [done|]. split; [done|].
  intros fuel'. cbn [cloneValue]. unfold cloneValue_body.
  rewrite bool_decide_eq_false_2 by done. unfold bind, gets.
  rewrite bool_decide_eq_false_2 by lia. reflexivity.
Qed.

(** ** The loop over the witness tables *)

(** X14. The loop that clones witness tables ahead of the entry point
    touches nothing else: when no entry of the symbol table is headed by
    a witness table, it returns and leaves the state as it was, with no
    instruction made and nothing registered. *)
Theorem only_witness_tables_are_cloned_ahead fuel (s : LinkState) :
  (forall name sym, (name, sym) ∈ symbols s ->
     exists d, deref (heap s) (irGlobalValue sym) = Val d /\ op d <> kIROp_WitnessTable) ->
  cloneWitnessTables fuel s = (Val tt, s).
Proof.
  intros H. unfold cloneWitnessTables, bind at 1, gets. cbv iota beta.
  induction (symbols s) as [|[name sym] syms IH]; [done|].
  simpl. unfold bind at 1, bind at 1, derefM, inspect.
  destruct (H name sym) as (d & Hd & Hop); [by left|].
  rewrite Hd. unfold isOp. rewrite bool_decide_eq_false_2 by done.
  unfold ret at 1. apply IH. intros name' sym' Hin. apply (H name' sym'). by right.
Qed.

(** ** A clone is no instruction of a source module *)

(** X15. In a link of the closed source arena [h], what [cloneValue]
    returns is never an instruction of a source module: it is null (for a
    null original) or an instruction behind the source arena. And however
    the call ends, the state is still one of a link of [h] (the source
    arena in front, and behind it only instructions that point behind
    it), with every original that was registered still registered. *)
Theorem clone_is_no_source_instruction fuel (x : IRInst) h s :
  closedSource h ->
  Inv h s ->
  Inv h (cloneValue fuel x s).2 /\
  (forall o, known (envs s) o -> known (envs (cloneValue fuel x s).2) o) /\
  (forall c, (cloneValue fuel x s).1 = Val c -> c = nullptr \/ length h < c).
Proof.
  intros Hc Hs.
  destruct (spec_cloneValue h Hc fuel x s Hs) as (Hs' & (_ & _ & Hk) & Hq).
  split; [done|]. split; [done|]. intros c Hrun. exact (Hq c Hrun).
Qed.

(** ** Literals *)

Lemma madeLit_raise K v (o : Outcome IRInst) : (forall c, o <> Val c) -> madeLit K v (raise o).
Proof. intros Ho s c s' _ [= H _]. by destruct (Ho c). Qed.

Lemma madeLit_pre {A : Type} K v (m : M A) (k : A -> M IRInst) :
  keeps m -> (forall a, madeLit K v (k a)) -> madeLit K v (bind m k).
Proof.
  intros Hm Hk s c s' Hok H. apply bind_inv in H as (a & _ & H).
  apply (Hk a) in H; [done|]. by apply (Hm s).
Qed.

(** A shared instruction, found in the table or made for it. *)
Lemma madeLit_findOrEmitHoistableInst b t K args v :
  madeLit K v (findOrEmitHoistableInst b t K args v).
Proof.
  intros s c s' Hok Hrun. unfold findOrEmitHoistableInst in Hrun.
  apply bind_inv in Hrun as (found & Hfound & Hrun).
  unfold gets in Hfound, Hrun. simpl in Hfound, Hrun. injection Hfound as <-.
  destruct (findKey (K, t, args, v) (globalValueNumberingMap s)) as [inst|] eqn:E.
  - injection Hrun as <- <-. exact (Hok _ _ _ _ _ E).
  - unfold bind at 1, createInst, allocInst in Hrun. simpl in Hrun.
    unfold bind at 1, modify at 1 in Hrun. simpl in Hrun.
    apply bind_inv in Hrun as ([] & _ & Hrun). injection Hrun as <- <-.
    match goal with
    | |- context [(addHoistableInst b ?i ?s2).2] =>
        destruct (proj1 (keeps_addHoistableInst b i s2) i (mkInst K t args nullptr [] v 0))
          as (d' & Hd' & Hop' & Hv'); [apply deref_app_new|]
    end.
    by exists d'.
Qed.
#[local] Hint Resolve madeLit_findOrEmitHoistableInst : madeLit.

Ltac madeLit_step :=
  lazymatch goal with
  | |- madeLit _ _ (bind _ _) => apply madeLit_pre; [keeps_tac|intros]
  | |- madeLit _ _ (match ?x with _ => _ end) => destruct x
  | |- madeLit _ _ (raise _) => apply madeLit_raise; discriminate
  | |- madeLit _ _ _ => solve [eauto with madeLit]
  end.

Ltac madeLit_tac := repeat madeLit_step.

Lemma madeLit_getBoolValue b (v : bool) :
  madeLit kIROp_BoolLit (IntVal (if v then 1 else 0)) (getBoolValue b v).
Proof. unfold getBoolValue. madeLit_tac. Qed.

Lemma madeLit_getIntValue b t v : madeLit kIROp_IntLit v (getIntValue b t v).
Proof. unfold getIntValue. madeLit_tac. Qed.

Lemma madeLit_getFloatValue b t v : madeLit kIROp_FloatLit v (getFloatValue b t v).
Proof. unfold getFloatValue. madeLit_tac. Qed.

Lemma madeLit_getStringValue b v : madeLit kIROp_StringLit v (getStringValue b v).
Proof. unfold getStringValue. madeLit_tac. Qed.

Lemma madeLit_getPtrValue b v : madeLit kIROp_PtrLit v (getPtrValue b v).
Proof. unfold getPtrValue. madeLit_tac. Qed.
#[local] Hint Resolve madeLit_getIntValue madeLit_getFloatValue madeLit_getStringValue
  madeLit_getPtrValue : madeLit.

(** X16. A literal is cloned with what it holds. When the table of shared
    instructions is sound, the clone [cloneValue] makes or finds for a
    literal that is not registered yet is a literal of the same opcode
    with the same payload (for a Boolean literal, 0 for 0 and 1 for any
    other value), and the table is sound afterwards. *)
Theorem literal_is_cloned_with_its_payload fuel (x : IRInst) s o c s' :
  numberingOK s ->
  deref (heap s) x = Val o ->
  op o ∈ [kIROp_BoolLit; kIROp_IntLit; kIROp_FloatLit; kIROp_StringLit; kIROp_PtrLit] ->
  findClonedValue (envs s) x = nullptr ->
  cloneValue fuel x s = (Val c, s') ->
  numberingOK s' /\
  exists d, deref (heap s') c = Val d /\ op d = op o /\
    value d = match op o, value o with
              | kIROp_BoolLit, IntVal z => IntVal (if bool_decide (z = 0%Z) then 0 else 1)
              | _, v => v
              end.
Proof.
  intros Hok Ho Hin Hfind Hrun. split.
  { pose proof (proj2 (proj1 (keeps_clone fuel) x s) Hok) as H. by rewrite Hrun in H. }
  destruct fuel as [|fuel]; [discriminate Hrun|].
  destruct (keeps_clone fuel) as [Hv Hi].
  assert (x <> nullptr) as Hx by (intros ->; discriminate Ho).
  cbn [cloneValue] in Hrun. unfold cloneValue_body in Hrun.
  rewrite bool_decide_eq_false_2 in Hrun by done.
  unfold bind at 1, gets at 1 in Hrun. rewrite Hfind in Hrun.
  rewrite bool_decide_eq_true_2 in Hrun by done. cbv iota beta in Hrun. simpl negb in Hrun.
  cbv iota in Hrun. unfold maybeCloneValue in Hrun.
  apply bind_inv in Hrun as (o' & Ho' & Hrun).
  unfold derefM, inspect in Ho', Hrun. simpl in Ho', Hrun.
  rewrite Ho in Ho'. injection Ho' as <-.
  assert (forall t, keeps (cloneType (cloneValue fuel) t)) as Hty by (intros t; apply Hv).
  repeat (apply elem_of_cons in Hin as [Hin|Hin]); [..|by apply elem_of_nil in Hin];
    rewrite Hin in Hrun |- *; cbv iota in Hrun;
    lazymatch type of Hrun with
    | ?m s = _ =>
        lazymatch goal with
        | |- exists d, _ /\ op d = ?K /\ value d = ?V =>
            enough (madeLit K V m) as Hm by exact (Hm s c s' Hok Hrun)
        end
    end.
  - apply madeLit_pre; [keeps_tac|]. intros b.
    destruct (value o) as [| z | | |]; try (apply madeLit_raise; discriminate).
    pose proof (madeLit_getBoolValue b (negb (bool_decide (z = 0%Z)))) as H.
    by destruct (bool_decide (z = 0%Z)).
  - madeLit_tac.
  - madeLit_tac.
  - madeLit_tac.
  - madeLit_tac.
Qed.
End Link.

(** * The properties at concrete inputs *)

(** C6 at the generic 15 of [heapTargets], which returns the function 12
    marked for hlsl. *)
Lemma generic_level_witness :
  genericReturns heapTargets 15 12 /\
  getTargetSpecialiationLevel 1 heapTargets 15 "hlsl" =
  getTargetSpecialiationLevel 0 heapTargets 12 "hlsl".
Proof.
  assert (H : genericReturns heapTargets 15 12).
  { exists (inst kIROp_Generic [] 1 [13] NoValue), (inst kIROp_Block [] 15 [14] NoValue),
           (inst kIROp_ReturnVal [12] 13 [] NoValue).
    repeat split; try reflexivity. vm_compute. discriminate. }
  split; [exact H|].
  exact (generic_level_is_level_of_returned_value 0 heapTargets 15 12 "hlsl" H).
Defined.

(** C1 at the three declarations of G in [heapTargets], linked for HLSL:
    12, the one marked for hlsl, is chosen. *)
Lemma best_declaration_witness :
  getTargetName CodeGenTarget.HLSL = Val "hlsl" /\
  exists b,
    selectBestVal hasBody 1 heapTargets CodeGenTarget.HLSL symbolG = Val b /\
    b ∈ symbolValues symbolG /\
    b = 12.
Proof.
  split; [reflexivity|].
  pose (R := fun c : nat =>
    match rankOf hasBody 1 heapTargets "hlsl" c with
    | Val r => r
    | _ => mkRank notSpecialized false false
    end).
  destruct (best_declaration_is_maximal hasBody 1 heapTargets CodeGenTarget.HLSL "hlsl" R symbolG)
    as (b & Hb & Hin & Hmax & Htarget & Hdef).
  - reflexivity.
  - intros c Hc. simpl in Hc.
    repeat (apply elem_of_cons in Hc as [->|Hc]; [vm_compute; reflexivity|]).
    by apply elem_of_nil in Hc.
  - exists b. split; [exact Hb|]. split; [exact Hin|].
    apply (Htarget 12).
    + simpl. set_solver.
    + reflexivity.
    + intros c Hc Hne. simpl in Hc.
      repeat (apply elem_of_cons in Hc as [->|Hc]; [first [done | vm_compute; discriminate]|]).
      by apply elem_of_nil in Hc.
Defined.

(** C1 fails as stated. For a target [getTargetName] does not name,
    ranking two declarations raises "unhandled case"; and of two unmarked
    declarations the bodyless one is chosen over the definition when it
    alone carries an export decoration. *)
Lemma best_declaration_counterexample :
  selectBestVal hasBody 1 heapTargets CodeGenTarget.SPIRV symbolG = Unexpected "unhandled case" /\
  rankOf hasBody 1 heapExportedDeclaration "hlsl" 4 = Val (mkRank notSpecialized false true) /\
  rankOf hasBody 1 heapExportedDeclaration "hlsl" 7 = Val (mkRank notSpecialized true false) /\
  selectBestVal hasBody 1 heapExportedDeclaration CodeGenTarget.HLSL
    (mkSymbol 4 (Some (mkSymbol 7 None))) = Val 7.
Proof. vm_compute. repeat split. Qed.

(** C2 at the three declarations of F in [heapTied]. *)
Lemma chain_order_witness :
  insertAll heapTied [] [4; 6; 9] =
    Val [("F", mkSymbol 4 (Some (mkSymbol 9 (Some (mkSymbol 6 None)))))] /\
  exists s b pre post,
    TryGetValue [("F", mkSymbol 4 (Some (mkSymbol 9 (Some (mkSymbol 6 None)))))] "F" = Some s /\
    symbolValues s = storedOrder (List.filter (hasLinkageName heapTied "F") [4; 6; 9]) /\
    selectBestVal hasBody 1 heapTied CodeGenTarget.GLSL s = Val b /\
    symbolValues s = pre ++ b :: post.
Proof.
  split; [reflexivity|].
  pose (R := fun c : nat =>
    match rankOf hasBody 1 heapTied "glsl" c with
    | Val r => r
    | _ => mkRank notSpecialized false false
    end).
  destruct (chain_order_and_tie_break hasBody 1 heapTied CodeGenTarget.GLSL "glsl" R
              [4; 6; 9] [("F", mkSymbol 4 (Some (mkSymbol 9 (Some (mkSymbol 6 None)))))] "F")
    as (s & b & pre & post & Hs & Hvals & Hb & Heq & _).
  - reflexivity.
  - vm_compute. discriminate.
  - reflexivity.
  - intros c Hc. vm_compute in Hc.
    repeat (apply elem_of_cons in Hc as [->|Hc]; [vm_compute; reflexivity|]).
    by apply elem_of_nil in Hc.
  - exists s, b, pre, post. auto.
Defined.

(** C2 fails as stated. The declarations 4, 6 and 9 are inserted in this
    order, yet the chain holds them as 4, 9, 6; 6 and 9 tie for the best
    rank, and 9, the later of the two in build order, is selected. *)
Lemma chain_order_counterexample :
  insertGlobalValueSymbols heapTied [] 1 =
    Val [("F", mkSymbol 4 (Some (mkSymbol 9 (Some (mkSymbol 6 None)))))] /\
  symbolValues (mkSymbol 4 (Some (mkSymbol 9 (Some (mkSymbol 6 None))))) = [4; 9; 6] /\
  rankOf hasBody 1 heapTied "glsl" 4 = Val (mkRank notSpecialized false false) /\
  rankOf hasBody 1 heapTied "glsl" 6 = Val (mkRank notSpecialized false true) /\
  rankOf hasBody 1 heapTied "glsl" 9 = Val (mkRank notSpecialized false true) /\
  selectBestVal hasBody 1 heapTied CodeGenTarget.GLSL
    (mkSymbol 4 (Some (mkSymbol 9 (Some (mkSymbol 6 None))))) = Val 9.
Proof. vm_compute. repeat split. Qed.

(** C3 at [stateRegistered], where 3 is registered for 2. *)
Lemma cloned_value_witness :
  cloneValue hasBody false 1 2 stateRegistered = (Val 3, stateRegistered).
Proof.
  apply (cloned_value_is_reused hasBody false 0 stateRegistered 2 3).
  - discriminate.
  - discriminate.
  - reflexivity.
Defined.

(** C8 at the declaration 4 of [stateNoSymbols], whose name F the empty
    table lacks, and at a link of [heapTied] for the entry point H, which
    no module declares. *)
Lemma unresolved_symbol_witness :
  cloneGlobalValueWithLinkage hasBody (cloneInst hasBody false 3) 3 4 3 stateNoSymbols =
    (Unexpected "no matching values registered", stateNoSymbols) /\
  (linkIR hasBody false noSpecialize 3 (inputEntry "H")
     (initialState heapTied CodeGenTarget.GLSL)).1 = Unexpected "no matching IR symbol".
Proof.
  destruct (unresolved_symbol_is_fatal hasBody false noSpecialize 3 (inputEntry "H")
              (initialState heapTied CodeGenTarget.GLSL) stateNoSymbols 4 3
              (inst kIROp_Func [] 1 [3] NoValue)
              (inst kIROp_ImportDecoration [2] 4 [] NoValue) "F")
    as (H1 & H2 & H3 & H4); try reflexivity; try discriminate.
  split; [exact H1|]. apply H4; reflexivity.
Defined.

(** C7 at the instruction 2 of [stateSelfTyped]. *)
Lemma no_circular_definition_witness :
  (cloneValue hasBody false 5 2 stateSelfTyped).1 <> Unexpected "circular definition".
Proof.
  apply (no_circular_definition_error hasBody false 4 2 stateSelfTyped).
  - discriminate.
  - reflexivity.
Defined.

(** C7 fails as stated. The instruction 2 is its own type: its clone asks
    for a clone of 2 while 2 is being cloned and before 2 is registered.
    Nothing detects this: at every budget the recursion is cut off by the
    budget, and no error is reported. *)
Lemma circular_definition_counterexample :
  ~ exists fuel, (cloneValue hasBody false fuel 2 stateSelfTyped).1 <> OutOfFuel.
Proof. intros [fuel H]. apply H. apply self_typed_runs_out. Qed.






(** ** Further properties at concrete inputs *)

(** X1 at the declarations 12 (marked for hlsl), 9 (not marked) and 7
    (marked for glsl) of [heapTargets], ranked for HLSL: 12 is better than
    9, and 9 better than 7. *)
Lemma strict_order_witness :
  (isBetterForTarget hasBody 1 heapTargets CodeGenTarget.HLSL 12 9 = Val true /\
   isBetterForTarget hasBody 1 heapTargets CodeGenTarget.HLSL 9 7 = Val true) /\
  isBetterForTarget hasBody 1 heapTargets CodeGenTarget.HLSL 12 12 = Val false /\
  (isBetterForTarget hasBody 1 heapTargets CodeGenTarget.HLSL 12 9 = Val true ->
   isBetterForTarget hasBody 1 heapTargets CodeGenTarget.HLSL 9 12 = Val false) /\
  (isBetterForTarget hasBody 1 heapTargets CodeGenTarget.HLSL 12 9 = Val true ->
   isBetterForTarget hasBody 1 heapTargets CodeGenTarget.HLSL 9 7 = Val true ->
   isBetterForTarget hasBody 1 heapTargets CodeGenTarget.HLSL 12 7 = Val true) /\
  (isBetterForTarget hasBody 1 heapTargets CodeGenTarget.HLSL 12 9 = Val false ->
   isBetterForTarget hasBody 1 heapTargets CodeGenTarget.HLSL 9 12 = Val false ->
   mkRank specializedForTarget false false = mkRank notSpecialized false false).
Proof.
  split; [split; reflexivity|].
  apply (isBetterForTarget_is_strict_order hasBody 1 heapTargets CodeGenTarget.HLSL "hlsl"
           12 9 7 (mkRank specializedForTarget false false) (mkRank notSpecialized false false)
           (mkRank specializedForOtherTarget false false)); reflexivity.
Defined.

(** X2 at the generic 15 of [heapTargets], which returns the function 12,
    whose decoration 11 names hlsl. *)
Lemma level_witness :
  (specializedForTarget = specializedForTarget <->
     exists dd, dd ∈ getDecorations heapTargets (inst kIROp_Func [] 1 [10; 11] NoValue) /\
                isTargetDecorationFor heapTargets "hlsl" dd) /\
  (specializedForTarget = notSpecialized <->
     forall dd, dd ∈ getDecorations heapTargets (inst kIROp_Func [] 1 [10; 11] NoValue) ->
                ~ isTargetDecoration heapTargets dd).
Proof.
  apply (level_is_read_off_the_target_decorations 1 heapTargets 15 12 "hlsl"
           (inst kIROp_Func [] 1 [10; 11] NoValue) specializedForTarget); reflexivity.
Defined.

(** X4 at [inputTwice]: the chain of G holds the declarations 7, 9 and 12
    twice, and 7, the first of them, is its head. *)
Lemma symbol_table_witness :
  valuesOf (symbols stateTwice) "G" = [7; 12; 9; 7; 12; 9] /\
  heap stateTwice = heapTargets ++ [emptyModule] /\
  valuesOf (symbols stateTwice) "G" =
    storedOrder (concat (map (namedGlobalsOf (heap stateTwice) "G")
                           (originalProgramIRModule inputTwice :: moduleDependencies inputTwice))).
Proof.
  split; [vm_compute; reflexivity|].
  apply (symbol_table_holds_every_declaration inputTwice heapTargets CodeGenTarget.HLSL
           stateTwice "G").
  vm_compute. reflexivity.
Defined.

(** X5 at [inputTwice]: the layout of g is the one of the global scope. *)
Lemma global_scope_layout_witness :
  TryGetValue (globalVarLayouts stateTwice) "g" =
  match TryGetValue (globalScopeVarLayouts inputTwice) "g" with
  | Some layout => Some layout
  | None => TryGetValue (entryPointGroupVarLayouts inputTwice) "g"
  end.
Proof.
  apply (global_scope_layout_comes_first inputTwice heapTargets CodeGenTarget.HLSL stateTwice "g").
  vm_compute. reflexivity.
Defined.

Lemma heapWitness_closed : closedSource heapWitness.
Proof. apply closedSource_Forall. apply (bool_decide_unpack _). vm_compute. exact I. Qed.

(** X7 at a link of [heapWitness] that throws, for an entry point the
    arena does not hold. *)
Lemma source_modules_witness :
  exists l, heap (linkIR hasBody false noSpecialize 10 inputAbsent
                    (initialState heapWitness CodeGenTarget.HLSL)).2 = heapWitness ++ l.
Proof.
  apply (source_modules_are_never_written hasBody false noSpecialize 10 inputAbsent heapWitness
           CodeGenTarget.HLSL).
  - exact heapWitness_closed.
  - intros x Hx. by apply spec_noSpecialize.
Defined.

(** X8 at the link of [heapWitness] for [main]: the module is 8 and the
    entry point 13. *)
Lemma linked_module_witness :
  module (mkLinkedIR 8 13) = S (length heapWitness) /\
  length heapWitness < entryPoint (mkLinkedIR 8 13) /\
  exists l,
    heap (linkIR hasBody false noSpecialize 10 inputWitness
            (initialState heapWitness CodeGenTarget.HLSL)).2 = heapWitness ++ l /\
    Forall (closedData (length heapWitness)) l.
Proof.
  apply (linked_module_is_self_contained hasBody false noSpecialize 10 inputWitness heapWitness
           CodeGenTarget.HLSL (mkLinkedIR 8 13)).
  - exact heapWitness_closed.
  - intros x Hx. by apply spec_noSpecialize.
  - apply run_Val. vm_compute. reflexivity.
Defined.

(** X10 at the witness table 7 of [heapWitness], cloned into the module
    8: the clone is 9. *)
Lemma clone_opcode_witness :
  length (heap stateWitness) < 9 /\
  exists d,
    deref (heap (cloneInst hasBody false 10 (setInsertInto 8) 7 (fromValue 7) stateWitness).2) 9
      = Val d /\
    op d = op (inst kIROp_WitnessTable [] 1 [6] NoValue).
Proof.
  apply (clone_is_new_and_of_the_same_opcode hasBody false 10 (setInsertInto 8) 7 (fromValue 7)
           stateWitness).
  - reflexivity.
  - apply run_Val. vm_compute. reflexivity.
Defined.

(** X11 at the link of [heapWitness] for [main]. *)
Lemma entry_point_witness :
  exists d,
    deref (heap (linkIR hasBody false noSpecialize 10 inputWitness
                   (initialState heapWitness CodeGenTarget.HLSL)).2)
      (entryPoint (mkLinkedIR 8 13)) = Val d /\
    op d = kIROp_Func.
Proof.
  apply (entry_point_is_a_function hasBody false noSpecialize 10 inputWitness
           (initialState heapWitness CodeGenTarget.HLSL) (mkLinkedIR 8 13)).
  apply run_Val. vm_compute. reflexivity.
Defined.

(** X12 at the witness table 7 of [heapWitness], cloned into the module 8
    once the symbol table is collected. *)
Lemma cloned_once_witness :
  Inv heapWitness
    (cloneInst hasBody false 10 (setInsertInto 8) 7 (fromValue 7) stateWitness).2 /\
  forall v, v ∈ valuesFor (fromValue 7) -> v <> nullptr ->
    exists c',
      length heapWitness < c' /\
      findClonedValue
        (envs (cloneInst hasBody false 10 (setInsertInto 8) 7 (fromValue 7) stateWitness).2) v
        = c' /\
      forall fuel',
        cloneValue hasBody false (S fuel') v
          (cloneInst hasBody false 10 (setInsertInto 8) 7 (fromValue 7) stateWitness).2 =
        (Val c', (cloneInst hasBody false 10 (setInsertInto 8) 7 (fromValue 7) stateWitness).2).
Proof.
  apply (cloned_declarations_are_not_cloned_again hasBody false 10 (setInsertInto 8) 7
           (fromValue 7) heapWitness stateWitness 9).
  - exact heapWitness_closed.
  - apply (linkIR_collect_Inv heapWitness heapWitness_closed inputWitness CodeGenTarget.HLSL
             (initialState heapWitness CodeGenTarget.HLSL) tt eq_refl).
    vm_compute. reflexivity.
  - right. simpl. lia.
  - apply run_Val. vm_compute. reflexivity.
Defined.

(** X13 at a link of [heapWitness] for an entry point it does not hold. *)
Lemma link_messages_witness : "no matching IR symbol" ∈ linkMessages.
Proof.
  apply (link_throws_only_its_own_messages hasBody false noSpecialize 10 inputAbsent
           (initialState heapWitness CodeGenTarget.HLSL)).
  - intros x s0 m H. discriminate H.
  - vm_compute. reflexivity.
Defined.

(** X14 at [stateTwice], whose symbol table holds the functions of G. *)
Lemma no_witness_table_witness :
  cloneWitnessTables hasBody false 10 stateTwice = (Val tt, stateTwice).
Proof.
  apply (only_witness_tables_are_cloned_ahead hasBody false 10 stateTwice).
  intros name sym Hin. vm_compute in Hin.
  apply elem_of_cons in Hin as [[= -> ->]|Hin]; [|by apply elem_of_nil in Hin].
  eexists. split; [vm_compute; reflexivity|]. simpl. discriminate.
Defined.

(** X15 at the function 5 of [heapWitness], cloned once the symbol table
    is collected. *)
Lemma clone_is_no_source_witness :
  Inv heapWitness (cloneValue hasBody false 10 5 stateWitness).2 /\
  (forall o, known (envs stateWitness) o ->
             known (envs (cloneValue hasBody false 10 5 stateWitness).2) o) /\
  (forall c, (cloneValue hasBody false 10 5 stateWitness).1 = Val c ->
             c = nullptr \/ length heapWitness < c).
Proof.
  apply (clone_is_no_source_instruction hasBody false 10 5 heapWitness stateWitness).
  - exact heapWitness_closed.
  - apply (linkIR_collect_Inv heapWitness heapWitness_closed inputWitness CodeGenTarget.HLSL
             (initialState heapWitness CodeGenTarget.HLSL) tt eq_refl).
    vm_compute. reflexivity.
Defined.

(** X16 at the Boolean literal 2 of [heapBool], of payload 5: its clone 5
    is a Boolean literal of payload 1. *)
Lemma literal_payload_witness :
  numberingOK (cloneValue hasBody false 5 2 (freshState heapBool CodeGenTarget.HLSL [] [])).2 /\
  exists d,
    deref (heap (cloneValue hasBody false 5 2 (freshState heapBool CodeGenTarget.HLSL [] [])).2) 5
      = Val d /\
    op d = kIROp_BoolLit /\
    value d = IntVal 1.
Proof.
  apply (literal_is_cloned_with_its_payload hasBody false 5 2
           (freshState heapBool CodeGenTarget.HLSL [] [])
           (inst kIROp_BoolLit [] 1 [] (IntVal 5)) 5).
  - intros o t args v i Hi. discriminate Hi.
  - reflexivity.
  - simpl. constructor.
  - reflexivity.
  - apply run_Val. vm_compute. reflexivity.
Defined.
